(** * taskmgr: the status-extraction engine of [src/taskmgr.py]

    A shallow embedding of [TaskManager] (template matching, file grouping,
    pattern probing, status classification, configuration commands) and the
    properties of the specification proved or refuted against it.

    Modelling conventions.
    - A Python [str] is a Rocq [string]: a character is a code point
      below 256, and a [str] with another code point is outside the
      model; slicing, [replace] and the matcher work on the character
      list.  [str.isdigit] and [int], which depend on more than that, are
      parameters of the commands that call them.
    - A [dict] is a [gmap], a [set] a [gset]; [list(set(l))] is
      [elements (list_to_set l)] (an order fixed by the set, not by [l]).
    - An exception is a value of [exn]; code that can raise returns a
      [result].
    - Timestamps are rationals ([float] seconds), [int(x)] truncates. *)

From Stdlib Require Import Ascii String QArith Qround.
From Stdlib Require Import DecimalString.
From stdpp Require Import gmap strings list fin_maps sorting.
From Equations Require Import Equations.

Local Open Scope string_scope.
Local Open Scope Z_scope.
Local Open Scope list_scope.

(** ** Exceptions and results *)

Inductive exn : Type :=
| KeyError (key : string)
| IndexError (arg : string)
| OSError (path : string)
| ReError (pattern : string)
| TypeError (what : string)
| ValueError (arg : string)
| Unmodelled (what : string).

Inductive result (A : Type) : Type :=
| Ok (a : A)
| Raise (e : exn).
Arguments Ok {A} a.
Arguments Raise {A} e.

#[global] Instance result_ret : MRet result := @Ok.
#[global] Instance result_bind : MBind result :=
  λ A B f m, match m with Ok a => f a | Raise e => Raise e end.

Definition is_ok {A} (r : result A) : bool :=
  match r with Ok _ => true | Raise _ => false end.

(** ** Strings as character lists *)

Definition chars (s : string) : list ascii := list_ascii_of_string s.
Definition str (l : list ascii) : string := string_of_list_ascii l.

(** [s[::-1]] *)
Definition str_rev (s : string) : string := str (rev (chars s)).

Fixpoint is_prefix (p s : list ascii) : bool :=
  match p, s with
  | [], _ => true
  | a :: p', b :: s' => bool_decide (a = b) && is_prefix p' s'
  | _ :: _, [] => false
  end.

(** [s.replace(old, new)] for a non-empty [old]: occurrences are found left
    to right and do not overlap.  [skip] counts the characters of the
    occurrence just replaced that are still to be passed over. *)
Fixpoint replace_go (old new : list ascii) (skip : nat) (s : list ascii)
  : list ascii :=
  match s with
  | [] => []
  | c :: s' =>
      match skip with
      | S k => replace_go old new k s'
      | O =>
          if is_prefix old s
          then new ++ replace_go old new (length old - 1) s'
          else c :: replace_go old new 0 s'
      end
  end.

(** With an empty [old], Python puts [new] before every character and at
    the end. *)
Definition replace_chars (old new s : list ascii) : list ascii :=
  match old with
  | [] => new ++ flat_map (λ c, c :: new) s
  | _ :: _ => replace_go old new 0 s
  end.

Definition str_replace (old new s : string) : string :=
  str (replace_chars (chars old) (chars new) (chars s)).

(** ** The [parse] package

    Modelled from the spec: [parse.parse(format, string)] of the
    third-party package [parse], which [taskmgr.py] imports and [src/]
    does not contain.  The specification (4.1) has the matcher run "a
    standard left-to-right template match on the reversed strings", with
    the placeholder taking the run up to the next literal boundary, or
    everything that remains when the only boundary is the end of the
    string.  [Parse.parse] is that match as the package performs it, for
    format strings made of literal text, the escapes [{{] and [}}], and
    untyped fields [{name}]: the format becomes the regular expression
    [\A...\Z], every untyped field the lazy group [(.+?)], a repeated name
    a back-reference, and the match ignores letter case, of the ASCII
    letters and of the letters [À] to [Þ].  A format with a typed, dotted
    or indexed field, or with a character past the ASCII range after the
    word that follows an opening brace, is outside the model
    ([Unmodelled]).
    [match_file_with] takes [parse] as a parameter. *)

Module Parse.

Inductive piece : Type :=
| PLit (c : ascii)
| PField (name : list ascii).

Inductive token : Type :=
| Lit (c : ascii)
| Named (name : string)
| Backref (name : string)
| Fixed.

Definition is_upper (c : ascii) : bool :=
  (65 <=? nat_of_ascii c)%nat && (nat_of_ascii c <=? 90)%nat.
Definition is_lower (c : ascii) : bool :=
  (97 <=? nat_of_ascii c)%nat && (nat_of_ascii c <=? 122)%nat.
Definition is_digit (c : ascii) : bool :=
  (48 <=? nat_of_ascii c)%nat && (nat_of_ascii c <=? 57)%nat.
Definition is_alpha (c : ascii) : bool := is_upper c || is_lower c.
(** [\w] *)
Definition is_word (c : ascii) : bool :=
  is_alpha c || is_digit c || bool_decide (c = "_"%char).

(** The capital letters past the ASCII range: [À] to [Þ] without the
    multiplication sign. *)
Definition is_upper_latin1 (c : ascii) : bool :=
  (192 <=? nat_of_ascii c)%nat && (nat_of_ascii c <=? 222)%nat
  && negb (nat_of_ascii c =? 215)%nat.

Definition lower (c : ascii) : ascii :=
  if is_upper c || is_upper_latin1 c
  then ascii_of_nat (nat_of_ascii c + 32) else c.
(** two characters match under IGNORECASE *)
Definition ci_eqb (a b : ascii) : bool := bool_decide (lower a = lower b).

Fixpoint span_word (s : list ascii) : list ascii * list ascii :=
  match s with
  | c :: s' =>
      if is_word c
      then let '(w, r) := span_word s' in (c :: w, r)
      else ([], s)
  | [] => ([], [])
  end.

(** Splitting the format at [{{], [}}] and [{field}], as the package's
    [PARSE_RE.split] does.  [skip] counts characters already consumed by
    the piece before. *)
Fixpoint split_go (skip : nat) (s : list ascii) : option (list piece) :=
  match s with
  | [] => Some []
  | c :: s' =>
      match skip with
      | S k => split_go k s'
      | O =>
          if bool_decide (c = "{"%char) then
            match s' with
            | "{"%char :: _ => cons (PLit "{") <$> split_go 1 s'
            | _ =>
                let '(w, r) := span_word s' in
                match r with
                | "}"%char :: _ =>
                    cons (PField w) <$> split_go (S (length w)) s'
                | d :: _ =>
                    if bool_decide (d ∈ ["."; "["; ":"; "-"]%char)
                       || (128 <=? nat_of_ascii d)%nat
                    then None
                    else cons (PLit c) <$> split_go 0 s'
                | [] => cons (PLit c) <$> split_go 0 s'
                end
            end
          else if bool_decide (c = "}"%char) then
            match s' with
            | "}"%char :: _ => cons (PLit "}") <$> split_go 1 s'
            | _ => cons (PLit c) <$> split_go 0 s'
            end
          else cons (PLit c) <$> split_go 0 s'
      end
  end.

(** A field whose name starts with a letter is named; any other field is
    positional.  The second occurrence of a name refers back to the
    first. *)
Fixpoint compile (seen : list string) (ps : list piece) : list token :=
  match ps with
  | [] => []
  | PLit c :: ps' => Lit c :: compile seen ps'
  | PField [] :: ps' => Fixed :: compile seen ps'
  | PField (c :: w) :: ps' =>
      if is_alpha c then
        let name := str (c :: w) in
        if bool_decide (name ∈ seen)
        then Backref name :: compile seen ps'
        else Named name :: compile (name :: seen) ps'
      else Fixed :: compile seen ps'
  end.

(** The lazy group [(.+?)]: the shortest non-empty prefix for which the
    rest of the expression matches.  [acc] is the prefix so far,
    reversed. *)
Fixpoint lazy_group {A} (k : list ascii → list ascii → option A)
    (acc s : list ascii) : option A :=
  match s with
  | [] => None
  | c :: s' =>
      match k (rev (c :: acc)) s' with
      | Some r => Some r
      | None => lazy_group k (c :: acc) s'
      end
  end.

Fixpoint ci_strip (p s : list ascii) : option (list ascii) :=
  match p, s with
  | [], _ => Some s
  | a :: p', b :: s' => if ci_eqb a b then ci_strip p' s' else None
  | _ :: _, [] => None
  end.

Fixpoint match_tokens (ts : list token) (named : gmap string string)
    (s : list ascii) : option (gmap string string) :=
  match ts with
  | [] => match s with [] => Some named | _ :: _ => None end
  | Lit c :: ts' =>
      match s with
      | c' :: s' => if ci_eqb c c' then match_tokens ts' named s' else None
      | [] => None
      end
  | Named name :: ts' =>
      lazy_group (λ cap rest, match_tokens ts' (<[name := str cap]> named) rest)
                 [] s
  | Fixed :: ts' =>
      lazy_group (λ _ rest, match_tokens ts' named rest) [] s
  | Backref name :: ts' =>
      match named !! name with
      | Some cap =>
          match ci_strip (chars cap) s with
          | Some rest => match_tokens ts' named rest
          | None => None
          end
      | None => None
      end
  end.

(** [parse.parse(format, string)]: [None] or the named fields of the
    [Result]. *)
Definition parse (format s : string)
  : result (option (gmap string string)) :=
  match split_go 0 (chars format) with
  | Some ps => Ok (match_tokens (compile [] ps) ∅ (chars s))
  | None => Raise (Unmodelled format)
  end.

End Parse.

(** ** [TaskManager.match_file] *)

Definition match_file_with
    (parse : string → string → result (option (gmap string string)))
    (fnp fn : string) : result (bool * option string) :=
  let fn_reversed := str_rev fn in
  let fnp_reversed :=
    str_replace "!|*#" "}"
      (str_replace "}" "{" (str_replace "{" "!|*#" (str_rev fnp))) in
  res ← parse fnp_reversed fn_reversed;
  match res with
  | Some named =>
      match named !! "eman" with
      | Some v => Ok (true, Some (str_rev v))
      | None => Raise (KeyError "eman")
      end
  | None => Ok (false, None)
  end.

Definition match_file : string → string → result (bool * option string) :=
  match_file_with Parse.parse.

(** ** Python values used by the commands *)

(** [Union[AnyStr, List[AnyStr]]] *)
Inductive str_or_seq : Type :=
| One (s : string)
| Seq (l : list string).

(** [Union[str, int]] *)
Inductive str_or_int : Type :=
| IStr (s : string)
| IInt (n : Z).

Definition _ensure_sequential (data : str_or_seq) : list string :=
  match data with
  | Seq l => l
  | One s => [s]
  end.

(** A non-empty string of the digits 0 to 9, and the number it
    writes. *)
Definition decimal (s : string) : bool :=
  match chars s with
  | [] => false
  | l => forallb Parse.is_digit l
  end.

Definition int_of_digits (s : string) : Z :=
  foldl (λ acc c, 10 * acc + (Z.of_nat (nat_of_ascii c) - 48)) 0 (chars s).

(** [s.isdigit()] and [int(s)] are taken from the interpreter: the
    commands below have them as parameters.  [isdigit] accepts more than
    the strings of the digits 0 to 9, and [int] raises [ValueError] for
    some of the strings it accepts.  On the strings of the model they are
    [str_isdigit] and [str_int]: the superscripts [¹], [²] and [³] are
    digits for [isdigit] and no digits for [int]. *)
Definition is_superscript (c : ascii) : bool :=
  bool_decide (nat_of_ascii c ∈ [178; 179; 185]%nat).

Definition str_isdigit (s : string) : bool :=
  match chars s with
  | [] => false
  | l => forallb (λ c, Parse.is_digit c || is_superscript c) l
  end.

(** [int(s)] for a string [s] that [isdigit] accepts *)
Definition str_int (s : string) : result Z :=
  if decimal s then Ok (int_of_digits s)
  else Raise (ValueError
                ("invalid literal for int() with base 10: '" +:+ s +:+ "'")).

(** The string [²]. *)
Definition superscript_two : string := String (ascii_of_nat 178) "".

(** [str(n)] and [str(l)] for a list of integers *)
Definition str_of_int (n : Z) : string := NilZero.string_of_int (Z.to_int n).

Definition str_join (sep : string) (l : list string) : string :=
  match l with
  | [] => ""
  | x :: l' => foldl (λ acc y, acc +:+ sep +:+ y) x l'
  end.

Definition str_of_int_list (l : list Z) : string :=
  "[" +:+ str_join ", " (str_of_int <$> l) +:+ "]".

(** [l[i]], with Python's negative indices *)
Definition py_index {A} (l : list A) (i : Z) : result A :=
  let n := Z.of_nat (length l) in
  let j := if i <? 0 then i + n else i in
  if (0 <=? j) && (j <? n)
  then match l !! Z.to_nat j with
       | Some x => Ok x
       | None => Raise (IndexError "list index out of range")
       end
  else Raise (IndexError "list index out of range").

Fixpoint mapM {A B} (f : A → result B) (l : list A) : result (list B) :=
  match l with
  | [] => Ok []
  | x :: l' => y ← f x; ys ← mapM f l'; Ok (y :: ys)
  end.

Fixpoint foldM {A B} (f : A → B → result A) (a : A) (l : list B) : result A :=
  match l with
  | [] => Ok a
  | x :: l' => a' ← f a x; foldM f a' l'
  end.

(** ** The configuration store *)

Record group : Type := Group {
  fnp : string;
  ending : string;
  builtin_func : bool;
  paths : list string;
  patterns : list string;
  excluded : list string;
  included : list string;
}.

Definition default_group : group :=
  {| fnp := "{name}.{ext}"; ending := "done"; builtin_func := true;
     paths := []; patterns := []; excluded := []; included := [] |}.

Record configuration : Type := Configuration {
  version : string;
  activated_groups : gmap string group;
  deactivated_groups : gmap string group;
}.

Definition __VERSION__ : string := "v0.0.1".

Definition init_config : configuration :=
  {| version := __VERSION__; activated_groups := ∅; deactivated_groups := ∅ |}.

(** A [TaskManager] object and the files that hold saved configurations
    ([save_cfg] writes the whole configuration to [cfg_path]). *)
Record TaskManager : Type := Manager {
  cfg_path : string;
  cfg : configuration;
  width : Z;
}.

Record world : Type := World {
  self : TaskManager;
  disk : gmap string configuration;
}.

Definition set_fnp (v : string) (g : group) : group :=
  {| fnp := v; ending := ending g; builtin_func := builtin_func g;
     paths := paths g; patterns := patterns g; excluded := excluded g;
     included := included g |}.
Definition set_ending (v : string) (g : group) : group :=
  {| fnp := fnp g; ending := v; builtin_func := builtin_func g;
     paths := paths g; patterns := patterns g; excluded := excluded g;
     included := included g |}.
Definition set_builtin_func (v : bool) (g : group) : group :=
  {| fnp := fnp g; ending := ending g; builtin_func := v;
     paths := paths g; patterns := patterns g; excluded := excluded g;
     included := included g |}.
Definition set_paths (v : list string) (g : group) : group :=
  {| fnp := fnp g; ending := ending g; builtin_func := builtin_func g;
     paths := v; patterns := patterns g; excluded := excluded g;
     included := included g |}.
Definition set_patterns (v : list string) (g : group) : group :=
  {| fnp := fnp g; ending := ending g; builtin_func := builtin_func g;
     paths := paths g; patterns := v; excluded := excluded g;
     included := included g |}.
Definition set_excluded (v : list string) (g : group) : group :=
  {| fnp := fnp g; ending := ending g; builtin_func := builtin_func g;
     paths := paths g; patterns := patterns g; excluded := v;
     included := included g |}.
Definition set_included (v : list string) (g : group) : group :=
  {| fnp := fnp g; ending := ending g; builtin_func := builtin_func g;
     paths := paths g; patterns := patterns g; excluded := excluded g;
     included := v |}.

(** [self[tag]] *)
Definition __getitem__ (self : TaskManager) (tag : string) : result group :=
  match activated_groups (cfg self) !! tag with
  | None => Raise (KeyError tag)
  | Some item => Ok item
  end.

(** [item] is the dictionary stored under [tag]: an assignment to one of
    its keys changes the configuration in place. *)
Definition store_item (tag : string) (item : group) (w : world) : world :=
  {| self :=
       {| cfg_path := cfg_path (self w);
          cfg := {| version := version (cfg (self w));
                    activated_groups :=
                      <[tag := item]> (activated_groups (cfg (self w)));
                    deactivated_groups := deactivated_groups (cfg (self w)) |};
          width := width (self w) |};
     disk := disk w |}.

(** [self.save()] *)
Definition save (w : world) : world :=
  {| self := self w;
     disk := <[cfg_path (self w) := cfg (self w)]> (disk w) |}.

(** [list(set(l))] *)
Definition list_set (l : list string) : list string :=
  elements (list_to_set l : gset string).
(** [list(set(a) - set(b))] *)
Definition list_set_diff (a b : list string) : list string :=
  elements ((list_to_set a : gset string) ∖ list_to_set b).

Definition when {A} (c : bool) (f : A → A) (a : A) : A :=
  if c then f a else a.
Definition truthy (o : option bool) : bool := default false o.

Definition config_item (fnp' ending' : option string)
    (builtin_func' remove_all_path remove_all_patterns : option bool)
    (include exclude : option (list string)) (item : group) : group :=
  let item := from_option (λ v, set_fnp v item) item fnp' in
  let item := from_option (λ v, set_ending v item) item ending' in
  let item := from_option (λ v, set_builtin_func v item) item builtin_func' in
  let item := when (truthy remove_all_path) (set_paths []) item in
  let item := when (truthy remove_all_patterns) (set_patterns []) item in
  let item :=
    match exclude with
    | Some ex =>
        let item := set_excluded (excluded item ++ ex) item in
        let item := set_excluded (list_set (excluded item)) item in
        set_included (list_set_diff (included item) (excluded item)) item
    | None => item
    end in
  match include with
  | Some inc =>
      let item := set_included (included item ++ inc) item in
      let item := set_included (list_set (included item)) item in
      set_excluded (list_set_diff (excluded item) (included item)) item
  | None => item
  end.

Section Commands.

(** [os.path.abspath], which depends on the working directory *)
Variable abspath : string → string.

(** [str.isdigit] and [int] on a [str] *)
Variable isdigit : string → bool.
Variable int : string → result Z.

Definition config (tag : string) (fnp' ending' : option string)
    (builtin_func' remove_all_path remove_all_patterns : option bool)
    (include exclude : option (list string)) (w : world)
  : result unit * world :=
  match __getitem__ (self w) tag with
  | Raise e => (Raise e, w)
  | Ok item =>
      let item := config_item fnp' ending' builtin_func' remove_all_path
                    remove_all_patterns include exclude item in
      (Ok (), save (store_item tag item w))
  end.

Definition add_paths (tag : string) (paths' : str_or_seq) (w : world)
  : result unit * world :=
  match __getitem__ (self w) tag with
  | Raise e => (Raise e, w)
  | Ok item =>
      let paths' := abspath <$> _ensure_sequential paths' in
      let item := set_paths (paths item ++ paths') item in
      (Ok (), save (store_item tag item w))
  end.

Definition del_paths (tag : string) (paths' : str_or_seq) (w : world)
  : result unit * world :=
  match __getitem__ (self w) tag with
  | Raise e => (Raise e, w)
  | Ok item =>
      let paths' : gset string :=
        list_to_set (abspath <$> _ensure_sequential paths') in
      let new_paths :=
        filter (λ path, abspath path ∉ paths') (paths item) in
      (Ok (), save (store_item tag (set_paths new_paths item) w))
  end.

Definition add_patterns (tag : string) (patterns' : str_or_seq) (w : world)
  : result unit * world :=
  match __getitem__ (self w) tag with
  | Raise e => (Raise e, w)
  | Ok item =>
      let patterns' := _ensure_sequential patterns' in
      let item := set_patterns (patterns item ++ patterns') item in
      (Ok (), save (store_item tag item w))
  end.

(** [for i, pattern in enumerate(l)] keeping the entries that are neither
    removed by index nor by text; [i] is the index of the head of [l]. *)
Fixpoint keep_patterns (rm_set : gset Z) (p_set : gset string) (i : Z)
    (l : list string) : list string :=
  match l with
  | [] => []
  | pattern :: l' =>
      if bool_decide (i ∉ rm_set) && bool_decide (pattern ∉ p_set)
      then pattern :: keep_patterns rm_set p_set (i + 1) l'
      else keep_patterns rm_set p_set (i + 1) l'
  end.

(** The body of [for pattern in patterns]; the accumulator is
    [(rm_set, p_set)]. *)
Definition sort_pattern (acc : gset Z * gset string) (pattern : string)
  : result (gset Z * gset string) :=
  if isdigit pattern
  then n ← int pattern; Ok ({[n]} ∪ acc.1, acc.2)
  else Ok (acc.1, {[pattern]} ∪ acc.2).

Definition del_patterns (tag : string) (patterns' : str_or_seq) (w : world)
  : result unit * world :=
  match __getitem__ (self w) tag with
  | Raise e => (Raise e, w)
  | Ok item =>
      let patterns' := _ensure_sequential patterns' in
      match foldM sort_pattern (∅, ∅) patterns' with
      | Raise e => (Raise e, w)
      | Ok (rm_set, p_set) =>
          let new_patterns := keep_patterns rm_set p_set 0 (patterns item) in
          (Ok (), save (store_item tag (set_patterns new_patterns item) w))
      end
  end.

Definition arrange (tag : string) (indices : list Z) (w : world)
  : result unit * world :=
  match __getitem__ (self w) tag with
  | Raise e => (Raise e, w)
  | Ok item =>
      let n := length indices in
      let p : gset Z := list_to_set indices in
      if bool_decide (size p ≠ n) then
        (Raise (IndexError (str_of_int_list indices)), w)
      else if bool_decide (Forall (λ i, Z.of_nat i ∈ p) (seq 0 n)) then
        match mapM (py_index (patterns item)) indices with
        | Raise e => (Raise e, w)
        | Ok new_patterns =>
            (Ok (), save (store_item tag (set_patterns new_patterns item) w))
        end
      else (Raise (IndexError (str_of_int_list indices)), w)
  end.

Definition edit_patterns (tag : string) (index : str_or_int) (p : string)
    (w : world) : result unit * world :=
  match __getitem__ (self w) tag with
  | Raise e => (Raise e, w)
  | Ok item =>
      let index' :=
        match index with
        | IStr s => if isdigit s then int s else Raise (IndexError s)
        | IInt n => Ok n
        end in
      match index' with
      | Raise e => (Raise e, w)
      | Ok index =>
          if (0 <=? index) && (index <? Z.of_nat (length (patterns item)))
          then
            let item :=
              set_patterns (<[Z.to_nat index := p]> (patterns item)) item in
            (Ok (), save (store_item tag item w))
          else (Raise (IndexError (str_of_int index)), w)
      end
  end.

End Commands.

(** ** The operating system, the clock and the [re] module

    What [group_panel_view] asks of its surroundings.  [os_tree p] is what
    lies at the path [p]; [os_read fn] is [open(fn).read()], [None] when it
    raises [OSError]; [re_findall p] is
    [re.compile(p, re.IGNORECASE).findall], [None] when [p] does not
    compile.  An element of the list [findall] returns is the matched
    text (or the text of the group, for a pattern with one group), or the
    tuple of the groups for a pattern with two or more.  [time_time] is the reading of the clock during the scan. *)

Inductive hit : Type :=
| Text (s : string)
| Groups (l : list string).

#[global] Instance hit_eq_dec : EqDecision hit.
Proof. solve_decision. Defined.

#[warnings="-register-all"]
Inductive tree : Type :=
| File
| Dir (entries : list (string * tree)).

#[global] Instance tree_is_file_dec (t : tree) : Decision (t = File).
Proof. destruct t; [left | right]; done. Defined.

Record env : Type := Env {
  os_tree : string → option tree;
  os_getmtime : string → Q;
  os_read : string → option string;
  time_time : Q;
  re_findall : string → option (string → list hit);
}.

Definition ends_with_sep (a : string) : bool :=
  match rev (chars a) with
  | "/"%char :: _ => true
  | _ => false
  end.

(** [os.path.join(a, b)] (posixpath) *)
Definition os_path_join (a b : string) : string :=
  if is_prefix ["/"%char] (chars b) then b
  else if bool_decide (a = "") || ends_with_sep a then a +:+ b
  else a +:+ "/" +:+ b.

Definition dirnames (entries : list (string * tree)) : list string :=
  fst <$> filter (λ e, e.2 ≠ File) entries.
Definition filenames (entries : list (string * tree)) : list string :=
  fst <$> filter (λ e, e.2 = File) entries.

(** [os.walk(top)], top-down: a directory yields its own triple and then
    the triples of its sub-directories; listing anything that is not a
    directory fails, and [os.walk] ignores the failure. *)
Fixpoint walk (top : string) (t : tree)
  : list (string * list string * list string) :=
  match t with
  | File => []
  | Dir entries =>
      (top, dirnames entries, filenames entries)
      :: (fix subdirs (es : list (string * tree)) :=
            match es with
            | [] => []
            | (name, sub) :: es' =>
                walk (os_path_join top name) sub ++ subdirs es'
            end) entries
  end.

Definition os_walk (e : env) (top : string)
  : list (string * list string * list string) :=
  match os_tree e top with
  | Some t => walk top t
  | None => []
  end.

Definition Qlt_bool (a b : Q) : bool := negb (Qle_bool b a).

(** [int(x)] of a float *)
Definition int_of_Q (x : Q) : Z :=
  if Qle_bool 0 x then Qfloor x else Qceiling x.

(** [sorted(l, key=key, reverse=True)]: descending, and stable *)
Fixpoint insert_desc (key : string → Q) (x : string) (l : list string)
  : list string :=
  match l with
  | [] => [x]
  | y :: l' =>
      if Qlt_bool (key x) (key y) then y :: insert_desc key x l' else x :: l
  end.

Definition sorted_desc (key : string → Q) (l : list string) : list string :=
  foldr (insert_desc key) [] l.

(** ** [TaskManager.group_panel_view] *)

(** The files found under the watched paths, in the order of the three
    nested loops. *)
Definition discovered (e : env) (item : group) : list string :=
  path ← paths item;
  '(dn, _, fns) ← os_walk e path;
  fn ← fns;
  [os_path_join dn fn].

Definition add_log
    (parse : string → string → result (option (gmap string string)))
    (item : group) (logs : gmap string (list string)) (fullfn : string)
  : result (gmap string (list string)) :=
  r ← match_file_with parse (fnp item) fullfn;
  match r with
  | (true, Some matched_name) =>
      Ok (<[matched_name := default [] (logs !! matched_name) ++ [fullfn]]> logs)
  | _ => Ok logs
  end.

Definition collect_logs
    (parse : string → string → result (option (gmap string string)))
    (e : env) (item : group) : result (gmap string (list string)) :=
  foldM (add_log parse item) ∅ (discovered e item).

(** The condition of the [continue] statement. *)
Definition skipped (inspect : option string) (duration : option Q)
    (delta : Z) (one : string) (include_set exclude_set : gset string)
  : bool :=
  bool_decide (inspect = None)
  && (match duration with
      | Some d => Qlt_bool d (inject_Z delta)
      | None => false
      end && bool_decide (one ∉ include_set)
      || bool_decide (one ∈ exclude_set))
  || bool_decide (inspect ≠ None) && bool_decide (Some one ≠ inspect).

Definition epoch_re : string := "epoch[^\d]*[\d]+".
Definition iter_re : string := "iter[^\d]*[\d]+".
Definition loss_re : string := "loss[^\d]*[\d\.]+".
Definition eta_re : string :=
  "eta[^\d\w]*(?:[\d\.:]+|[ ,]|days|d|hrs|hours|hour|d|mins|minutes|secs|sec|seconds)+".

Definition effective_patterns (item : group) : list string :=
  let patterns := patterns item in
  let patterns :=
    if builtin_func item
    then epoch_re :: iter_re :: loss_re :: eta_re :: patterns
    else patterns in
  ending item :: patterns.

(** A resolved value: the scan index for the ending, the last element
    of the list of matches for any other pattern. *)
Inductive value : Type :=
| VInt (n : Z)
| VHit (h : hit).

Abbreviation VStr s := (VHit (Text s)).

#[global] Instance value_eq_dec : EqDecision value.
Proof. solve_decision. Defined.

(** The [for i, pattern in enumerate(patterns)] loop over one file's
    text; [i] is the index of the head of [ps], the accumulator is
    [(tmp, remain)]. *)
Fixpoint scan_patterns (e : env) (found : gmap string value) (text : string)
    (ptr : Z) (i : nat) (ps : list string) (acc : gmap string value * Z)
  : result (gmap string value * Z) :=
  match ps with
  | [] => Ok acc
  | pattern :: ps' =>
      if bool_decide (found !! pattern = None) then
        match re_findall e pattern with
        | None => Raise (ReError pattern)
        | Some findall =>
            match last (findall text) with
            | Some r =>
                let v := match i with O => VInt ptr | S _ => VHit r end in
                scan_patterns e found text ptr (S i) ps'
                  (<[pattern := v]> acc.1, acc.2 - 1)
            | None => scan_patterns e found text ptr (S i) ps' acc
            end
        end
      else scan_patterns e found text ptr (S i) ps' acc
  end.

(** The variables of the [while] loop; [opened] lists the files given to
    [open], [raised] holds the exception that left the loop. *)
Record probe_state : Type := Probe {
  found : gmap string value;
  ptr : Z;
  remain : Z;
  opened : list string;
  raised : option exn;
}.

Definition probe_init (patterns : list string) : probe_state :=
  {| found := ∅; ptr := -1; remain := Z.of_nat (length patterns);
     opened := []; raised := None |}.

Definition probe_cond (fns : list string) (st : probe_state) : bool :=
  bool_decide (raised st = None)
  && (0 <? remain st) && (ptr st + 1 <? Z.of_nat (length fns)).

Definition probe_body (e : env) (patterns fns : list string)
    (st : probe_state) : probe_state :=
  let ptr := ptr st + 1 in
  match fns !! Z.to_nat ptr with
  | None =>
      {| found := found st; ptr := ptr; remain := remain st;
         opened := opened st;
         raised := Some (IndexError "list index out of range") |}
  | Some fn =>
      match os_read e fn with
      | None =>
          {| found := found st; ptr := ptr; remain := remain st;
             opened := opened st ++ [fn]; raised := Some (OSError fn) |}
      | Some text =>
          match scan_patterns e (found st) text ptr 0 patterns (∅, remain st) with
          | Raise ex =>
              {| found := found st; ptr := ptr; remain := remain st;
                 opened := opened st ++ [fn]; raised := Some ex |}
          | Ok (tmp, remain') =>
              {| found := tmp ∪ found st; ptr := ptr; remain := remain';
                 opened := opened st ++ [fn]; raised := None |}
          end
      end
  end.

Definition probe_measure (fns : list string) (st : probe_state) : nat :=
  Z.to_nat (Z.of_nat (length fns) - (ptr st + 1)).

Definition with_eq {A} (x : A) : {y : A | x = y} := exist _ x eq_refl.

(** [while remain > 0 and ptr + 1 < len(fns): ...] *)
Equations? probe_loop (e : env) (patterns fns : list string)
    (st : probe_state) : probe_state
  by wf (probe_measure fns st) lt :=
  probe_loop e patterns fns st with with_eq (probe_cond fns st) := {
    | exist _ true Hc => probe_loop e patterns fns (probe_body e patterns fns st)
    | exist _ false Hn => st
  }.
Proof.
  revert Hc. unfold probe_cond, probe_measure, probe_body.
  rewrite !andb_true_iff. intros [_ H%Z.ltb_lt].
  destruct (fns !! _); [|simpl; lia].
  destruct (os_read e _); [|simpl; lia].
  destruct (scan_patterns _ _ _ _ _ _ _) as [[??]|?]; simpl; lia.
Qed.

Definition probe (e : env) (patterns fns : list string) : probe_state :=
  probe_loop e patterns fns (probe_init patterns).

Definition str_len (s : string) : Z := Z.of_nat (String.length s).

(** The escape character of the colour codes. *)
Definition ESC : string := String (ascii_of_nat 27) "".

(** The second [for i, pattern in enumerate(patterns)] loop; the
    accumulator is [(flag, item_str)]. *)
Fixpoint view_patterns (found : gmap string value) (width : option Z)
    (i : nat) (ps : list string) (acc : option Z * list string)
  : result (option Z * list string) :=
  match ps with
  | [] => Ok acc
  | pattern :: ps' =>
      match i with
      | O =>
          let flag :=
            if bool_decide (found !! pattern = Some (VInt 0)) then 1 else 0 in
          view_patterns found width (S i) ps' (Some flag, acc.2)
      | S _ =>
          match found !! pattern with
          | None => view_patterns found width (S i) ps' acc
          | Some (VInt _) => Raise (TypeError "can only concatenate str to str")
          | Some (VHit (Groups _)) =>
              Raise (TypeError "can only concatenate str (not tuple) to str")
          | Some (VStr v) =>
              let item_str := acc.2 in
              let item_str :=
                match last item_str with
                | None => item_str ++ [" " +:+ v]
                | Some line =>
                    if match width with
                       | None => true
                       | Some width => str_len line + str_len v + 3 <=? width
                       end
                    then removelast item_str ++ [line +:+ " | " +:+ v]
                    else item_str ++ [" " +:+ v]
                end in
              view_patterns found width (S i) ps' (acc.1, item_str)
          end
      end
  end.

(** [for tp, line in enumerate(item_str)]: every other line is
    highlighted, every line ends the colour. *)
Definition colour_lines (item_str : list string) : list string :=
  imap (λ tp line,
          (if Nat.odd tp then ESC +:+ "[1;37m" +:+ line else line)
          +:+ ESC +:+ "[0m") item_str.

Definition duration_str (delta : Z) : string :=
  let d := delta `div` 86400 in
  let h := (delta - d * 86400) `div` 3600 in
  let m := (delta - d * 86400 - h * 3600) `div` 60 in
  let s := (delta - d * 86400 - h * 3600 - m * 60) `div` 1 in
  let d_str := "" in
  let d_str := if 0 <? d then d_str +:+ str_of_int d +:+ " days " else d_str in
  let d_str := if 0 <? h then d_str +:+ str_of_int h +:+ " hrs " else d_str in
  let d_str := if 0 <? m then d_str +:+ str_of_int m +:+ " mins " else d_str in
  if 0 <? s then d_str +:+ str_of_int s +:+ " secs " else d_str.

(** One element of a bucket of [recs]: the list [tmp], with the two
    arguments of the format call of its first line kept apart. *)
Record entry : Type := Entry {
  e_name : string;
  e_ago : string;
  e_lines : list string;
}.

#[global] Instance entry_eq_dec : EqDecision entry.
Proof. solve_decision. Defined.

Definition header_line (one d_str : string) : string :=
  ESC +:+ "[1;36m[" +:+ one +:+ "]" +:+ ESC +:+ "[0m " +:+ ESC +:+ "[1;34m"
  +:+ d_str +:+ "ago" +:+ ESC +:+ "[0m".

Definition entry_lines (t : entry) : list string :=
  header_line (e_name t) (e_ago t) :: e_lines t.

(** The part of the loop body after the [continue]: the probe of the
    files of [one] and the lines of its record, with the flag of the
    bucket it goes to. *)
Definition panel_entry (e : env) (item : group) (width : option Z)
    (inspect : option string) (one : string) (fns : list string) (delta : Z)
  : result (Z * entry) :=
  let patterns := effective_patterns item in
  let st := probe e patterns fns in
  match raised st with
  | Some ex => Raise ex
  | None =>
      '(flag, item_str) ← view_patterns (found st) width 0 patterns (None, []);
      match flag with
      | None => Raise (Unmodelled "flag is None")
      | Some flag =>
          let item_str := colour_lines item_str in
          let item_str :=
            match inspect with
            | Some _ =>
                item_str ++ [" ---------"] ++ ((λ x, " * " +:+ x) <$> fns)
            | None => item_str
            end in
          Ok (flag, {| e_name := one; e_ago := duration_str delta;
                       e_lines := item_str |})
      end
  end.

(** The files of [one], newest first, and the seconds since the newest
    was modified. *)
Definition item_files (e : env) (logs : gmap string (list string))
    (one : string) : list string :=
  sorted_desc (os_getmtime e) (default [] (logs !! one)).

Definition idle_seconds (e : env) (fn0 : string) : Z :=
  int_of_Q (time_time e - os_getmtime e fn0).

(** The body of [for one in sorted(logs.keys())]. *)
Definition panel_item (e : env) (item : group) (width : option Z)
    (duration : option Q) (inspect : option string)
    (logs : gmap string (list string)) (recs : gmap Z (list entry))
    (one : string) : result (gmap Z (list entry)) :=
  let include_set : gset string := list_to_set (included item) in
  let exclude_set : gset string := list_to_set (excluded item) in
  let fns := item_files e logs one in
  match fns with
  | [] => Raise (IndexError "list index out of range")
  | fn0 :: _ =>
      let delta := idle_seconds e fn0 in
      if skipped inspect duration delta one include_set exclude_set
      then Ok recs
      else
        '(flag, tmp) ← panel_entry e item width inspect one fns delta;
        Ok (<[flag := default [] (recs !! flag) ++ [tmp]]> recs)
  end.

Definition group_panel_view_with
    (parse : string → string → result (option (gmap string string)))
    (e : env) (self : TaskManager) (tag : string) (width : option Z)
    (duration : option Q) (inspect : option string)
  : result (list Z * list (list entry)) :=
  item ← __getitem__ self tag;
  logs ← collect_logs parse e item;
  recs ← foldM (panel_item e item width duration inspect logs) ∅
         (merge_sort String.le (elements (dom logs)));
  let ret_flags := merge_sort Z.le (elements (dom recs)) in
  let ret_strs := (λ i, default [] (recs !! i)) <$> ret_flags in
  Ok (ret_flags, ret_strs).

Definition group_panel_view :=
  group_panel_view_with Parse.parse.

(** ** A small world to run the scan on *)

Definition lookup_or {A} (d : A) (l : list (string * A)) (k : string) : A :=
  default d (snd <$> find (λ kv, bool_decide (kv.1 = k)) l).

(** A stand-in for [findall]: the words of the text that begin with the
    pattern. *)
Definition find_words (p text : string) : list string :=
  filter (λ w, is_prefix (chars p) (chars w)) (String.words text).

Definition demo_env (files : list (string * (Q * option string)))
    (roots : list (string * tree)) (now : Q) : env :=
  {| os_tree := λ p, snd <$> find (λ kv, bool_decide (kv.1 = p)) roots;
     os_getmtime := λ p, (lookup_or (0%Q, None) files p).1;
     os_read := λ p, (lookup_or (0%Q, None) files p).2;
     time_time := now;
     re_findall := λ p, Some (λ text, Text <$> find_words p text) |}.

Definition demo_manager (g : group) : TaskManager :=
  {| cfg_path := "/home/u/.tmgr.conf";
     cfg := {| version := __VERSION__; activated_groups := {[ "g" := g ]};
               deactivated_groups := ∅ |};
     width := 80 |}.


(** ** What the probe resolves, stated on the files

    [file_hit e p fn] is the last match of [p] in the text of [fn];
    [first_hit e p 0 fns] is the position of the first file of [fns] with
    a match, together with that last match; [resolved_by] is the entry a
    pattern gets from the files scanned: the scan index for the ending,
    the text for any other pattern. *)

Definition text_hit (e : env) (p text : string) : option hit :=
  match re_findall e p with
  | Some findall => last (findall text)
  | None => None
  end.

Definition file_hit (e : env) (p fn : string) : option hit :=
  match os_read e fn with
  | Some text => text_hit e p text
  | None => None
  end.

Fixpoint first_hit (e : env) (p : string) (j : nat) (fns : list string)
  : option (nat * hit) :=
  match fns with
  | [] => None
  | fn :: fns' =>
      match file_hit e p fn with
      | Some r => Some (j, r)
      | None => first_hit e p (S j) fns'
      end
  end.

Definition resolved_by (e : env) (patterns fns : list string) (p : string)
  : option value :=
  match patterns with
  | [] => None
  | ending :: rest =>
      if bool_decide (p ∈ rest)
      then (λ jr, VHit jr.2) <$> first_hit e p 0 fns
      else if bool_decide (p = ending)
      then (λ jr, VInt (Z.of_nat jr.1)) <$> first_hit e p 0 fns
      else None
  end.

(** The entry a pattern without a value gets from the text of the file at
    scan index [ptr]. *)
Definition step_value (e : env) (patterns : list string) (text : string)
    (ptr : Z) (p : string) : option value :=
  match patterns with
  | [] => None
  | ending :: rest =>
      if bool_decide (p ∈ rest)
      then VHit <$> text_hit e p text
      else if bool_decide (p = ending)
      then (λ _, VInt ptr) <$> text_hit e p text
      else None
  end.

(** The number of entries of the pattern list without a value. *)
Definition unresolved (found : gmap string value) (ps : list string) : nat :=
  length (filter (λ p, found !! p = None) ps).

(** ** Definitions used by the statements below *)

(** [p] gets a value from [text]: it has none yet and it matches. *)
Definition hits (e : env) (found : gmap string value) (text p : string)
  : Prop :=
  found !! p = None ∧ is_Some (text_hit e p text).

#[local] Instance hits_dec e found text p : Decision (hits e found text p).
Proof. unfold hits. apply _. Defined.

Record probe_inv (e : env) (patterns fns : list string) (st : probe_state)
  : Prop := ProbeInv {
  inv_ptr : -1 ≤ ptr st < Z.of_nat (length fns) ∨ (fns = [] ∧ ptr st = -1);
  inv_opened : opened st = take (Z.to_nat (ptr st + 1)) fns;
  inv_readable :
    ∀ j fn, fns !! j = Some fn → Z.of_nat j < ptr st → is_Some (os_read e fn);
  inv_last :
    ∀ fn, 0 ≤ ptr st → fns !! Z.to_nat (ptr st) = Some fn →
          os_read e fn = None → raised st = Some (OSError fn);
  inv_raised :
    ∀ ex, raised st = Some ex →
          (∃ fn, fn ∈ fns ∧ os_read e fn = None ∧ ex = OSError fn)
          ∨ (∃ p, p ∈ patterns ∧ re_findall e p = None ∧ ex = ReError p);
  inv_found :
    raised st = None →
    ∀ p, found st !! p
         = resolved_by e patterns (take (Z.to_nat (ptr st + 1)) fns) p;
  inv_remain :
    raised st = None → remain st = Z.of_nat (unresolved (found st) patterns);
  inv_needed :
    ∀ j, Z.of_nat j < ptr st + 1 →
         ∃ p, p ∈ patterns ∧ resolved_by e patterns (take j fns) p = None;
}.

(** [t] is the record of [one], for the bucket [f]. *)
Definition entry_of (e : env) (item : group) (width : option Z)
    (duration : option Q) (inspect : option string)
    (logs : gmap string (list string)) (one : string) (f : Z) (t : entry)
  : Prop :=
  ∃ fn0 rest,
    item_files e logs one = fn0 :: rest
    ∧ skipped inspect duration (idle_seconds e fn0) one
        (list_to_set (included item)) (list_to_set (excluded item)) = false
    ∧ panel_entry e item width inspect one (fn0 :: rest) (idle_seconds e fn0)
      = Ok (f, t).

Definition in_recs (recs : gmap Z (list entry)) (f : Z) (t : entry) : Prop :=
  ∃ l, recs !! f = Some l ∧ t ∈ l.

(** [t] is in the bucket returned for the flag [f]. *)
Definition in_view (view : list Z * list (list entry)) (f : Z) (t : entry)
  : Prop :=
  ∃ i l, view.1 !! i = Some f ∧ view.2 !! i = Some l ∧ t ∈ l.

(** The marker of the brace swap, and what the three [replace] calls of
    [match_file] amount to on a string without it. *)
Definition marker : list ascii := chars "!|*#".

Fixpoint occurs (sub s : list ascii) : bool :=
  is_prefix sub s
  || match s with
     | [] => false
     | _ :: s' => occurs sub s'
     end.

Definition swap_brace (c : ascii) : ascii :=
  if bool_decide (c = "{"%char) then "}"%char
  else if bool_decide (c = "}"%char) then "{"%char
  else c.

Definition open_to_marker (c : ascii) : list ascii :=
  if bool_decide (c = "{"%char) then marker else [c].

Definition braces_to_marker (c : ascii) : list ascii :=
  if bool_decide (c = "{"%char) then marker
  else if bool_decide (c = "}"%char) then ["{"%char]
  else [c].

(** Text without braces. *)
Definition literal (s : string) : Prop :=
  ("{"%char ∉ chars s) ∧ ("}"%char ∉ chars s).

(** A template without the text [#*|!], which [match_file] would take for
    its own marker once the template is reversed. *)
Definition marker_free (s : string) : Prop :=
  occurs marker (rev (chars s)) = false.

(** [fn] ends with [suffix], letter case ignored. *)
Definition ci_ends_with (suffix fn : string) : bool :=
  bool_decide (is_Some (Parse.ci_strip (rev (chars suffix)) (rev (chars fn)))).

Definition demo_tree : tree :=
  Dir [("run1.log", File); ("run1.txt", File); ("run2.log", File)].

Definition demo_files : list (string * (Q * option string)) :=
  [("/logs/run1.log",
    (inject_Z 900, Some "epoch=4 loss=0.5 epoch=5 loss=0.2 done"));
   ("/logs/run1.txt", (inject_Z 500, Some "epoch=1 loss=0.9"));
   ("/logs/run2.log", (inject_Z 100, Some "starting"))].

Definition demo_roots : list (string * tree) :=
  [("/logs", demo_tree); ("/logs/run1.log", File)].

Definition demo_os : env := demo_env demo_files demo_roots (inject_Z 1000).

(** The same directory with the newest file of [run1] unreadable. *)
Definition demo_locked : env :=
  demo_env
    [("/logs/run1.log", (inject_Z 900, None));
     ("/logs/run1.txt", (inject_Z 500, Some "epoch=1 loss=0.9"));
     ("/logs/run2.log", (inject_Z 100, Some "starting"))]
    demo_roots (inject_Z 1000).

Definition demo_group : group :=
  {| fnp := "{name}.{ext}"; ending := "done"; builtin_func := false;
     paths := ["/logs"]; patterns := ["epoch="; "loss="];
     excluded := []; included := [] |}.

Definition demo_logs : gmap string (list string) :=
  {[ "/logs/run1" := ["/logs/run1.log"; "/logs/run1.txt"];
     "/logs/run2" := ["/logs/run2.log"] ]}.

Definition demo_run1 : entry :=
  {| e_name := "/logs/run1"; e_ago := "1 mins 40 secs ";
     e_lines := [" epoch=5 | loss=0.2" +:+ ESC +:+ "[0m"] |}.

Definition demo_run2 : entry :=
  {| e_name := "/logs/run2"; e_ago := "15 mins "; e_lines := [] |}.

Definition demo_world : world :=
  {| self := demo_manager demo_group; disk := ∅ |}.

(** The watched directory with a pattern of two groups, for which
    [findall] gives tuples. *)
Definition demo_tuples : env :=
  {| os_tree := os_tree demo_os;
     os_getmtime := os_getmtime demo_os;
     os_read := os_read demo_os;
     time_time := time_time demo_os;
     re_findall := λ p,
       if bool_decide (p = "(loss)=(.*)")
       then Some (λ text,
                    (λ w, Groups ["loss"; w]) <$> find_words "loss=" text)
       else re_findall demo_os p |}.

(** The round trip as the specification states it: every identity
    without a separator character of the template comes back. *)
Definition round_trip_claim : Prop :=
  ∀ P S I,
    literal P → literal S →
    (∀ c, c ∈ chars I → c ∉ chars P ++ chars S) →
    match_file (P +:+ "{name}" +:+ S) (P +:+ I +:+ S) = Ok (true, Some I).

(** ** The commands that add, remove and rename groups *)

Definition set_groups (activated deactivated : gmap string group) (w : world)
  : world :=
  {| self :=
       {| cfg_path := cfg_path (self w);
          cfg := {| version := version (cfg (self w));
                    activated_groups := activated;
                    deactivated_groups := deactivated |};
          width := width (self w) |};
     disk := disk w |}.

(** The body of [for tag in tags] in [activate], on the two dictionaries. *)
Definition activate_step (ad : gmap string group * gmap string group)
    (tag : string) : gmap string group * gmap string group :=
  let '(a, d) := ad in
  let '(a, d) :=
    match d !! tag with
    | Some v =>
        (match a !! tag with None => <[tag := v]> a | Some _ => a end,
         delete tag d)
    | None => (a, d)
    end in
  match a !! tag with
  | None => (<[tag := default_group]> a, d)
  | Some _ => (a, d)
  end.

Definition activate (tags : str_or_seq) (w : world) : result unit * world :=
  let '(a, d) :=
    foldl activate_step
      (activated_groups (cfg (self w)), deactivated_groups (cfg (self w)))
      (_ensure_sequential tags) in
  (Ok (), save (set_groups a d w)).

(** The body of [for tag in tags] in [deactivate]. *)
Definition deactivate_step (ad : gmap string group * gmap string group)
    (tag : string) : gmap string group * gmap string group :=
  let '(a, d) := ad in
  match a !! tag with
  | Some v => (delete tag a, <[tag := v]> d)
  | None =>
      match d !! tag with
      | Some _ => (a, delete tag d)
      | None => (a, d)
      end
  end.

Definition deactivate (tags : str_or_seq) (w : world) : result unit * world :=
  let '(a, d) :=
    foldl deactivate_step
      (activated_groups (cfg (self w)), deactivated_groups (cfg (self w)))
      (_ensure_sequential tags) in
  (Ok (), save (set_groups a d w)).

Definition mv (oldtag newtag : string) (w : world)
  : result unit * world :=
  let a := activated_groups (cfg (self w)) in
  match a !! newtag with
  | Some _ => (Raise (ValueError newtag), w)
  | None =>
      match a !! oldtag with
      | None => (Raise (KeyError oldtag), w)
      | Some v =>
          (Ok (),
           save (set_groups (delete oldtag (<[newtag := v]> a))
                   (deactivated_groups (cfg (self w))) w))
      end
  end.

(** One command after another: the second runs on the world the first
    left, unless the first raised. *)
Definition and_then (c1 c2 : world → result unit * world) (w : world)
  : result unit * world :=
  match c1 w with
  | (Ok _, w') => c2 w'
  | (Raise ex, w') => (Raise ex, w')
  end.

Definition add_group_by_args (abspath : string → string) (tag : string)
    (path pattern : list string) : world → result unit * world :=
  and_then (activate (One tag))
    (and_then (add_paths abspath tag (Seq path))
       (add_patterns tag (Seq pattern))).

Definition del_group_by_args (abspath : string → string)
    (isdigit : string → bool) (int : string → result Z) (tag : string)
    (path pattern : list string) : world → result unit * world :=
  and_then (del_paths abspath tag (Seq path))
    (del_patterns isdigit int tag (Seq pattern)).

(** [config_group_by_args]: [pattern] is the list of [-p INDEX PATTERN]
    pairs, or [None]. *)
Definition config_group_by_args (isdigit : string → bool)
    (int : string → result Z) (tag : string) (file end_ : option string)
    (default_ allpath allcfg : option bool)
    (exclude include : option (list string))
    (pattern : option (list (string * string)))
  : world → result unit * world :=
  and_then
    (config tag file end_ default_ allpath allcfg include exclude)
    (foldr (λ p rest,
              and_then (edit_patterns isdigit int tag (IStr p.1) p.2) rest)
       (λ w, (Ok (), w)) (default [] pattern)).

(** ** Rendering the panel *)

Definition tag_line (tag : string) : string :=
  " " +:+ ESC +:+ "[1;35m[" +:+ tag +:+ "]" +:+ ESC +:+ "[0m".

(** One of the two sections of [get_section_view]. *)
Definition section_lines (title : string)
    (views : list (string * list entry)) : list string :=
  match views with
  | [] => []
  | _ :: _ =>
      title
      :: ('(tag, group_view) ← views;
          match group_view with
          | [] => []
          | _ :: _ =>
              tag_line tag
              :: (group_line ← group_view;
                  line ← entry_lines group_line;
                  ["  " +:+ line])
          end)
  end.

Definition get_section_view (ret_str_ongoing ret_str_ended
    : list (string * list entry)) : list string :=
  section_lines "Ongoing:" ret_str_ongoing
  ++ section_lines "Ended:" ret_str_ended.

(** [for end_flag, view_str in zip(end_flags, view_strs)] *)
Definition split_view (tag : string) (view : list Z * list (list entry))
    (acc : list (string * list entry) * list (string * list entry))
  : list (string * list entry) * list (string * list entry) :=
  foldl (λ acc fv,
           if bool_decide (fv.1 ≠ 0)
           then (acc.1, acc.2 ++ [(tag, fv.2)])
           else (acc.1 ++ [(tag, fv.2)], acc.2))
    acc (zip view.1 view.2).

Definition newline : string := String (ascii_of_nat 10) "".

Definition render_inspect_view_with
    (parse : string → string → result (option (gmap string string)))
    (e : env) (self : TaskManager) (tag name : string) : result string :=
  view ← group_panel_view_with parse e self tag None None (Some name);
  let '(ongoing, ended) := split_view tag view ([], []) in
  Ok (str_join newline (get_section_view ongoing ended)).


(** The days, hours, minutes and seconds of [duration_str]. *)
Definition duration_parts (delta : Z) : Z * Z * Z * Z :=
  let d := delta `div` 86400 in
  let h := (delta - d * 86400) `div` 3600 in
  let m := (delta - d * 86400 - h * 3600) `div` 60 in
  let s := (delta - d * 86400 - h * 3600 - m * 60) `div` 1 in
  (d, h, m, s).

(** ** Statements about the commands *)

(** The file at [cfg_path] holds the configuration in memory. *)
Definition saved (w : world) : Prop :=
  disk w !! cfg_path (self w) = Some (cfg (self w)).

(** [w'] differs from [w] at most in the group under [tag] and in the file
    at [cfg_path]. *)
Definition same_but (tag : string) (w w' : world) : Prop :=
  cfg_path (self w') = cfg_path (self w)
  ∧ width (self w') = width (self w)
  ∧ version (cfg (self w')) = version (cfg (self w))
  ∧ deactivated_groups (cfg (self w')) = deactivated_groups (cfg (self w))
  ∧ (∀ tag', tag' ≠ tag →
       activated_groups (cfg (self w')) !! tag'
       = activated_groups (cfg (self w)) !! tag')
  ∧ (∀ path, path ≠ cfg_path (self w) → disk w' !! path = disk w !! path).

(** A command on the group under [tag] either raises and leaves the world
    as it is, or stores a new value of the group and saves. *)
Definition updates_group (tag : string) (w : world)
    (out : result unit * world) : Prop :=
  (∃ ex, out = (Raise ex, w))
  ∨ (∃ item item',
       activated_groups (cfg (self w)) !! tag = Some item
       ∧ out = (Ok (), save (store_item tag item' w))).

(** The activated group under [tag]. *)
Definition group_of (w : world) (tag : string) : option group :=
  activated_groups (cfg (self w)) !! tag.

(** The integer an index argument of [edit_patterns] stands for, if any. *)
Definition index_value (isdigit : string → bool) (int : string → result Z)
    (index : str_or_int) : option Z :=
  match index with
  | IStr s =>
      if isdigit s
      then match int s with Ok n => Some n | Raise _ => None end
      else None
  | IInt n => Some n
  end.

(** The deactivated group under [tag]. *)
Definition parked_of (w : world) (tag : string) : option group :=
  deactivated_groups (cfg (self w)) !! tag.

(** The group [activate] leaves under a tag: the active one, else the
    deactivated one, else a default group. *)
Definition revived (a d : gmap string group) (tag : string) : group :=
  match a !! tag with
  | Some g => g
  | None => default default_group (d !! tag)
  end.

(** ** Statements about the scan *)

(** [fn] matches the template of [item] and [one] is the identity the
    match gives. *)
Definition names
    (parse : string → string → result (option (gmap string string)))
    (item : group) (one fn : string) : bool :=
  match match_file_with parse (fnp item) fn with
  | Ok (true, Some n) => bool_decide (n = one)
  | _ => false
  end.

(** One part of the text of [duration_str]. *)
Definition duration_part (n : Z) (unit_ : string) : string :=
  if 0 <? n then str_of_int n +:+ unit_ else "".

(** A line of the record fits the width, or holds one value alone. *)
Definition line_fits (found : gmap string value) (w : Z) (line : string)
  : Prop :=
  str_len line ≤ w ∨ ∃ p v, found !! p = Some (VStr v) ∧ line = " " +:+ v.

(** * Properties *)

(** ** The [while] loop *)

Lemma probe_loop_step e patterns fns st :
  probe_loop e patterns fns st =
  if probe_cond fns st
  then probe_loop e patterns fns (probe_body e patterns fns st)
  else st.
Proof.
  funelim (probe_loop e patterns fns st).
  - by rewrite Hc.
  - by rewrite Hn.
Qed.

(** An invariant of the loop body holds when the loop ends, and the loop
    condition is false then. *)
Lemma probe_loop_inv (I : probe_state → Prop) e patterns fns st :
  I st →
  (∀ s, I s → probe_cond fns s = true → I (probe_body e patterns fns s)) →
  I (probe_loop e patterns fns st)
  ∧ probe_cond fns (probe_loop e patterns fns st) = false.
Proof.
  intros Hst Hstep. funelim (probe_loop e patterns fns st).
  - match goal with IH : ∀ _ : probe_state → Prop, _ |- _ => apply IH end; auto.
  - auto.
Qed.

Lemma probe_body_ptr e patterns fns st :
  ptr (probe_body e patterns fns st) = ptr st + 1.
Proof.
  unfold probe_body.
  destruct (fns !! Z.to_nat (ptr st + 1)) as [fn|]; [|done].
  destruct (os_read e fn); [|done].
  by destruct (scan_patterns _ _ _ _ _ _ _) as [[??]|?].
Qed.

(** ** One file: the [for] loop over the patterns *)

Lemma scan_patterns_tail e found text ptr ps :
  ∀ i tmp rem tmp' rem',
    scan_patterns e found text ptr (S i) ps (tmp, rem) = Ok (tmp', rem') →
    (∀ p, p ∈ ps → found !! p = None → is_Some (re_findall e p))
    ∧ (∀ p r, p ∈ ps → found !! p = None → text_hit e p text = Some r →
         tmp' !! p = Some (VHit r))
    ∧ (∀ p, p ∉ ps ∨ found !! p ≠ None ∨ text_hit e p text = None →
         tmp' !! p = tmp !! p)
    ∧ rem' = rem - Z.of_nat (length (filter (hits e found text) ps)).
Proof.
  induction ps as [|a ps IH]; intros i tmp rem tmp' rem' Hscan; simpl in Hscan.
  { injection Hscan as <- <-. repeat split; try done.
    - intros p Hp; by apply elem_of_nil in Hp.
    - intros p r Hp; by apply elem_of_nil in Hp.
    - simpl. lia. }
  case_bool_decide as Hfa.
  - destruct (re_findall e a) as [findall|] eqn:Hre; [|done].
    destruct (last (findall text)) as [s|] eqn:Hlast; simpl in Hscan.
    + apply IH in Hscan as (Hc & Hin & Hout & Hrem).
      assert (Ha : text_hit e a text = Some s) by (unfold text_hit; by rewrite Hre).
      repeat split.
      * intros p [->|Hp]%elem_of_cons Hf; [by rewrite Hre|by apply Hc].
      * intros p r Hp Hf Hr.
        destruct (decide (p ∈ ps)) as [Hps|Hps]; [by apply Hin|].
        apply elem_of_cons in Hp as [->|Hp]; [|done].
        rewrite Hout by auto. rewrite lookup_insert_eq. congruence.
      * intros p Hp.
        assert (p ≠ a) as Hne.
        { intros ->. destruct Hp as [Hp|[Hp|Hp]]; try done.
          - apply Hp. by left.
          - congruence. }
        rewrite Hout; [by rewrite lookup_insert_ne|].
        destruct Hp as [Hp|Hp]; [left|by right].
        by apply not_elem_of_cons in Hp as [_ ?].
      * rewrite filter_cons_True; [simpl; lia|].
        split; [done|]. by rewrite Ha.
    + apply IH in Hscan as (Hc & Hin & Hout & Hrem).
      assert (Ha : text_hit e a text = None) by (unfold text_hit; by rewrite Hre).
      repeat split.
      * intros p [->|Hp]%elem_of_cons Hf; [by rewrite Hre|by apply Hc].
      * intros p r Hp Hf Hr.
        apply elem_of_cons in Hp as [->|Hp]; [congruence|by apply Hin].
      * intros p Hp.
        destruct (decide (p = a)) as [->|Hne].
        { apply Hout. auto. }
        apply Hout. destruct Hp as [Hp|Hp]; [left|by right].
        by apply not_elem_of_cons in Hp as [_ ?].
      * rewrite filter_cons_False; [done|].
        intros [_ [? Hs]]. congruence.
  - apply IH in Hscan as (Hc & Hin & Hout & Hrem).
    repeat split.
    * intros p [->|Hp]%elem_of_cons Hf; [done|by apply Hc].
    * intros p r Hp Hf Hr.
      apply elem_of_cons in Hp as [->|Hp]; [done|by apply Hin].
    * intros p Hp.
      destruct (decide (p = a)) as [->|Hne].
      { apply Hout. auto. }
      apply Hout. destruct Hp as [Hp|Hp]; [left|by right].
      by apply not_elem_of_cons in Hp as [_ ?].
    * rewrite filter_cons_False; [done|].
      by intros [? _].
Qed.

Lemma scan_patterns_found e found text ptr patterns rem tmp' rem' :
  scan_patterns e found text ptr 0 patterns (∅, rem) = Ok (tmp', rem') →
  (∀ p, p ∈ patterns → found !! p = None → is_Some (re_findall e p))
  ∧ (∀ p, (tmp' ∪ found) !! p =
          match found !! p with
          | Some v => Some v
          | None => step_value e patterns text ptr p
          end)
  ∧ rem' = rem - Z.of_nat (length (filter (hits e found text) patterns)).
Proof.
  destruct patterns as [|ending rest]; simpl; intros Hscan.
  { injection Hscan as <- <-. split; [|split].
    - intros p Hp. by apply elem_of_nil in Hp.
    - intros p. rewrite lookup_union, lookup_empty, (left_id None _).
      by destruct (found !! p).
    - simpl. lia. }
  assert (∃ tmp0 rem0,
    scan_patterns e found text ptr 1 rest (tmp0, rem0) = Ok (tmp', rem')
    ∧ (found !! ending = None → is_Some (re_findall e ending))
    ∧ (∀ p, tmp0 !! p =
         if bool_decide (p = ending ∧ hits e found text ending)
         then Some (VInt ptr) else None)
    ∧ rem0 = rem - Z.of_nat (length (filter (hits e found text) [ending])))
    as (tmp0 & rem0 & Htail & Hce & Htmp0 & Hrem0).
  { case_bool_decide as Hfe.
    - destruct (re_findall e ending) as [findall|] eqn:Hre; [|done].
      destruct (last (findall text)) as [s|] eqn:Hlast; simpl in Hscan.
      + eexists _, _. split; [exact Hscan|]. split; [done|]. split.
        * intros p. case_bool_decide as Hp.
          -- destruct Hp as [-> _]. by rewrite lookup_insert_eq.
          -- rewrite lookup_insert_ne, lookup_empty; [done|].
             intros <-. apply Hp. split; [done|]. split; [done|].
             unfold text_hit. rewrite Hre, Hlast. by eexists.
        * rewrite filter_cons_True; [simpl; lia|].
          split; [done|]. unfold text_hit. rewrite Hre, Hlast. by eexists.
      + eexists _, _. split; [exact Hscan|]. split; [done|]. split.
        * intros p. rewrite lookup_empty. case_bool_decide as Hp; [|done].
          destruct Hp as [_ [_ [? Hs]]]. unfold text_hit in Hs.
          rewrite Hre, Hlast in Hs. done.
        * rewrite filter_cons_False; [simpl; lia|].
          intros [_ [? Hs]]. unfold text_hit in Hs.
          rewrite Hre, Hlast in Hs. done.
    - eexists _, _. split; [exact Hscan|]. split; [done|]. split.
      * intros p. rewrite lookup_empty. case_bool_decide as Hp; [|done].
        by destruct Hp as [_ [? _]].
      * rewrite filter_cons_False; [simpl; lia|]. by intros [? _]. }
  apply scan_patterns_tail in Htail as (Hc & Hin & Hout & Hrem).
  clear Hscan. split; [|split].
  - intros p [->|Hp]%elem_of_cons Hf; [by apply Hce|by apply Hc].
  - intros p. rewrite lookup_union.
    destruct (found !! p) as [v|] eqn:Hfp.
    + assert (tmp' !! p = None) as ->; [|done].
      rewrite Hout by (right; left; congruence). rewrite Htmp0.
      case_bool_decide as Hp; [|done].
      destruct Hp as [-> [? _]]. congruence.
    + assert (tmp' !! p = step_value e (ending :: rest) text ptr p) as ->.
      2: { simpl. by destruct (if bool_decide (p ∈ rest) then _ else _). }
      simpl. case_bool_decide as Hrest.
      * destruct (text_hit e p text) as [r|] eqn:Hr; simpl.
        -- by apply Hin.
        -- rewrite Hout by auto. rewrite Htmp0.
           case_bool_decide as Hp; [|done].
           destruct Hp as [-> [_ [? Hs]]]. congruence.
      * rewrite Hout by auto. rewrite Htmp0.
        case_bool_decide as Hp; case_bool_decide as Hpe; try done.
        -- destruct Hp as [_ [_ [r Hr]]]. subst p. by rewrite Hr.
        -- by destruct Hp.
        -- subst p. destruct (text_hit e ending text) as [r|] eqn:Hr; [|done].
           exfalso. apply Hp. split; [done|]. split; [done|].
           rewrite Hr. by eexists.
  - rewrite Hrem, Hrem0. rewrite (filter_cons _ ending rest).
    rewrite (filter_cons _ ending []), filter_nil.
    destruct (decide (hits e found text ending)); simpl; lia.
Qed.

Lemma scan_patterns_raise e found text ptr ps :
  ∀ i acc ex,
    scan_patterns e found text ptr i ps acc = Raise ex →
    ∃ p, p ∈ ps ∧ re_findall e p = None ∧ ex = ReError p.
Proof.
  induction ps as [|a ps IH]; intros i acc ex Hscan; simpl in Hscan; [done|].
  assert (∀ i acc, scan_patterns e found text ptr i ps acc = Raise ex →
    ∃ p, p ∈ a :: ps ∧ re_findall e p = None ∧ ex = ReError p) as IH'.
  { intros i' acc' H'. apply IH in H' as (p & ? & ? & ?).
    exists p. split; [by right|done]. }
  case_bool_decide; [|by eapply IH'].
  destruct (re_findall e a) as [findall|] eqn:Hre.
  - destruct (last (findall text)); by eapply IH'.
  - injection Hscan as <-. exists a. split; [by left|done].
Qed.

Lemma scan_patterns_total e found text ptr ps :
  (∀ p, p ∈ ps → is_Some (re_findall e p)) →
  ∀ i acc, is_ok (scan_patterns e found text ptr i ps acc) = true.
Proof.
  intros Hc i acc.
  destruct (scan_patterns e found text ptr i ps acc) as [?|ex] eqn:Hscan; [done|].
  apply scan_patterns_raise in Hscan as (p & Hp & Hre & _).
  apply Hc in Hp as [? Hp]. congruence.
Qed.

(** ** The files scanned so far *)

Lemma first_hit_snoc e p fns fn :
  ∀ j, first_hit e p j (fns ++ [fn]) =
       match first_hit e p j fns with
       | Some x => Some x
       | None => (λ r, ((j + length fns)%nat, r)) <$> file_hit e p fn
       end.
Proof.
  induction fns as [|a fns IH]; intros j; simpl.
  - destruct (file_hit e p fn); simpl; [|done].
    do 2 f_equal. lia.
  - destruct (file_hit e p a); [done|]. rewrite IH.
    destruct (first_hit e p (S j) fns); [done|].
    destruct (file_hit e p fn); simpl; [|done].
    do 2 f_equal. lia.
Qed.

Lemma resolved_by_snoc e patterns fns fn text p :
  os_read e fn = Some text →
  resolved_by e patterns (fns ++ [fn]) p =
  match resolved_by e patterns fns p with
  | Some v => Some v
  | None => step_value e patterns text (Z.of_nat (length fns)) p
  end.
Proof.
  intros Hread. unfold resolved_by, step_value.
  destruct patterns as [|ending rest]; [done|].
  assert (file_hit e p fn = text_hit e p text) as Hfile
    by (unfold file_hit; by rewrite Hread).
  repeat case_bool_decide; try done;
    rewrite first_hit_snoc, Hfile;
    destruct (first_hit e p 0 fns) as [[??]|]; simpl; try done;
    by destruct (text_hit e p text).
Qed.

Lemma step_value_None e patterns text ptr p :
  p ∈ patterns →
  step_value e patterns text ptr p = None ↔ text_hit e p text = None.
Proof.
  unfold step_value. destruct patterns as [|ending rest].
  { intros Hp. by apply elem_of_nil in Hp. }
  intros [->|Hp]%elem_of_cons; repeat case_bool_decide; try done;
    by destruct (text_hit e _ text).
Qed.

Lemma unresolved_step e (found found' : gmap string value) text ps :
  (∀ p, p ∈ ps →
        found' !! p = None ↔ found !! p = None ∧ text_hit e p text = None) →
  (unresolved found' ps + length (filter (hits e found text) ps)
   = unresolved found ps)%nat.
Proof.
  unfold unresolved. induction ps as [|a ps IH]; intros Hstep; [done|].
  rewrite !filter_cons.
  assert (IH' := IH (λ p Hp, Hstep p (list_elem_of_further _ _ _ Hp))).
  specialize (Hstep a (list_elem_of_here _ _)).
  destruct (decide (found' !! a = None)) as [H1|H1];
    destruct (decide (hits e found text a)) as [H2|H2];
    destruct (decide (found !! a = None)) as [H3|H3]; simpl; try lia.
  - apply Hstep in H1 as [_ H1]. destruct H2 as [_ [? H2]]. congruence.
  - by destruct H2.
  - by apply Hstep in H1 as [? _].
  - by destruct H2.
  - exfalso. apply H1, Hstep. split; [done|].
    destruct (text_hit e a text) eqn:Hr; [|done].
    exfalso. apply H2. split; [done|]. by eexists.
Qed.

Lemma unresolved_pos found ps :
  (0 < unresolved found ps)%nat → ∃ p, p ∈ ps ∧ found !! p = None.
Proof.
  unfold unresolved. intros Hpos.
  destruct (filter (λ p, found !! p = None) ps) as [|p l] eqn:Hf;
    [simpl in Hpos; lia|].
  assert (p ∈ filter (λ p, found !! p = None) ps) as Hp
    by (rewrite Hf; by left).
  apply list_elem_of_filter in Hp as [? ?]. by exists p.
Qed.

Lemma unresolved_zero found ps :
  unresolved found ps = 0%nat → ∀ p, p ∈ ps → is_Some (found !! p).
Proof.
  unfold unresolved. intros Hz p Hp.
  destruct (found !! p) eqn:Hfp; [by eexists|].
  assert (p ∈ filter (λ p, found !! p = None) ps) as Hin
    by (by apply list_elem_of_filter).
  apply length_zero_iff_nil in Hz. rewrite Hz in Hin.
  by apply elem_of_nil in Hin.
Qed.

(** ** The invariant of the probe *)

Lemma resolved_by_nil e patterns p : resolved_by e patterns [] p = None.
Proof.
  unfold resolved_by. destruct patterns; [done|].
  by repeat case_bool_decide.
Qed.

Lemma probe_inv_init e patterns fns :
  probe_inv e patterns fns (probe_init patterns).
Proof.
  split; simpl.
  - destruct fns; [by right|left; simpl; lia].
  - done.
  - intros; lia.
  - intros; lia.
  - done.
  - intros _ p. by rewrite lookup_empty, resolved_by_nil.
  - intros _. unfold unresolved. f_equal.
    induction patterns as [|a ps IH]; [done|].
    rewrite filter_cons_True by apply lookup_empty. simpl. by rewrite <- IH.
  - intros; lia.
Qed.

Lemma probe_inv_step e patterns fns st :
  probe_inv e patterns fns st →
  probe_cond fns st = true →
  probe_inv e patterns fns (probe_body e patterns fns st).
Proof.
  intros [Hptr Hopen Hread Hlast Hraised Hfound Hremain Hneed].
  unfold probe_cond. rewrite !andb_true_iff.
  intros [[Hnone%bool_decide_eq_true Hpos%Z.ltb_lt] Hlt%Z.ltb_lt].
  specialize (Hfound Hnone). specialize (Hremain Hnone).
  assert (-1 ≤ ptr st) as Hlow by (destruct Hptr as [?|[_ ?]]; lia).
  set (k := Z.to_nat (ptr st + 1)) in *.
  assert (Z.of_nat k = ptr st + 1) as Hk by (unfold k; lia).
  destruct (lookup_lt_is_Some_2 fns k) as [fn Hfn]; [lia|].
  assert (Hpre : ∀ j fn', fns !! j = Some fn' → Z.of_nat j < ptr st + 1 →
                          is_Some (os_read e fn')).
  { intros j fn' Hj Hjlt.
    destruct (decide (Z.of_nat j < ptr st)) as [?|Hge]; [by eapply Hread|].
    assert (j = Z.to_nat (ptr st)) as -> by lia.
    destruct (os_read e fn') eqn:Hr; [by eexists|].
    apply Hlast in Hr; [congruence|lia|done]. }
  assert (Hnew : ∀ j, Z.of_nat j < ptr st + 1 + 1 →
    ∃ p, p ∈ patterns ∧ resolved_by e patterns (take j fns) p = None).
  { intros j Hj.
    destruct (decide (Z.of_nat j < ptr st + 1)) as [?|Hge]; [by apply Hneed|].
    assert (j = k) as -> by lia.
    destruct (unresolved_pos (found st) patterns) as (p & Hp & Hfp); [lia|].
    exists p. split; [done|]. by rewrite <- Hfound. }
  assert (Hk1 : Z.to_nat (ptr st + 1 + 1) = S k) by lia.
  unfold probe_body. fold k. rewrite Hfn.
  destruct (os_read e fn) as [text|] eqn:Hr.
  2: { split; simpl; try done.
       - left; lia.
       - by rewrite Hopen, Hk1, (take_S_r _ _ fn).
       - intros fn' _ Hfn' _. fold k in Hfn'. congruence.
       - intros ex [= <-]. left. exists fn. split; [|done].
         by eapply list_elem_of_lookup_2. }
  destruct (scan_patterns e (found st) text (ptr st + 1) 0 patterns (∅, remain st))
    as [[tmp rem']|ex] eqn:Hscan.
  2: { split; simpl; try done.
       - left; lia.
       - by rewrite Hopen, Hk1, (take_S_r _ _ fn).
       - intros fn' _ Hfn' Hr'. fold k in Hfn'. congruence.
       - intros ex' [= <-]. right.
         by apply scan_patterns_raise in Hscan. }
  apply scan_patterns_found in Hscan as (Hc & Hlook & Hrem).
  assert (Hres : ∀ p, (tmp ∪ found st) !! p
                      = resolved_by e patterns (take (S k) fns) p).
  { intros p. rewrite (take_S_r _ _ fn) by done.
    rewrite (resolved_by_snoc _ _ _ _ text) by done.
    rewrite Hlook, Hfound, length_take_le by lia. fold k. by rewrite Hk. }
  split; simpl; try done.
  - left; lia.
  - by rewrite Hopen, Hk1, (take_S_r _ _ fn).
  - intros fn' _ Hfn' Hr'. fold k in Hfn'. congruence.
  - intros _ p. by rewrite Hk1.
  - intros _. rewrite Hrem, Hremain.
    rewrite <- (unresolved_step e (found st) (tmp ∪ found st) text patterns);
      [lia|].
    intros p Hp. rewrite Hlook.
    destruct (found st !! p) eqn:Hfp.
    + split; [done|]. by intros [? _].
    + rewrite step_value_None by done. split; [done|]. by intros [_ ?].
Qed.

Lemma probe_final e patterns fns :
  probe_inv e patterns fns (probe e patterns fns)
  ∧ probe_cond fns (probe e patterns fns) = false.
Proof.
  apply probe_loop_inv; [apply probe_inv_init|apply probe_inv_step].
Qed.

(** When the probe ends without an exception, every pattern has a value
    or every file has been scanned. *)
Lemma probe_exit e patterns fns :
  raised (probe e patterns fns) = None →
  (∀ p, p ∈ patterns → is_Some (found (probe e patterns fns) !! p))
  ∨ Z.to_nat (ptr (probe e patterns fns) + 1) = length fns.
Proof.
  intros Hnone. destruct (probe_final e patterns fns) as [Hinv Hcond].
  unfold probe_cond in Hcond. rewrite Hnone in Hcond.
  rewrite bool_decide_eq_true_2 in Hcond by done. simpl in Hcond.
  apply andb_false_iff in Hcond as [Hrem%Z.ltb_ge|Hlen%Z.ltb_ge].
  - left. apply unresolved_zero.
    pose proof (inv_remain _ _ _ _ Hinv Hnone). lia.
  - right. destruct (inv_ptr _ _ _ _ Hinv) as [?|[-> ->]]; [lia|done].
Qed.

Lemma first_hit_app_Some e p l1 l2 x :
  ∀ j, first_hit e p j l1 = Some x → first_hit e p j (l1 ++ l2) = Some x.
Proof.
  induction l1 as [|a l1 IH]; intros j; simpl; [done|].
  destruct (file_hit e p a); [done|]. apply IH.
Qed.

Lemma first_hit_skip e p newer l :
  (∀ f, f ∈ newer → file_hit e p f = None) →
  ∀ j, first_hit e p j (newer ++ l) = first_hit e p (j + length newer) l.
Proof.
  induction newer as [|a newer IH]; intros Hno j; simpl.
  - f_equal. lia.
  - rewrite (Hno a) by by left.
    rewrite IH by (intros f Hf; apply Hno; by right).
    f_equal. lia.
Qed.

(** The value of a pattern is settled by the files up to the first one
    that matches it; the probe has scanned that far. *)
Lemma probe_first_hit e patterns fns p :
  raised (probe e patterns fns) = None →
  p ∈ patterns →
  first_hit e p 0 (take (Z.to_nat (ptr (probe e patterns fns) + 1)) fns)
  = first_hit e p 0 fns.
Proof.
  intros Hnone Hp.
  destruct (probe_final e patterns fns) as [Hinv _].
  destruct (probe_exit e patterns fns Hnone) as [Hall|Hlen].
  - destruct (Hall p Hp) as [v Hv].
    rewrite (inv_found _ _ _ _ Hinv Hnone) in Hv.
    set (k := Z.to_nat _) in *.
    destruct (first_hit e p 0 (take k fns)) as [x|] eqn:Hx.
    + rewrite <- (first_hit_app_Some e p (take k fns) (drop k fns) x 0 Hx).
      by rewrite take_drop.
    + unfold resolved_by in Hv. destruct patterns; [done|].
      rewrite Hx in Hv. by repeat case_bool_decide.
  - rewrite Hlen. by rewrite firstn_all.
Qed.

Lemma probe_found e patterns fns p :
  raised (probe e patterns fns) = None →
  found (probe e patterns fns) !! p = resolved_by e patterns fns p.
Proof.
  intros Hnone. destruct (probe_final e patterns fns) as [Hinv _].
  rewrite (inv_found _ _ _ _ Hinv Hnone).
  unfold resolved_by. destruct patterns as [|ending rest] eqn:Hps; [done|].
  rewrite <- Hps in *.
  repeat case_bool_decide; try done;
    rewrite probe_first_hit; try done; subst patterns.
  - by right.
  - subst p. by left.
Qed.

Lemma first_hit_index e p l :
  ∀ j i r, first_hit e p j l = Some (i, r) → (j ≤ i)%nat.
Proof.
  induction l as [|a l IH]; intros j i r; simpl; [done|].
  destruct (file_hit e p a).
  - intros [= <- _]. lia.
  - intros H%IH. lia.
Qed.

(** Without a second copy of the ending among the other patterns, the
    ending has the value 0 exactly when the newest file contains it. *)
Lemma ending_value_newest e ending rest fn0 fns :
  ending ∉ rest →
  raised (probe e (ending :: rest) (fn0 :: fns)) = None →
  found (probe e (ending :: rest) (fn0 :: fns)) !! ending = Some (VInt 0)
  ↔ is_Some (file_hit e ending fn0).
Proof.
  intros Hnot Hnone. rewrite probe_found by done. simpl.
  rewrite bool_decide_eq_false_2, bool_decide_eq_true_2 by done.
  destruct (file_hit e ending fn0) as [r|]; simpl.
  - split; [by eexists|done].
  - split; [|by intros [??]].
    destruct (first_hit e ending 1 fns) as [[i r]|] eqn:Hi; [|done].
    apply first_hit_index in Hi. simpl. intros [= Hz]. lia.
Qed.

(** C4.  The probe opens a prefix of the files, newest first.  Each file
    it opens is opened while some pattern has no value from the files
    before it, so nothing is opened once every pattern has a value; and it
    goes on until every pattern has a value or every file has been
    scanned (or an exception leaves the loop). *)
Theorem probe_stops_when_resolved e patterns fns :
  ∃ k : nat,
    opened (probe e patterns fns) = take k fns
    ∧ (k ≤ length fns)%nat
    ∧ (∀ j, (j < k)%nat →
            ∃ p, p ∈ patterns ∧ resolved_by e patterns (take j fns) p = None)
    ∧ (is_Some (raised (probe e patterns fns))
       ∨ k = length fns
       ∨ ∀ p, p ∈ patterns → is_Some (found (probe e patterns fns) !! p)).
Proof.
  destruct (probe_final e patterns fns) as [Hinv _].
  exists (Z.to_nat (ptr (probe e patterns fns) + 1)).
  split; [apply (inv_opened _ _ _ _ Hinv)|]. split; [|split].
  - destruct (inv_ptr _ _ _ _ Hinv) as [?|[_ ->]]; simpl; lia.
  - intros j Hj. apply (inv_needed _ _ _ _ Hinv). lia.
  - destruct (raised (probe e patterns fns)) as [ex|] eqn:Hr.
    + left. by eexists.
    + right. destruct (probe_exit e patterns fns Hr); auto.
Qed.

(** C2.  A pattern other than the ending gets the last match found in
    the newest file that matches it: the files before it have no match,
    and the files after it, whatever they contain, do not change the
    value. *)
Theorem newest_file_last_match e patterns newer fn older p i findall text r :
  patterns !! S i = Some p →
  re_findall e p = Some findall →
  raised (probe e patterns (newer ++ fn :: older)) = None →
  (∀ f, f ∈ newer → file_hit e p f = None) →
  os_read e fn = Some text →
  last (findall text) = Some r →
  found (probe e patterns (newer ++ fn :: older)) !! p = Some (VHit r).
Proof.
  intros Hp Hre Hnone Hnewer Hread Hlast.
  rewrite probe_found by done. unfold resolved_by.
  destruct patterns as [|ending rest]; [done|]. simpl in Hp.
  rewrite bool_decide_eq_true_2 by by eapply list_elem_of_lookup_2.
  rewrite first_hit_skip by done. simpl.
  unfold file_hit, text_hit. by rewrite Hread, Hre, Hlast.
Qed.

(** ** The record of one identity *)

Lemma view_patterns_tail found width ps :
  (∀ p n, p ∈ ps → found !! p ≠ Some (VInt n)) →
  (∀ p l, p ∈ ps → found !! p ≠ Some (VHit (Groups l))) →
  ∀ i acc, ∃ lines,
    view_patterns found width (S i) ps acc = Ok (acc.1, lines).
Proof.
  induction ps as [|a ps IH]; intros Hstr Htext i acc; simpl.
  { exists acc.2. by destruct acc. }
  assert (∀ p n, p ∈ ps → found !! p ≠ Some (VInt n)) as Hps
    by (intros p n Hp; apply Hstr; by right).
  assert (∀ p l, p ∈ ps → found !! p ≠ Some (VHit (Groups l))) as Hps'
    by (intros p l Hp; apply Htext; by right).
  destruct (found !! a) as [[n|[v|l]]|] eqn:Ha.
  - exfalso. by apply (Hstr a n); [left|].
  - edestruct (IH Hps Hps' (S i)) as [lines Hl]. rewrite Hl. by eexists.
  - exfalso. by apply (Htext a l); [left|].
  - by apply IH.
Qed.

Lemma view_patterns_silent found width ps :
  (∀ p, p ∈ ps → found !! p = None) →
  ∀ i acc, view_patterns found width (S i) ps acc = Ok acc.
Proof.
  induction ps as [|a ps IH]; intros Hno i acc; simpl; [done|].
  rewrite (Hno a) by by left.
  apply IH. intros p Hp. apply Hno. by right.
Qed.

(** A pattern after the ending never has a scan index as its value. *)
Lemma probe_tail_values e ending rest fns p n :
  raised (probe e (ending :: rest) fns) = None →
  p ∈ rest →
  found (probe e (ending :: rest) fns) !! p ≠ Some (VInt n).
Proof.
  intros Hnone Hp. rewrite probe_found by done. simpl.
  rewrite bool_decide_eq_true_2 by done.
  by destruct (first_hit e p 0 fns).
Qed.

Lemma first_hit_Some_inv e p l :
  ∀ j i r, first_hit e p j l = Some (i, r) →
           ∃ fn, fn ∈ l ∧ file_hit e p fn = Some r.
Proof.
  induction l as [|a l IH]; intros j i r; simpl; [done|].
  destruct (file_hit e p a) as [r'|] eqn:Ha.
  - intros [= <- <-]. exists a. split; [by left|done].
  - intros (fn & Hfn & Hhit)%IH. exists fn. split; [by right|done].
Qed.

(** A pattern whose matches are texts never has a tuple as its value. *)
Lemma probe_tail_texts e ending rest fns p l :
  raised (probe e (ending :: rest) fns) = None →
  p ∈ rest →
  (∀ text, text_hit e p text ≠ Some (Groups l)) →
  found (probe e (ending :: rest) fns) !! p ≠ Some (VHit (Groups l)).
Proof.
  intros Hnone Hp Htext. rewrite probe_found by done. simpl.
  rewrite bool_decide_eq_true_2 by done.
  destruct (first_hit e p 0 fns) as [[j r]|] eqn:Hfirst; [|done].
  simpl. intros [= ->].
  apply first_hit_Some_inv in Hfirst as (fn & _ & Hfile).
  unfold file_hit in Hfile.
  destruct (os_read e fn) as [text|]; [|done]. by apply (Htext text).
Qed.

Lemma effective_patterns_cons item :
  ∃ rest, effective_patterns item = ending item :: rest.
Proof. unfold effective_patterns. by eexists. Qed.

Lemma view_patterns_flag found width ps :
  ∀ i acc r, view_patterns found width (S i) ps acc = Ok r → r.1 = acc.1.
Proof.
  induction ps as [|a ps IH]; intros i acc r; simpl.
  { by intros [= <-]. }
  destruct (found !! a) as [[n|[v|l]]|]; [done| |done|apply IH].
  intros H%IH. done.
Qed.

Lemma panel_entry_Ok e item width inspect one fns delta flag t :
  panel_entry e item width inspect one fns delta = Ok (flag, t) →
  raised (probe e (effective_patterns item) fns) = None
  ∧ e_name t = one
  ∧ flag = (if bool_decide (found (probe e (effective_patterns item) fns)
                              !! ending item = Some (VInt 0))
            then 1 else 0).
Proof.
  unfold panel_entry.
  destruct (effective_patterns_cons item) as [rest ->].
  destruct (raised _); [done|]. simpl.
  destruct (view_patterns _ _ _ _ _) as [[[f|] lines]|] eqn:Hview;
    simpl; try done.
  intros [= <- <-]. split; [done|]. split; [done|].
  apply view_patterns_flag in Hview. simpl in Hview. congruence.
Qed.

(** When the ending is not repeated among the other patterns, a record
    goes to the bucket of flag 1 exactly when the newest file contains the
    ending. *)
Lemma terminal_iff_newest_has_ending e item width inspect one fn0 rest delta
    flag t :
  ending item ∉ tail (effective_patterns item) →
  panel_entry e item width inspect one (fn0 :: rest) delta = Ok (flag, t) →
  flag = 1 ↔ is_Some (file_hit e (ending item) fn0).
Proof.
  intros Hnot Hentry.
  apply panel_entry_Ok in Hentry as (Hnone & _ & ->).
  destruct (effective_patterns_cons item) as [others Heq].
  rewrite Heq in *. simpl in Hnot.
  rewrite <- (ending_value_newest e (ending item) others fn0 rest) by done.
  by case_bool_decide.
Qed.

Lemma panel_entry_raise e item width inspect one fns delta ex :
  raised (probe e (effective_patterns item) fns) = Some ex →
  panel_entry e item width inspect one fns delta = Raise ex.
Proof. unfold panel_entry. by intros ->. Qed.

Lemma panel_entry_silent e item width one fns delta flag t :
  found (probe e (effective_patterns item) fns) = ∅ →
  panel_entry e item width None one fns delta = Ok (flag, t) →
  flag = 0 ∧ e_lines t = [].
Proof.
  unfold panel_entry.
  destruct (effective_patterns_cons item) as [rest ->].
  intros ->. destruct (raised _); [done|]. simpl.
  rewrite view_patterns_silent by (intros; apply lookup_empty).
  rewrite lookup_empty. simpl. by intros [= <- <-].
Qed.

Lemma panel_entry_total e item width inspect one fns delta :
  (∀ fn, fn ∈ fns → is_Some (os_read e fn)) →
  (∀ p, p ∈ effective_patterns item → is_Some (re_findall e p)) →
  (∀ p text l, p ∈ tail (effective_patterns item) →
               text_hit e p text ≠ Some (Groups l)) →
  ∃ flag t, panel_entry e item width inspect one fns delta = Ok (flag, t).
Proof.
  intros Hread Hre Htext. unfold panel_entry.
  destruct (probe_final e (effective_patterns item) fns) as [Hinv _].
  destruct (raised (probe e (effective_patterns item) fns)) as [ex|] eqn:Hr.
  { exfalso.
    destruct (inv_raised _ _ _ _ Hinv ex Hr)
      as [(fn & Hfn & Hno & _)|(p & Hp & Hno & _)].
    - apply Hread in Hfn as [? ?]. congruence.
    - apply Hre in Hp as [? ?]. congruence. }
  destruct (effective_patterns_cons item) as [rest Heq].
  rewrite Heq in *. simpl.
  edestruct (view_patterns_tail
               (found (probe e (ending item :: rest) fns)) width rest)
    as [lines ->].
  { intros p n Hp. by apply probe_tail_values. }
  { intros p l Hp. apply probe_tail_texts; [done..|].
    intros text. by apply Htext. }
  simpl. by eexists _, _.
Qed.

(** ** Sorting the files of an identity *)

Lemma insert_desc_perm key x l : insert_desc key x l ≡ₚ x :: l.
Proof.
  induction l as [|y l IH]; simpl; [done|].
  destruct (Qlt_bool (key x) (key y)); [|done].
  rewrite IH. apply perm_swap.
Qed.

Lemma sorted_desc_perm key l : sorted_desc key l ≡ₚ l.
Proof.
  induction l as [|x l IH]; simpl; [done|].
  by rewrite insert_desc_perm, IH.
Qed.

Lemma Qlt_bool_iff a b : Qlt_bool a b = true ↔ (a < b)%Q.
Proof.
  unfold Qlt_bool. rewrite negb_true_iff.
  split.
  - intros H. apply Qnot_le_lt. intros Hle%Qle_bool_iff. congruence.
  - intros H. destruct (Qle_bool b a) eqn:Hb; [|done].
    apply Qle_bool_iff in Hb. by apply Qlt_not_le in H.
Qed.

(** Newest first: the modification times never increase along the list. *)
Lemma sorted_desc_sorted key l :
  Sorted (λ a b, (key b <= key a)%Q) (sorted_desc key l).
Proof.
  induction l as [|x l IH]; simpl; [constructor|].
  induction IH as [|y l' Hs IH' Hhd]; simpl; [by repeat constructor|].
  destruct (Qlt_bool (key x) (key y)) eqn:Hxy.
  - constructor; [done|].
    apply Qlt_bool_iff, Qlt_le_weak in Hxy.
    destruct l' as [|z l'']; simpl in *; [by constructor|].
    destruct (Qlt_bool (key x) (key z)); constructor; try done.
    by inversion Hhd.
  - constructor; [by constructor|]. constructor.
    destruct (Qle_bool (key y) (key x)) eqn:Hle.
    + by apply Qle_bool_iff.
    + unfold Qlt_bool in Hxy. by rewrite Hle in Hxy.
Qed.

(** ** Folding over the files and the identities *)

Lemma foldM_inv {A B} (f : A → B → result A) (I : A → Prop) l :
  (∀ a x a', I a → f a x = Ok a' → I a') →
  ∀ a r, I a → foldM f a l = Ok r → I r.
Proof.
  intros Hstep. induction l as [|x l IH]; intros a r Ha; simpl.
  { by intros [= <-]. }
  destruct (f a x) as [a'|] eqn:Hf; simpl; [|done].
  apply IH. by eapply Hstep.
Qed.

Lemma foldM_each_ok {A B} (f : A → B → result A) l :
  ∀ a r, foldM f a l = Ok r → ∀ x, x ∈ l → ∃ a', is_ok (f a' x) = true.
Proof.
  induction l as [|y l IH]; intros a r Hfold x Hx; simpl in Hfold.
  { by apply elem_of_nil in Hx. }
  destruct (f a y) as [a'|] eqn:Hf; simpl in Hfold; [|done].
  apply elem_of_cons in Hx as [->|Hx].
  - exists a. by rewrite Hf.
  - by eapply IH.
Qed.

Lemma collect_logs_nonempty parse e item logs :
  collect_logs parse e item = Ok logs →
  ∀ one files, logs !! one = Some files → files ≠ [].
Proof.
  unfold collect_logs.
  apply (foldM_inv _ (λ logs, ∀ one files, logs !! one = Some files → files ≠ [])).
  - intros a fullfn a' Ha. unfold add_log.
    destruct (match_file_with parse (fnp item) fullfn) as [[[] [name|]]|];
      simpl; try by intros [= <-].
    intros [= <-] one files.
    destruct (decide (name = one)) as [->|Hne].
    + rewrite lookup_insert_eq. intros [= <-]. by destruct (default _ _).
    + rewrite lookup_insert_ne by done. apply Ha.
  - intros one files. by rewrite lookup_empty.
Qed.

(** Every file of a bucket was discovered under a watched path. *)
Lemma collect_logs_discovered parse e item logs :
  collect_logs parse e item = Ok logs →
  ∀ one files fn, logs !! one = Some files → fn ∈ files →
                   fn ∈ discovered e item.
Proof.
  unfold collect_logs. generalize (discovered e item) as l.
  intros l. revert logs.
  assert (∀ l' (a r : gmap string (list string)),
    foldM (add_log parse item) a l' = Ok r →
    ∀ one files fn, r !! one = Some files → fn ∈ files →
      fn ∈ l' ∨ ∃ files0, a !! one = Some files0 ∧ fn ∈ files0) as Hgen.
  { induction l' as [|x l' IH]; intros a r; simpl.
    - intros [= <-] one files fn ? ?. right. by exists files.
    - destruct (add_log parse item a x) as [a'|] eqn:Hadd; simpl; [|done].
      intros Hfold one files fn Hone Hfn.
      destruct (IH _ _ Hfold _ _ _ Hone Hfn) as [?|(files0 & H0 & Hfn0)].
      { left. by right. }
      unfold add_log in Hadd.
      destruct (match_file_with parse (fnp item) x) as [[[] [name|]]|];
        simpl in Hadd; try (injection Hadd as <-; right; by exists files0);
        try done.
      injection Hadd as <-.
      destruct (decide (name = one)) as [->|Hne].
      + rewrite lookup_insert_eq in H0. injection H0 as <-.
        apply elem_of_app in Hfn0 as [Hfn0|Hfn0%list_elem_of_singleton].
        * right. destruct (a !! one) as [files1|]; simpl in *.
          -- by exists files1.
          -- by apply elem_of_nil in Hfn0.
        * left. subst. by left.
      + rewrite lookup_insert_ne in H0 by done. right. by exists files0. }
  intros logs Hfold one files fn Hone Hfn.
  destruct (Hgen _ _ _ Hfold _ _ _ Hone Hfn) as [?|(? & H0 & _)]; [done|].
  by rewrite lookup_empty in H0.
Qed.

(** ** The records of a scan *)

Lemma in_recs_insert recs f t f' t' :
  in_recs (<[f := default [] (recs !! f) ++ [t]]> recs) f' t'
  ↔ in_recs recs f' t' ∨ (f' = f ∧ t' = t).
Proof.
  unfold in_recs. destruct (decide (f' = f)) as [->|Hne].
  - rewrite lookup_insert_eq. split.
    + intros (l & [= <-] & [Hin|Hin%list_elem_of_singleton]%elem_of_app).
      * left. destruct (recs !! f) as [l|]; simpl in *; [by exists l|].
        by apply elem_of_nil in Hin.
      * by right.
    + intros [(l & Hl & Hin)|[_ ->]]; eexists; (split; [done|]).
      * rewrite Hl. simpl. apply elem_of_app. by left.
      * apply elem_of_app. right. by left.
  - rewrite lookup_insert_ne by done. split; [by left|].
    by intros [?|[? _]].
Qed.

Lemma panel_item_spec e item width duration inspect logs recs one recs' :
  panel_item e item width duration inspect logs recs one = Ok recs' →
  (∀ f t, in_recs recs' f t
          ↔ in_recs recs f t
            ∨ entry_of e item width duration inspect logs one f t)
  ∧ ∃ fn0 rest,
      item_files e logs one = fn0 :: rest
      ∧ (skipped inspect duration (idle_seconds e fn0) one
           (list_to_set (included item)) (list_to_set (excluded item)) = true
         ∨ ∃ f t, entry_of e item width duration inspect logs one f t).
Proof.
  unfold panel_item, entry_of.
  destruct (item_files e logs one) as [|fn0 rest] eqn:Hfiles; [done|].
  destruct (skipped _ _ _ _ _ _) eqn:Hskip.
  - intros [= <-]. split.
    + intros f t. split; [by left|].
      intros [?|(? & ? & [= <- <-] & ? & _)]; [done|congruence].
    + exists fn0, rest. split; [done|]. by left.
  - destruct (panel_entry _ _ _ _ _ _ _) as [[f0 t0]|] eqn:Hentry;
      simpl; [|done].
    intros [= <-]. split.
    + intros f t. rewrite in_recs_insert. split.
      * intros [?|[-> ->]]; [by left|]. right. by exists fn0, rest.
      * intros [?|(? & ? & [= <- <-] & _ & Heq)]; [by left|].
        right. rewrite Hentry in Heq. by injection Heq as <- <-.
    + exists fn0, rest. split; [done|]. right.
      exists f0, t0, fn0, rest. done.
Qed.

Lemma foldM_panel_spec e item width duration inspect logs ones :
  ∀ recs0 recs,
    foldM (panel_item e item width duration inspect logs) recs0 ones
    = Ok recs →
    (∀ f t, in_recs recs f t
            ↔ in_recs recs0 f t
              ∨ ∃ one, one ∈ ones
                       ∧ entry_of e item width duration inspect logs one f t)
    ∧ (∀ one, one ∈ ones →
         ∃ fn0 rest,
           item_files e logs one = fn0 :: rest
           ∧ (skipped inspect duration (idle_seconds e fn0) one
                (list_to_set (included item)) (list_to_set (excluded item))
              = true
              ∨ ∃ f t, entry_of e item width duration inspect logs one f t)).
Proof.
  induction ones as [|x ones IH]; intros recs0 recs; simpl.
  { intros [= <-]. split.
    - intros f t. split; [by left|].
      intros [?|(one & Hone & _)]; [done|]. by apply elem_of_nil in Hone.
    - intros one Hone. by apply elem_of_nil in Hone. }
  destruct (panel_item e item width duration inspect logs recs0 x)
    as [recs1|] eqn:Hx; simpl; [|done].
  intros Hfold. apply panel_item_spec in Hx as [Hx1 Hx2].
  apply IH in Hfold as [IH1 IH2]. split.
  - intros f t. rewrite IH1, Hx1. split.
    + intros [[?|?]|(one & ? & ?)]; [by left| |].
      * right. exists x. split; [by left|done].
      * right. exists one. split; [by right|done].
    + intros [?|(one & [->|?]%elem_of_cons & ?)].
      * left. by left.
      * left. by right.
      * right. by exists one.
  - intros one [->|Hone]%elem_of_cons; [done|by apply IH2].
Qed.

Lemma entry_of_name e item width duration inspect logs one f t :
  entry_of e item width duration inspect logs one f t → e_name t = one.
Proof.
  intros (fn0 & rest & _ & _ & Hentry).
  by apply panel_entry_Ok in Hentry as (_ & ? & _).
Qed.

Lemma sorted_keys_elem {V} (m : gmap string V) x :
  x ∈ merge_sort String.le (elements (dom m)) ↔ is_Some (m !! x).
Proof. by rewrite merge_sort_Permutation, elem_of_elements, elem_of_dom. Qed.

Lemma item_files_cons e logs one fn0 rest :
  item_files e logs one = fn0 :: rest → is_Some (logs !! one).
Proof.
  unfold item_files. destruct (logs !! one); [by eexists|]. done.
Qed.

(** The parts of a scan that returns a view. *)
Lemma group_panel_view_Ok parse e self tag width duration inspect view :
  group_panel_view_with parse e self tag width duration inspect = Ok view →
  ∃ item logs recs,
    __getitem__ self tag = Ok item
    ∧ collect_logs parse e item = Ok logs
    ∧ foldM (panel_item e item width duration inspect logs) ∅
        (merge_sort String.le (elements (dom logs))) = Ok recs
    ∧ ∀ f t, in_view view f t ↔ in_recs recs f t.
Proof.
  unfold group_panel_view_with.
  destruct (__getitem__ self tag) as [item|] eqn:Hitem; simpl; [|done].
  destruct (collect_logs parse e item) as [logs|] eqn:Hlogs; simpl; [|done].
  destruct (foldM _ _ _) as [recs|] eqn:Hfold; simpl; [|done].
  intros [= <-]. exists item, logs, recs.
  split; [done|]. split; [done|]. split; [done|]. intros f t. split.
  - intros (i & l & Hi & Hl & Hin). simpl in *.
    rewrite list_lookup_fmap, Hi in Hl. injection Hl as <-.
    destruct (recs !! f) as [l|] eqn:Hf; simpl in Hin.
    + by exists l.
    + by apply elem_of_nil in Hin.
  - intros (l & Hl & Hin).
    assert (f ∈ merge_sort Z.le (elements (dom recs))) as Hf.
    { rewrite merge_sort_Permutation, elem_of_elements, elem_of_dom.
      by eexists. }
    apply list_elem_of_lookup in Hf as [i Hi].
    exists i, l. simpl. rewrite list_lookup_fmap, Hi. simpl.
    by rewrite Hl.
Qed.

Lemma foldM_total {A B} (f : A → B → result A) l :
  (∀ a x, x ∈ l → is_ok (f a x) = true) →
  ∀ a, ∃ r, foldM f a l = Ok r.
Proof.
  induction l as [|x l IH]; intros Hok a; simpl; [by eexists|].
  pose proof (Hok a x (list_elem_of_here _ _)) as Hx.
  destruct (f a x) as [a'|]; [|done]. simpl.
  apply IH. intros a0 y Hy. apply Hok. by right.
Qed.

(** ** The drop filter *)

Lemma skipped_status_iff duration delta one (include_set exclude_set : gset string) :
  skipped None duration delta one include_set exclude_set = true
  ↔ one ∈ exclude_set
    ∨ ∃ d, duration = Some d ∧ (d < inject_Z delta)%Q ∧ one ∉ include_set.
Proof.
  unfold skipped.
  rewrite (bool_decide_eq_true_2 (None = None)) by done.
  rewrite (bool_decide_eq_false_2 (None ≠ None)) by (by intros ?).
  simpl. rewrite orb_false_r, orb_true_iff, andb_true_iff.
  rewrite !bool_decide_eq_true. split.
  - intros [[Hd ?]|?]; [|by left]. right.
    destruct duration as [d|]; [|done].
    exists d. by apply Qlt_bool_iff in Hd.
  - intros [?|(d & -> & Hd & ?)]; [by right|]. left.
    by apply Qlt_bool_iff in Hd.
Qed.

(** C3.  In a status scan (no inspection) the output has no record of an
    identity exactly when the identity is excluded, or a duration is
    given, the idle seconds exceed it and the identity is not included.
    An identity both included and excluded has no record. *)
Theorem status_scan_drops parse e self tag width duration view item logs
    one fn0 rest :
  group_panel_view_with parse e self tag width duration None = Ok view →
  __getitem__ self tag = Ok item →
  collect_logs parse e item = Ok logs →
  item_files e logs one = fn0 :: rest →
  ((∀ f t, in_view view f t → e_name t ≠ one)
   ↔ one ∈ excluded item
     ∨ ∃ d, duration = Some d
            ∧ (d < inject_Z (idle_seconds e fn0))%Q
            ∧ one ∉ included item)
  ∧ (one ∈ included item → one ∈ excluded item →
     ∀ f t, in_view view f t → e_name t ≠ one).
Proof.
  intros Hview Hitem Hlogs Hfiles.
  apply group_panel_view_Ok in Hview
    as (item' & logs' & recs & Hitem' & Hlogs' & Hfold & Hin).
  rewrite Hitem in Hitem'. injection Hitem' as <-.
  rewrite Hlogs in Hlogs'. injection Hlogs' as <-.
  apply foldM_panel_spec in Hfold as [Hrecs Hones].
  assert (Hdrop :
    (∀ f t, in_view view f t → e_name t ≠ one)
    ↔ skipped None duration (idle_seconds e fn0) one
        (list_to_set (included item)) (list_to_set (excluded item)) = true).
  { split.
    - intros Hnone.
      destruct (Hones one) as (fn0' & rest' & Hfiles' & [Hs|(f & t & Hent)]).
      + apply sorted_keys_elem. by eapply item_files_cons.
      + rewrite Hfiles in Hfiles'. by injection Hfiles' as <- <-.
      + exfalso. apply (Hnone f t).
        * apply Hin, Hrecs. right. exists one. split; [|done].
          apply sorted_keys_elem. by eapply item_files_cons.
        * by eapply entry_of_name.
    - intros Hs f t Ht%Hin%Hrecs Hname.
      destruct Ht as [(l & Hl & _)|(one' & _ & Hent)].
      { by rewrite lookup_empty in Hl. }
      pose proof (entry_of_name _ _ _ _ _ _ _ _ _ Hent) as Hname'.
      rewrite Hname in Hname'. subst one'.
      destruct Hent as (fn0' & rest' & Hfiles' & Hs' & _).
      rewrite Hfiles in Hfiles'. injection Hfiles' as <- <-. congruence. }
  assert (Hset : ∀ (x : string) l, x ∈ (list_to_set l : gset string) ↔ x ∈ l)
    by (intros; apply elem_of_list_to_set).
  split; [split; intros H|].
  - apply Hdrop, skipped_status_iff in H.
    destruct H as [H|(d & ? & ? & H)]; [left; by apply Hset|].
    right. exists d. repeat split; try done.
    intros ?. by apply H, Hset.
  - apply Hdrop, skipped_status_iff.
    destruct H as [H|(d & ? & ? & H)]; [left; by apply Hset|].
    right. exists d. repeat split; try done.
    intros ?. by apply H, Hset.
  - intros _ Hex. apply Hdrop, skipped_status_iff. left. by apply Hset.
Qed.

(** ** A scan that completes *)

Lemma probe_unreadable e patterns fns fn :
  fn ∈ opened (probe e patterns fns) →
  os_read e fn = None →
  raised (probe e patterns fns) = Some (OSError fn)
  ∧ last (opened (probe e patterns fns)) = Some fn.
Proof.
  destruct (probe_final e patterns fns) as [Hinv _].
  rewrite (inv_opened _ _ _ _ Hinv).
  set (st := probe e patterns fns) in *.
  intros (j & Hj & Hlt)%elem_of_take Hno.
  assert (Z.of_nat j = ptr st) as Hptr.
  { destruct (decide (Z.of_nat j < ptr st)) as [Hsmall|?]; [|lia].
    destruct (inv_readable _ _ _ _ Hinv j fn Hj Hsmall). congruence. }
  assert (Z.to_nat (ptr st) = j) as Hjp by lia.
  split.
  - apply (inv_last _ _ _ _ Hinv); [lia|by rewrite Hjp|done].
  - rewrite last_lookup, length_take_le.
    + replace (Z.to_nat (ptr st + 1)) with (S j) by lia. simpl.
      rewrite lookup_take_lt by lia. done.
    + destruct (inv_ptr _ _ _ _ Hinv) as [?|[_ ?]]; lia.
Qed.

(** C9 as the code has it.  A file that cannot be read is not skipped:
    the read error leaves the probe with the unreadable file as the last
    one opened, and the scan of the group ends with an exception instead
    of a view. *)
Theorem unreadable_file_aborts_scan parse e self tag width duration inspect
    item logs one fn0 rest fn :
  __getitem__ self tag = Ok item →
  collect_logs parse e item = Ok logs →
  item_files e logs one = fn0 :: rest →
  skipped inspect duration (idle_seconds e fn0) one
    (list_to_set (included item)) (list_to_set (excluded item)) = false →
  fn ∈ opened (probe e (effective_patterns item) (fn0 :: rest)) →
  os_read e fn = None →
  raised (probe e (effective_patterns item) (fn0 :: rest)) = Some (OSError fn)
  ∧ last (opened (probe e (effective_patterns item) (fn0 :: rest))) = Some fn
  ∧ ∃ ex, group_panel_view_with parse e self tag width duration inspect
          = Raise ex.
Proof.
  intros Hitem Hlogs Hfiles Hskip Hopen Hno.
  destruct (probe_unreadable _ _ _ _ Hopen Hno) as [Hraised Hlast].
  split; [done|]. split; [done|].
  destruct (group_panel_view_with parse e self tag width duration inspect)
    as [view|ex] eqn:Hview; [|by eexists].
  exfalso.
  apply group_panel_view_Ok in Hview
    as (item' & logs' & recs & Hitem' & Hlogs' & Hfold & _).
  rewrite Hitem in Hitem'. injection Hitem' as <-.
  rewrite Hlogs in Hlogs'. injection Hlogs' as <-.
  apply foldM_each_ok with (x := one) in Hfold as [recs' Hok].
  - unfold panel_item in Hok. rewrite Hfiles, Hskip in Hok.
    by rewrite (panel_entry_raise _ _ _ _ _ _ _ _ Hraised) in Hok.
  - apply sorted_keys_elem. by eapply item_files_cons.
Qed.

(** C8.  A view the scan returns has a record for every identity that is
    not skipped; an identity whose files resolve no pattern has its record
    in the bucket of flag 0, with no value line in a status scan.  The
    scan does return a view when every discovered file can be read, every
    pattern compiles and no pattern after the ending has a tuple as a
    match (a pattern with two or more groups has, and the scan then ends
    in [TypeError]). *)
Theorem silent_identity_has_record parse e self tag width duration inspect
    item logs :
  __getitem__ self tag = Ok item →
  collect_logs parse e item = Ok logs →
  (∀ view,
     group_panel_view_with parse e self tag width duration inspect = Ok view →
     ∀ one fn0 rest,
       item_files e logs one = fn0 :: rest →
       skipped inspect duration (idle_seconds e fn0) one
         (list_to_set (included item)) (list_to_set (excluded item))
       = false →
       ∃ f t,
         in_view view f t ∧ e_name t = one
         ∧ (found (probe e (effective_patterns item) (fn0 :: rest)) = ∅ →
            f = 0 ∧ (inspect = None → e_lines t = [])))
  ∧ ((∀ fn, fn ∈ discovered e item → is_Some (os_read e fn)) →
     (∀ p, p ∈ effective_patterns item → is_Some (re_findall e p)) →
     (∀ p text l, p ∈ tail (effective_patterns item) →
                  text_hit e p text ≠ Some (Groups l)) →
     ∃ view,
       group_panel_view_with parse e self tag width duration inspect
       = Ok view).
Proof.
  intros Hitem Hlogs. split.
  - intros view Hview one fn0 rest Hfs Hskip.
    apply group_panel_view_Ok in Hview
      as (item' & logs' & recs' & Hitem' & Hlogs' & Hfold' & Hin).
    rewrite Hitem in Hitem'. injection Hitem' as <-.
    rewrite Hlogs in Hlogs'. injection Hlogs' as <-.
    apply foldM_panel_spec in Hfold' as [Hrecs Hones].
    destruct (Hones one) as (fn0' & rest' & Hfs' & [Hs|(f & t & Hent)]).
    { apply sorted_keys_elem. by eapply item_files_cons. }
    { rewrite Hfs in Hfs'. injection Hfs' as <- <-. congruence. }
    exists f, t. split; [|split].
    + apply Hin, Hrecs. right. exists one. split; [|done].
      apply sorted_keys_elem. by eapply item_files_cons.
    + by eapply entry_of_name.
    + intros Hempty.
      destruct Hent as (fn0'' & rest'' & Hfs'' & _ & Hentry).
      rewrite Hfs in Hfs''. injection Hfs'' as <- <-.
      split.
      * apply panel_entry_Ok in Hentry as (_ & _ & ->).
        rewrite Hempty, lookup_empty. by rewrite bool_decide_eq_false_2.
      * intros ->. by eapply panel_entry_silent.
  - intros Hread Hre Htext.
    assert (Hfiles : ∀ one fn, fn ∈ item_files e logs one →
                               is_Some (os_read e fn)).
    { intros one fn. unfold item_files. rewrite sorted_desc_perm.
      destruct (logs !! one) as [files|] eqn:Hone; simpl.
      - intros Hfn. eapply Hread, collect_logs_discovered; done.
      - intros Hfn. by apply elem_of_nil in Hfn. }
    destruct (foldM_total (panel_item e item width duration inspect logs)
                (merge_sort String.le (elements (dom logs))))
      with (a := (∅ : gmap Z (list entry))) as [recs Hfold].
    { intros recs one [files Hone]%sorted_keys_elem. unfold panel_item.
      destruct (item_files e logs one) as [|fn0 rest] eqn:Hfs.
      - exfalso. unfold item_files in Hfs. rewrite Hone in Hfs.
        simpl in Hfs.
        apply (collect_logs_nonempty _ _ _ _ Hlogs one files Hone).
        apply Permutation_nil.
        by rewrite <- (sorted_desc_perm (os_getmtime e) files), Hfs.
      - destruct (skipped _ _ _ _ _ _); [done|].
        edestruct (panel_entry_total e item width inspect one (fn0 :: rest))
          as (f & t & ->); [|done|done|done].
        intros fn Hfn. apply (Hfiles one). by rewrite Hfs. }
    eexists. unfold group_panel_view_with. rewrite Hitem. simpl.
    rewrite Hlogs. simpl. by rewrite Hfold.
Qed.

(** ** Strings *)

Lemma chars_str l : chars (str l) = l.
Proof. apply list_ascii_of_string_of_list_ascii. Qed.

Lemma str_chars s : str (chars s) = s.
Proof. apply string_of_list_ascii_of_string. Qed.

Lemma chars_app a b : chars (a +:+ b) = chars a ++ chars b.
Proof. induction a as [|c a IH]; simpl; [done|]. by rewrite <- IH. Qed.

Lemma str_rev_str l : str_rev (str l) = str (rev l).
Proof. unfold str_rev. by rewrite chars_str. Qed.

Lemma replace_single c0 new l :
  replace_go [c0] new 0 l
  = flat_map (λ c, if bool_decide (c0 = c) then new else [c]) l.
Proof.
  induction l as [|c l IH]; simpl; [done|].
  rewrite andb_true_r. case_bool_decide; simpl; by rewrite IH.
Qed.

Lemma replace_open l :
  replace_chars (chars "{") marker l = flat_map open_to_marker l.
Proof.
  simpl. rewrite replace_single. apply flat_map_ext.
  intros c. unfold open_to_marker. by repeat case_bool_decide.
Qed.

Lemma replace_close l :
  replace_chars (chars "}") (chars "{") (flat_map open_to_marker l)
  = flat_map braces_to_marker l.
Proof.
  simpl. rewrite replace_single.
  induction l as [|c l IH]; simpl; [done|].
  rewrite flat_map_app, IH. f_equal.
  unfold open_to_marker, braces_to_marker.
  case_bool_decide as H1; [done|]. simpl.
  by repeat case_bool_decide.
Qed.

Lemma is_prefix_expand m l :
  Forall (λ a, a ≠ "{"%char ∧ a ≠ "}"%char ∧ a ≠ "!"%char) m →
  is_prefix m (flat_map braces_to_marker l) = is_prefix m l.
Proof.
  intros Hm. revert l.
  induction Hm as [|a m (Ha1 & Ha2 & Ha3) Hm IH]; intros l; [by destruct l|].
  destruct l as [|c l]; [done|]. simpl.
  unfold braces_to_marker at 1.
  case_bool_decide as H1; [|case_bool_decide as H2]; simpl.
  - subst c. by rewrite !bool_decide_eq_false_2.
  - subst c. by rewrite !bool_decide_eq_false_2.
  - by rewrite IH.
Qed.

Lemma replace_go_cons old new c s :
  replace_go old new 0 (c :: s)
  = if is_prefix old (c :: s)
    then new ++ replace_go old new (length old - 1) s
    else c :: replace_go old new 0 s.
Proof. done. Qed.

Lemma replace_go_skip old new a s :
  replace_go old new (length a) (a ++ s) = replace_go old new 0 s.
Proof. induction a as [|c a IH]; simpl; [by destruct s|done]. Qed.

Lemma replace_marker l :
  occurs marker l = false →
  replace_go marker (chars "}") 0 (flat_map braces_to_marker l)
  = map swap_brace l.
Proof.
  induction l as [|c l IH]; intros Hocc; [done|].
  apply orb_false_iff in Hocc as [Hpre Hocc]. specialize (IH Hocc).
  change (flat_map braces_to_marker (c :: l))
    with (braces_to_marker c ++ flat_map braces_to_marker l).
  change (map swap_brace (c :: l)) with (swap_brace c :: map swap_brace l).
  unfold braces_to_marker at 1, swap_brace at 1.
  case_bool_decide as H1; [|case_bool_decide as H2].
  - change (marker ++ ?x) with ("!"%char :: (chars "|*#" ++ x)).
    rewrite replace_go_cons.
    change (is_prefix marker ("!"%char :: (chars "|*#" ++ ?x))) with true.
    cbv iota.
    change (length marker - 1)%nat with (length (chars "|*#")).
    by rewrite replace_go_skip, IH.
  - change ([?x] ++ ?y) with (x :: y). rewrite replace_go_cons.
    change (is_prefix marker ("{"%char :: ?x)) with false.
    cbv iota. by rewrite IH.
  - change ([?x] ++ ?y) with (x :: y). rewrite replace_go_cons.
    assert (is_prefix marker (c :: flat_map braces_to_marker l) = false)
      as ->.
    { rewrite <- Hpre. change marker with ("!"%char :: chars "|*#").
      cbn [is_prefix]. f_equal.
      apply (is_prefix_expand (chars "|*#")).
      repeat constructor; done. }
    by rewrite IH.
Qed.

(** On a template without the marker, the three [replace] calls swap the
    two braces. *)
Lemma swap_braces_spec (s : string) :
  occurs marker (chars s) = false →
  str_replace "!|*#" "}" (str_replace "}" "{" (str_replace "{" "!|*#" s))
  = str (map swap_brace (chars s)).
Proof.
  intros Hocc. unfold str_replace. rewrite !chars_str.
  change (chars "!|*#") with marker.
  rewrite replace_open, replace_close.
  unfold replace_chars. change (marker) with ("!"%char :: chars "|*#") at 1.
  cbv iota. by rewrite replace_marker.
Qed.

(** ** The template matcher on the model of [parse] *)

Lemma map_swap_literal l :
  "{"%char ∉ l → "}"%char ∉ l → map swap_brace l = l.
Proof.
  induction l as [|c l IH]; intros H1 H2; simpl; [done|].
  apply not_elem_of_cons in H1 as [? ?].
  apply not_elem_of_cons in H2 as [? ?].
  unfold swap_brace at 1.
  rewrite !bool_decide_eq_false_2 by done. by rewrite IH.
Qed.

Lemma not_elem_of_rev (c : ascii) l : c ∉ l → c ∉ rev l.
Proof. intros H Hin. apply H. by apply list_elem_of_In, in_rev, list_elem_of_In. Qed.

Lemma split_go_literal lits rest :
  "{"%char ∉ lits → "}"%char ∉ lits →
  Parse.split_go 0 (lits ++ rest)
  = (app (Parse.PLit <$> lits)) <$> Parse.split_go 0 rest.
Proof.
  induction lits as [|c lits IH]; intros H1 H2.
  { simpl. by destruct (Parse.split_go 0 rest). }
  apply not_elem_of_cons in H1 as [? ?].
  apply not_elem_of_cons in H2 as [? ?].
  change ((c :: lits) ++ rest) with (c :: (lits ++ rest)).
  cbn [Parse.split_go].
  rewrite !bool_decide_eq_false_2 by done.
  rewrite IH by done. by destruct (Parse.split_go 0 rest).
Qed.

Lemma split_go_field rest :
  Parse.split_go 0 (chars "{eman}" ++ rest)
  = cons (Parse.PField (chars "eman")) <$> Parse.split_go 0 rest.
Proof. done. Qed.

Lemma compile_literal seen lits ps :
  Parse.compile seen ((Parse.PLit <$> lits) ++ ps)
  = (Parse.Lit <$> lits) ++ Parse.compile seen ps.
Proof. induction lits as [|c lits IH]; [done|]. simpl. by f_equal. Qed.

Lemma ci_eqb_refl c : Parse.ci_eqb c c = true.
Proof. unfold Parse.ci_eqb. by apply bool_decide_eq_true. Qed.

Lemma match_lits_app a ts named s :
  Parse.match_tokens ((Parse.Lit <$> a) ++ ts) named (a ++ s)
  = Parse.match_tokens ts named s.
Proof.
  induction a as [|c a IH]; simpl; [done|]. by rewrite ci_eqb_refl.
Qed.

Lemma match_lits_length b named s r :
  Parse.match_tokens (Parse.Lit <$> b) named s = Some r →
  length s = length b.
Proof.
  revert s. induction b as [|c b IH]; intros [|c' s]; simpl; try done.
  destruct (Parse.ci_eqb c c'); [|done]. intros H%IH. by rewrite H.
Qed.

Lemma match_lits_refl b named :
  Parse.match_tokens (Parse.Lit <$> b) named b = Some named.
Proof.
  pose proof (match_lits_app b [] named []) as H.
  by rewrite !app_nil_r in H.
Qed.

Lemma match_lits_strip a ts named s r :
  Parse.match_tokens ((Parse.Lit <$> a) ++ ts) named s = Some r →
  is_Some (Parse.ci_strip a s).
Proof.
  revert s. induction a as [|c a IH]; intros s; simpl; [by eexists|].
  destruct s as [|c' s]; [done|].
  destruct (Parse.ci_eqb c c'); [apply IH|done].
Qed.

(** The lazy group before a literal tail captures everything up to the
    tail. *)
Lemma lazy_group_exact name named b cap :
  cap ≠ [] →
  ∀ acc,
    Parse.lazy_group
      (λ cap' rest,
         Parse.match_tokens (Parse.Lit <$> b) (<[name := str cap']> named) rest)
      acc (cap ++ b)
    = Some (<[name := str (rev acc ++ cap)]> named).
Proof.
  induction cap as [|c cap IH]; intros Hne acc; [done|].
  change ((c :: cap) ++ b) with (c :: (cap ++ b)). cbn [Parse.lazy_group].
  destruct cap as [|c' cap].
  - simpl app. rewrite match_lits_refl. done.
  - destruct (Parse.match_tokens _ _ ((c' :: cap) ++ b)) as [r|] eqn:Hm.
    + apply match_lits_length in Hm. rewrite length_app in Hm.
      simpl in Hm. lia.
    + rewrite IH by done. simpl. by rewrite <- app_assoc.
Qed.

(** What [match_file] computes for a template with literal text around
    the one placeholder [{name}]. *)
Lemma match_file_template P S fn :
  literal P → literal S → marker_free (P +:+ "{name}" +:+ S) →
  match_file (P +:+ "{name}" +:+ S) fn
  = match Parse.match_tokens
            ((Parse.Lit <$> rev (chars S))
             ++ Parse.Named "eman" :: (Parse.Lit <$> rev (chars P)))
            ∅ (rev (chars fn)) with
    | Some named =>
        match named !! "eman" with
        | Some v => Ok (true, Some (str_rev v))
        | None => Raise (KeyError "eman")
        end
    | None => Ok (false, None)
    end.
Proof.
  intros [HP1 HP2] [HS1 HS2] Hfree.
  unfold match_file, match_file_with.
  rewrite swap_braces_spec.
  2: { unfold str_rev. rewrite chars_str. exact Hfree. }
  unfold str_rev. rewrite chars_str, !chars_app, !rev_app_distr.
  rewrite !map_app.
  rewrite (map_swap_literal (rev (chars S))) by by apply not_elem_of_rev.
  rewrite (map_swap_literal (rev (chars P))) by by apply not_elem_of_rev.
  change (map swap_brace (rev (chars "{name}"))) with (chars "{eman}").
  unfold Parse.parse. rewrite chars_str, <- app_assoc.
  rewrite split_go_literal by by apply not_elem_of_rev.
  rewrite split_go_field.
  pose proof (split_go_literal (rev (chars P)) []) as Hsplit.
  rewrite app_nil_r in Hsplit. rewrite Hsplit by by apply not_elem_of_rev.
  cbn [Parse.split_go fmap option_fmap option_map mbind result_bind].
  rewrite app_nil_r, compile_literal.
  change (Parse.compile [] (Parse.PField (chars "eman") :: ?ps))
    with (Parse.Named "eman" :: Parse.compile ["eman"] ps).
  pose proof (compile_literal ["eman"] (rev (chars P)) []) as Hcomp.
  rewrite app_nil_r in Hcomp. rewrite Hcomp.
  cbn [Parse.compile]. rewrite app_nil_r, chars_str. done.
Qed.

(** C5 as the code has it.  For a template of literal text (no brace, no
    marker) around the placeholder [{name}] and an identity that is not
    empty, the path built from the template and the identity matches the
    template and gives the identity back. *)
Theorem template_round_trip P S I :
  literal P → literal S → marker_free (P +:+ "{name}" +:+ S) →
  I ≠ "" →
  match_file (P +:+ "{name}" +:+ S) (P +:+ I +:+ S) = Ok (true, Some I).
Proof.
  intros HP HS Hfree HI. rewrite match_file_template by done.
  rewrite !chars_app, !rev_app_distr, <- app_assoc, match_lits_app.
  cbn [Parse.match_tokens].
  rewrite (lazy_group_exact "eman" ∅ (rev (chars P)) (rev (chars I))).
  - rewrite lookup_insert_eq. simpl app.
    by rewrite str_rev_str, rev_involutive, str_chars.
  - intros Hnil. apply HI. rewrite <- (str_chars I).
    apply (f_equal (@rev ascii)) in Hnil.
    rewrite rev_involutive in Hnil. by rewrite Hnil.
Qed.

Lemma match_lits_inv a ts named s r :
  Parse.match_tokens ((Parse.Lit <$> a) ++ ts) named s = Some r →
  ∃ s1 s2,
    s = s1 ++ s2 ∧ length s1 = length a
    ∧ Parse.match_tokens ts named s2 = Some r.
Proof.
  revert s. induction a as [|c a IH]; intros s; simpl.
  { intros Hm. by exists [], s. }
  destruct s as [|c' s]; [done|].
  destruct (Parse.ci_eqb c c'); [|done].
  intros (s1 & s2 & -> & Hlen & Hm)%IH.
  exists (c' :: s1), s2. simpl. by rewrite Hlen.
Qed.

Lemma match_lits_named b named s r :
  Parse.match_tokens (Parse.Lit <$> b) named s = Some r → r = named.
Proof.
  revert s. induction b as [|c b IH]; intros [|c' s]; simpl; try done.
  - by intros [= <-].
  - destruct (Parse.ci_eqb c c'); [apply IH|done].
Qed.

Lemma lazy_group_inv {A} (k : list ascii → list ascii → option A) s :
  ∀ acc r,
    Parse.lazy_group k acc s = Some r →
    ∃ cap rest, s = cap ++ rest ∧ cap ≠ [] ∧ k (rev acc ++ cap) rest = Some r.
Proof.
  induction s as [|c s IH]; intros acc r; simpl; [done|].
  destruct (k (rev acc ++ [c]) s) as [r'|] eqn:Hk.
  - intros [= <-]. by exists [c], s.
  - intros (cap & rest & -> & _ & Hr)%IH. exists (c :: cap), rest.
    split; [done|]. split; [done|].
    simpl in Hr. by rewrite <- app_assoc in Hr.
Qed.

(** What a [{name}] template gives: no match, or the part of the path
    between a prefix and a suffix as long as the template's. *)
Lemma match_file_template_cases P S fn :
  literal P → literal S → marker_free (P +:+ "{name}" +:+ S) →
  match_file (P +:+ "{name}" +:+ S) fn = Ok (false, None)
  ∨ ∃ P' I S',
      fn = P' +:+ I +:+ S'
      ∧ String.length P' = String.length P
      ∧ String.length S' = String.length S
      ∧ I ≠ ""
      ∧ match_file (P +:+ "{name}" +:+ S) fn = Ok (true, Some I).
Proof.
  intros HP HS Hfree. rewrite match_file_template by done.
  destruct (Parse.match_tokens _ _ _) as [named|] eqn:Hm; [|by left].
  right.
  apply match_lits_inv in Hm as (s1 & s2 & Hfn & Hs1 & Hm).
  cbn [Parse.match_tokens] in Hm.
  apply lazy_group_inv in Hm as (cap & rest & -> & Hcap & Hm).
  simpl in Hm. pose proof (match_lits_length _ _ _ _ Hm) as Hrest.
  apply match_lits_named in Hm as ->.
  exists (str (rev rest)), (str (rev cap)), (str (rev s1)).
  assert (∀ l, String.length (str l) = length l) as Hlen.
  { intros l. induction l as [|c l IH]; simpl; [done|]. by rewrite IH. }
  assert (∀ t, length (chars t) = String.length t) as Hlen'.
  { intros t. by rewrite <- (Hlen (chars t)), str_chars. }
  split_and!.
  - rewrite <- (str_chars fn), <- (rev_involutive (chars fn)), Hfn.
    rewrite !rev_app_distr, <- app_assoc.
    rewrite <- (chars_str (rev rest ++ rev cap ++ rev s1)) at 1.
    rewrite str_chars. rewrite <- (str_chars (_ +:+ _ +:+ _)).
    by rewrite !chars_app, !chars_str.
  - by rewrite Hlen, length_rev, Hrest, length_rev, Hlen'.
  - by rewrite Hlen, length_rev, Hs1, length_rev, Hlen'.
  - intros Hnil. apply Hcap.
    apply (f_equal chars) in Hnil. rewrite chars_str in Hnil.
    apply (f_equal (@rev ascii)) in Hnil.
    by rewrite rev_involutive in Hnil.
  - rewrite lookup_insert_eq. by rewrite str_rev_str.
Qed.

(** C6 as the code has it.  A result of the matcher with the flag
    [False] carries [None], not a string, and a result with the flag
    [True] carries a string.  For a template of literal text around the
    placeholder [{name}] the matcher does not raise: it returns
    [(False, None)], or the non-empty part of the path between a prefix
    and a suffix as long as those of the template; and [(False, None)] is
    the result for every path that does not end with the literal suffix of
    the template, letter case ignored. *)
Theorem no_match_returns_false_none :
  (∀ (parse : string → string → result (option (gmap string string)))
     (fnp fn : string) b r,
     match_file_with parse fnp fn = Ok (b, r) → b = false ↔ r = None)
  ∧ (∀ P S fn,
       literal P → literal S → marker_free (P +:+ "{name}" +:+ S) →
       (match_file (P +:+ "{name}" +:+ S) fn = Ok (false, None)
        ∨ ∃ P' I S',
            fn = P' +:+ I +:+ S'
            ∧ String.length P' = String.length P
            ∧ String.length S' = String.length S
            ∧ I ≠ ""
            ∧ match_file (P +:+ "{name}" +:+ S) fn = Ok (true, Some I))
       ∧ (ci_ends_with S fn = false →
          match_file (P +:+ "{name}" +:+ S) fn = Ok (false, None))).
Proof.
  split.
  - intros parse fnp fn b r. unfold match_file_with.
    destruct (parse _ _) as [[named|]|ex]; simpl; [|by intros [= <- <-]|done].
    destruct (named !! "eman"); [|done]. by intros [= <- <-].
  - intros P S fn HP HS Hfree. split.
    + by apply match_file_template_cases.
    + intros Hends. rewrite match_file_template by done.
      destruct (Parse.match_tokens _ _ _) as [named|] eqn:Hm; [|done].
      apply match_lits_strip in Hm. unfold ci_ends_with in Hends.
      by rewrite bool_decide_eq_true_2 in Hends.
Qed.

(** ** Commands on an unknown tag *)

(** C10.  Each command that takes a group tag raises [KeyError] for a tag
    that is not activated, and leaves the manager and the saved
    configurations as they were. *)
Theorem unknown_tag_raises_KeyError abspath isdigit int parse e w tag
    fnp' ending' builtin_func' remove_all_path remove_all_patterns
    include exclude paths' patterns' indices index p width duration inspect :
  activated_groups (cfg (self w)) !! tag = None →
  config tag fnp' ending' builtin_func' remove_all_path remove_all_patterns
    include exclude w = (Raise (KeyError tag), w)
  ∧ add_paths abspath tag paths' w = (Raise (KeyError tag), w)
  ∧ del_paths abspath tag paths' w = (Raise (KeyError tag), w)
  ∧ add_patterns tag patterns' w = (Raise (KeyError tag), w)
  ∧ del_patterns isdigit int tag patterns' w = (Raise (KeyError tag), w)
  ∧ arrange tag indices w = (Raise (KeyError tag), w)
  ∧ edit_patterns isdigit int tag index p w = (Raise (KeyError tag), w)
  ∧ group_panel_view_with parse e (self w) tag width duration inspect
    = Raise (KeyError tag).
Proof.
  intros Htag.
  unfold config, add_paths, del_paths, add_patterns, del_patterns, arrange,
    edit_patterns, group_panel_view_with, __getitem__.
  rewrite Htag. repeat split.
Qed.

(** ** Watched paths *)

(** A watched path that is a regular file contributes no candidate. *)
Lemma file_root_yields_nothing e item :
  (∀ path, path ∈ paths item → os_tree e path = Some File) →
  discovered e item = [].
Proof.
  unfold discovered. induction (paths item) as [|path l IH]; intros Hall.
  - done.
  - cbn [mbind list_bind]. unfold os_walk at 1.
    rewrite (Hall path) by by left. simpl.
    apply IH. intros p Hp. apply Hall. by right.
Qed.

(** ** A watched directory, run through the scan *)

Example demo_status :
  group_panel_view demo_os (demo_manager demo_group) "g" (Some 80) None None
  = Ok ([0; 1], [[demo_run2]; [demo_run1]]).
Proof. vm_compute. reflexivity. Qed.

Example demo_status_within_500s :
  group_panel_view demo_os (demo_manager demo_group) "g" (Some 80)
    (Some (inject_Z 500)) None
  = Ok ([1], [[demo_run1]]).
Proof. vm_compute. reflexivity. Qed.

Example demo_probe_opens_newest_only :
  opened (probe demo_os (effective_patterns demo_group)
            ["/logs/run1.log"; "/logs/run1.txt"])
  = ["/logs/run1.log"].
Proof. vm_compute. reflexivity. Qed.

Example demo_silent_identity :
  found (probe demo_os (effective_patterns demo_group) ["/logs/run2.log"]) = ∅.
Proof. vm_compute. reflexivity. Qed.

(** C1, at an input where the code departs from it.  The ending [done]
    is also a user pattern; the newest file of [run1] contains it, and the
    record of [run1] is in the bucket of flag 0 (ongoing). *)
Theorem repeated_ending_is_reported_ongoing :
  file_hit demo_os "done" "/logs/run1.log" = Some (Text "done")
  ∧ found (probe demo_os
            (effective_patterns (set_patterns ["done"] demo_group))
            ["/logs/run1.log"; "/logs/run1.txt"]) !! "done"
    = Some (VStr "done")
  ∧ group_panel_view demo_os
      (demo_manager (set_patterns ["done"] demo_group)) "g" (Some 80)
      None None
    = Ok ([0],
          [[{| e_name := "/logs/run1"; e_ago := "1 mins 40 secs ";
               e_lines := [" done" +:+ ESC +:+ "[0m"] |};
            demo_run2]]).
Proof. repeat split; vm_compute; reflexivity. Qed.

(** C7, at an input where the code departs from it.  The watched path is
    the regular file [/logs/run1.log], whose name matches the template;
    [os.walk] yields nothing for it and the scan reports nothing. *)
Theorem bare_file_path_is_not_scanned :
  os_tree demo_os "/logs/run1.log" = Some File
  ∧ match_file (fnp demo_group) "/logs/run1.log"
    = Ok (true, Some "/logs/run1")
  ∧ discovered demo_os (set_paths ["/logs/run1.log"] demo_group) = []
  ∧ group_panel_view demo_os
      (demo_manager (set_paths ["/logs/run1.log"] demo_group)) "g"
      (Some 80) None None
    = Ok ([], []).
Proof. repeat split; vm_compute; reflexivity. Qed.

(** C9 as the specification states it fails: with the newest file of
    [run1] unreadable the scan of the group returns no view. *)
Lemma unreadable_file_is_not_skipped :
  group_panel_view demo_locked (demo_manager demo_group) "g" (Some 80)
    None None
  = Raise (OSError "/logs/run1.log").
Proof. vm_compute. reflexivity. Qed.

Ltac decide_by_computation :=
  refine (bool_decide_unpack _ _); vm_compute; exact I.

(** C5 as the specification states it fails: the literal suffix [.#*|!]
    has no brace and shares no character with the identity [run], yet the
    path built from them does not match the template, because reversed the
    suffix reads as the marker of the brace swap. *)
Lemma round_trip_fails_for_marker_text : ¬ round_trip_claim.
Proof.
  intros Hclaim. specialize (Hclaim "" ".#*|!" "run").
  assert (match_file ("" +:+ "{name}" +:+ ".#*|!") ("" +:+ "run" +:+ ".#*|!")
          = Ok (false, None)) as Hrun by (vm_compute; reflexivity).
  rewrite Hclaim in Hrun; [done| | |].
  - split; decide_by_computation.
  - split; decide_by_computation.
  - intros c Hc. revert c Hc. apply Forall_forall. decide_by_computation.
Qed.

(** The empty identity does not come back either: an untyped field of
    [parse] takes at least one character. *)
Example round_trip_fails_for_empty_identity :
  match_file ("" +:+ "{name}" +:+ ".log") ("" +:+ "" +:+ ".log")
  = Ok (false, None).
Proof. vm_compute. reflexivity. Qed.

(** C6 as the specification states it fails: the identity of a failed
    match is [None], not the empty string; a path whose suffix is not the
    literal suffix of the template but differs from it in letter case only
    does match; and the matcher raises for a template without a field
    called [name]. *)
Lemma no_match_identity_is_not_empty_string :
  match_file "{name}.log" "/logs/run1.txt" = Ok (false, None)
  ∧ match_file "{name}.log" "/logs/run1.txt" ≠ Ok (false, Some "")
  ∧ match_file "{name}.log" "/logs/run1.LOG" = Ok (true, Some "/logs/run1")
  ∧ match_file "{id}.log" "/logs/run1.log" = Raise (KeyError "eman").
Proof.
  split_and!; try (vm_compute; reflexivity). vm_compute. discriminate.
Qed.

(** A template without a field called [name] makes the matcher raise on
    the paths that match it. *)
Example template_without_name_raises :
  match_file "{id}.log" "/logs/run1.log" = Raise (KeyError "eman").
Proof. vm_compute. reflexivity. Qed.

(** A pattern with two groups has tuples as matches, and the scan of the
    group ends in [TypeError]. *)
Example tuple_match_raises_TypeError :
  group_panel_view demo_tuples
    (demo_manager (set_patterns ["(loss)=(.*)"] demo_group)) "g" (Some 80)
    None None
  = Raise (TypeError "can only concatenate str (not tuple) to str").
Proof. vm_compute. reflexivity. Qed.

(** The match ignores the case of the letters past the ASCII range too:
    the suffix [.É] of the template matches the suffix [.é] of the
    path. *)
Example latin1_case_is_ignored :
  match_file ("{name}." +:+ String (ascii_of_nat 201) "")
    ("run." +:+ String (ascii_of_nat 233) "")
  = Ok (true, Some "run").
Proof. vm_compute. reflexivity. Qed.

(** ** The theorems at the watched directory *)

Lemma newest_file_last_match_witness :
  found (probe demo_os ["done"; "epoch="; "loss="]
           (["/logs/run2.log"] ++ "/logs/run1.log" :: ["/logs/run1.txt"]))
    !! "loss=" = Some (VStr "loss=0.2").
Proof.
  apply (newest_file_last_match demo_os ["done"; "epoch="; "loss="]
           ["/logs/run2.log"] "/logs/run1.log" ["/logs/run1.txt"] "loss=" 1
           (λ text, Text <$> find_words "loss=" text)
           "epoch=4 loss=0.5 epoch=5 loss=0.2 done").
  - reflexivity.
  - reflexivity.
  - vm_compute. reflexivity.
  - intros f Hf. apply list_elem_of_singleton in Hf. subst f.
    vm_compute. reflexivity.
  - reflexivity.
  - vm_compute. reflexivity.
Defined.

Lemma status_scan_drops_witness :
  ((∀ f t, in_view ([1], [[demo_run1]]) f t → e_name t ≠ "/logs/run2")
   ↔ "/logs/run2" ∈ excluded demo_group
     ∨ ∃ d, Some (inject_Z 500) = Some d
            ∧ (d < inject_Z (idle_seconds demo_os "/logs/run2.log"))%Q
            ∧ "/logs/run2" ∉ included demo_group)
  ∧ ("/logs/run2" ∈ included demo_group → "/logs/run2" ∈ excluded demo_group →
     ∀ f t, in_view ([1], [[demo_run1]]) f t → e_name t ≠ "/logs/run2").
Proof.
  apply (status_scan_drops Parse.parse demo_os (demo_manager demo_group) "g"
           (Some 80) (Some (inject_Z 500)) ([1], [[demo_run1]]) demo_group
           demo_logs "/logs/run2" "/logs/run2.log" []).
  - vm_compute. reflexivity.
  - reflexivity.
  - vm_compute. reflexivity.
  - vm_compute. reflexivity.
Defined.

Lemma demo_hits_are_text files roots now p text l :
  text_hit (demo_env files roots now) p text ≠ Some (Groups l).
Proof.
  unfold text_hit. simpl. rewrite fmap_last.
  by destruct (last (find_words p text)).
Qed.

Lemma silent_identity_has_record_witness :
  (∀ view,
     group_panel_view_with Parse.parse demo_os (demo_manager demo_group) "g"
       (Some 80) None None = Ok view →
     ∀ one fn0 rest,
       item_files demo_os demo_logs one = fn0 :: rest →
       skipped None None (idle_seconds demo_os fn0) one
         (list_to_set (included demo_group))
         (list_to_set (excluded demo_group)) = false →
       ∃ f t,
         in_view view f t ∧ e_name t = one
         ∧ (found (probe demo_os (effective_patterns demo_group)
                     (fn0 :: rest)) = ∅ →
            f = 0 ∧ ((None : option string) = None → e_lines t = [])))
  ∧ ∃ view,
      group_panel_view_with Parse.parse demo_os (demo_manager demo_group) "g"
        (Some 80) None None = Ok view.
Proof.
  destruct (silent_identity_has_record Parse.parse demo_os
              (demo_manager demo_group) "g" (Some 80) None None demo_group
              demo_logs) as [Hrecord Hview].
  - reflexivity.
  - vm_compute. reflexivity.
  - split; [exact Hrecord|]. apply Hview.
    + apply Forall_forall. decide_by_computation.
    + apply Forall_forall. decide_by_computation.
    + intros p text l _. apply demo_hits_are_text.
Defined.

Lemma unreadable_file_aborts_scan_witness :
  raised (probe demo_locked (effective_patterns demo_group)
            ["/logs/run1.log"; "/logs/run1.txt"])
  = Some (OSError "/logs/run1.log")
  ∧ last (opened (probe demo_locked (effective_patterns demo_group)
                    ["/logs/run1.log"; "/logs/run1.txt"]))
    = Some "/logs/run1.log"
  ∧ ∃ ex, group_panel_view_with Parse.parse demo_locked
            (demo_manager demo_group) "g" (Some 80) None None = Raise ex.
Proof.
  apply (unreadable_file_aborts_scan Parse.parse demo_locked
           (demo_manager demo_group) "g" (Some 80) None None demo_group
           demo_logs "/logs/run1" "/logs/run1.log" ["/logs/run1.txt"]
           "/logs/run1.log").
  - reflexivity.
  - vm_compute. reflexivity.
  - vm_compute. reflexivity.
  - vm_compute. reflexivity.
  - decide_by_computation.
  - reflexivity.
Defined.

Lemma template_round_trip_witness :
  match_file ("/logs/" +:+ "{name}" +:+ ".log")
    ("/logs/" +:+ "run1" +:+ ".log")
  = Ok (true, Some "run1").
Proof.
  apply (template_round_trip "/logs/" ".log" "run1").
  - split; decide_by_computation.
  - split; decide_by_computation.
  - vm_compute. reflexivity.
  - discriminate.
Defined.

Lemma no_match_returns_false_none_witness :
  ((false = false ↔ (None : option string) = None)
   ∧ (true = false ↔ Some "/logs/run1" = None))
  ∧ (match_file ("/logs/" +:+ "{name}" +:+ ".log") "/logs/run1.txt"
     = Ok (false, None)
     ∨ ∃ P' I S',
         "/logs/run1.txt" = P' +:+ I +:+ S'
         ∧ String.length P' = String.length "/logs/"
         ∧ String.length S' = String.length ".log"
         ∧ I ≠ ""
         ∧ match_file ("/logs/" +:+ "{name}" +:+ ".log") "/logs/run1.txt"
           = Ok (true, Some I))
  ∧ match_file ("/logs/" +:+ "{name}" +:+ ".log") "/logs/run1.txt"
    = Ok (false, None).
Proof.
  split_and!.
  - apply (proj1 no_match_returns_false_none Parse.parse "{name}.log"
             "/logs/run1.txt" false None).
    vm_compute. reflexivity.
  - apply (proj1 no_match_returns_false_none Parse.parse "{name}.log"
             "/logs/run1.log" true (Some "/logs/run1")).
    vm_compute. reflexivity.
  - apply (proj2 no_match_returns_false_none "/logs/" ".log"
             "/logs/run1.txt").
    + split; decide_by_computation.
    + split; decide_by_computation.
    + vm_compute. reflexivity.
  - apply (proj2 no_match_returns_false_none "/logs/" ".log"
             "/logs/run1.txt").
    + split; decide_by_computation.
    + split; decide_by_computation.
    + vm_compute. reflexivity.
    + vm_compute. reflexivity.
Defined.

Lemma unknown_tag_raises_KeyError_witness :
  config "missing" (Some "{name}/log.txt") None None None None None None
    demo_world = (Raise (KeyError "missing"), demo_world)
  ∧ add_paths id "missing" (One "/logs") demo_world
    = (Raise (KeyError "missing"), demo_world)
  ∧ del_paths id "missing" (One "/logs") demo_world
    = (Raise (KeyError "missing"), demo_world)
  ∧ add_patterns "missing" (Seq ["loss="]) demo_world
    = (Raise (KeyError "missing"), demo_world)
  ∧ del_patterns str_isdigit str_int "missing" (Seq ["loss="]) demo_world
    = (Raise (KeyError "missing"), demo_world)
  ∧ arrange "missing" [1; 0] demo_world
    = (Raise (KeyError "missing"), demo_world)
  ∧ edit_patterns str_isdigit str_int "missing" (IStr "0") "epoch=" demo_world
    = (Raise (KeyError "missing"), demo_world)
  ∧ group_panel_view_with Parse.parse demo_os (self demo_world) "missing"
      (Some 80) None None
    = Raise (KeyError "missing").
Proof.
  apply (unknown_tag_raises_KeyError id str_isdigit str_int Parse.parse demo_os demo_world
           "missing" (Some "{name}/log.txt") None None None None None None
           (One "/logs") (Seq ["loss="]) [1; 0] (IStr "0") "epoch=" (Some 80)
           None None).
  vm_compute. reflexivity.
Defined.

(** ** The commands on one group *)

Lemma commands_update_group abspath isdigit int tag w fnp' ending' builtin_func'
    remove_all_path remove_all_patterns include exclude paths' patterns'
    indices index p :
  updates_group tag w
    (config tag fnp' ending' builtin_func' remove_all_path
       remove_all_patterns include exclude w)
  ∧ updates_group tag w (add_paths abspath tag paths' w)
  ∧ updates_group tag w (del_paths abspath tag paths' w)
  ∧ updates_group tag w (add_patterns tag patterns' w)
  ∧ updates_group tag w (del_patterns isdigit int tag patterns' w)
  ∧ updates_group tag w (arrange tag indices w)
  ∧ updates_group tag w (edit_patterns isdigit int tag index p w).
Proof.
  unfold config, add_paths, del_paths, add_patterns, del_patterns, arrange,
    edit_patterns, __getitem__, updates_group.
  destruct (activated_groups (cfg (self w)) !! tag) as [item|] eqn:Hitem.
  2: { repeat split; left; by eexists. }
  repeat split; try (right; by eexists _, _).
  - destruct (foldM _ _ _) as [[rm_set p_set]|ex]; [right|left];
      by eexists _, _ || by eexists.
  - repeat case_bool_decide; try (left; by eexists).
    destruct (mapM _ _); [right|left]; by eexists _, _ || by eexists.
  - destruct index as [s|n];
      [destruct (isdigit s); [destruct (int s) as [n|ex]|]|];
      try (left; by eexists);
      destruct (_ && _); try (left; by eexists); right; by eexists _, _.
Qed.

Lemma updates_group_saved tag w out :
  updates_group tag w out → out.1 = Ok () → saved out.2.
Proof.
  intros [[ex ->]|(item & item' & _ & ->)]; [done|]. intros _.
  unfold saved. simpl. apply lookup_insert_eq.
Qed.

Lemma updates_group_failed tag w out ex :
  updates_group tag w out → out.1 = Raise ex → out.2 = w.
Proof. by intros [[ex' ->]|(item & item' & _ & ->)]. Qed.

Lemma updates_group_same_but tag w out :
  updates_group tag w out → same_but tag w out.2.
Proof.
  intros [[ex ->]|(item & item' & _ & ->)]; unfold same_but; simpl.
  - repeat split; done.
  - repeat split; try done.
    + intros tag' Hne. by rewrite lookup_insert_ne.
    + intros path Hne. by rewrite lookup_insert_ne.
Qed.

(** X1.  A command that succeeds has written the configuration it leaves
    in memory to the file at [cfg_path]. *)
Theorem successful_command_is_saved abspath isdigit int tag w fnp' ending' builtin_func'
    remove_all_path remove_all_patterns include exclude paths' patterns'
    indices index p tags newtag :
  let ok := λ out : result unit * world, out.1 = Ok () → saved out.2 in
  ok (config tag fnp' ending' builtin_func' remove_all_path
        remove_all_patterns include exclude w)
  ∧ ok (add_paths abspath tag paths' w)
  ∧ ok (del_paths abspath tag paths' w)
  ∧ ok (add_patterns tag patterns' w)
  ∧ ok (del_patterns isdigit int tag patterns' w)
  ∧ ok (arrange tag indices w)
  ∧ ok (edit_patterns isdigit int tag index p w)
  ∧ saved (activate tags w).2
  ∧ saved (deactivate tags w).2
  ∧ ((mv tag newtag w).1 = Ok () → saved (mv tag newtag w).2).
Proof.
  intros ok.
  destruct (commands_update_group abspath isdigit int tag w fnp' ending' builtin_func'
              remove_all_path remove_all_patterns include exclude paths'
              patterns' indices index p)
    as (H1 & H2 & H3 & H4 & H5 & H6 & H7).
  repeat split; try by (unfold ok; eapply updates_group_saved).
  - unfold activate. destruct (foldl _ _ _). apply lookup_insert_eq.
  - unfold deactivate. destruct (foldl _ _ _). apply lookup_insert_eq.
  - unfold mv.
    destruct (activated_groups (cfg (self w)) !! newtag); [done|].
    destruct (activated_groups (cfg (self w)) !! tag); [|done].
    intros _. apply lookup_insert_eq.
Qed.

(** X2.  A command on one group that raises, whatever the exception, and
    a failed [mv], leave the manager and the saved configurations as they
    were. *)
Theorem failed_command_changes_nothing abspath isdigit int tag w fnp' ending'
    builtin_func' remove_all_path remove_all_patterns include exclude paths'
    patterns' indices index p newtag :
  let unchanged := λ out : result unit * world,
                     ∀ ex, out.1 = Raise ex → out.2 = w in
  unchanged (config tag fnp' ending' builtin_func' remove_all_path
               remove_all_patterns include exclude w)
  ∧ unchanged (add_paths abspath tag paths' w)
  ∧ unchanged (del_paths abspath tag paths' w)
  ∧ unchanged (add_patterns tag patterns' w)
  ∧ unchanged (del_patterns isdigit int tag patterns' w)
  ∧ unchanged (arrange tag indices w)
  ∧ unchanged (edit_patterns isdigit int tag index p w)
  ∧ (∀ ex, (mv tag newtag w).1 = Raise ex → (mv tag newtag w).2 = w).
Proof.
  intros unchanged.
  destruct (commands_update_group abspath isdigit int tag w fnp' ending' builtin_func'
              remove_all_path remove_all_patterns include exclude paths'
              patterns' indices index p)
    as (H1 & H2 & H3 & H4 & H5 & H6 & H7).
  repeat split; try by (intros ex; eapply updates_group_failed).
  intros ex. unfold mv.
  destruct (activated_groups (cfg (self w)) !! newtag); [done|].
  by destruct (activated_groups (cfg (self w)) !! tag).
Qed.

(** X3.  A command on the group under [tag] changes no other group, no
    deactivated group, neither the path nor the width nor the version of
    the manager, and no file but the one at [cfg_path]. *)
Theorem command_touches_one_group abspath isdigit int tag w fnp' ending' builtin_func'
    remove_all_path remove_all_patterns include exclude paths' patterns'
    indices index p :
  same_but tag w
    (config tag fnp' ending' builtin_func' remove_all_path
       remove_all_patterns include exclude w).2
  ∧ same_but tag w (add_paths abspath tag paths' w).2
  ∧ same_but tag w (del_paths abspath tag paths' w).2
  ∧ same_but tag w (add_patterns tag patterns' w).2
  ∧ same_but tag w (del_patterns isdigit int tag patterns' w).2
  ∧ same_but tag w (arrange tag indices w).2
  ∧ same_but tag w (edit_patterns isdigit int tag index p w).2.
Proof.
  destruct (commands_update_group abspath isdigit int tag w fnp' ending' builtin_func'
              remove_all_path remove_all_patterns include exclude paths'
              patterns' indices index p)
    as (H1 & H2 & H3 & H4 & H5 & H6 & H7).
  split_and!; by apply updates_group_same_but.
Qed.

Lemma group_of_stored tag item w :
  group_of (save (store_item tag item w)) tag = Some item.
Proof. unfold group_of. simpl. apply lookup_insert_eq. Qed.

Lemma set_paths_same item : set_paths (paths item) item = item.
Proof. by destruct item. Qed.

Lemma set_patterns_same item : set_patterns (patterns item) item = item.
Proof. by destruct item. Qed.

Lemma store_item_twice tag item1 item2 w :
  save (store_item tag item2 (save (store_item tag item1 w)))
  = save (store_item tag item2 w).
Proof.
  unfold save, store_item. simpl. f_equal.
  - do 2 f_equal. by rewrite insert_insert_eq.
  - rewrite insert_insert_eq. do 2 f_equal. by rewrite insert_insert_eq.
Qed.

Lemma filter_all {A} (P : A → Prop) `{∀ x, Decision (P x)} (l : list A) :
  (∀ x, x ∈ l → P x) → filter P l = l.
Proof.
  induction l as [|x l IH]; intros Hall; [done|].
  rewrite filter_cons_True by (apply Hall; by left).
  f_equal. apply IH. intros y Hy. apply Hall. by right.
Qed.

Lemma filter_none {A} (P : A → Prop) `{∀ x, Decision (P x)} (l : list A) :
  (∀ x, x ∈ l → ¬ P x) → filter P l = [].
Proof.
  induction l as [|x l IH]; intros Hall; [done|].
  rewrite filter_cons_False by (apply Hall; by left).
  apply IH. intros y Hy. apply Hall. by right.
Qed.

(** X4.  Deleting the paths just added gives the paths back, when
    [abspath] maps its results to themselves and none of the paths before
    has the absolute path of an added one. *)
Theorem add_then_del_paths abspath tag w item ps :
  (∀ x, abspath (abspath x) = abspath x) →
  group_of w tag = Some item →
  (∀ old, old ∈ paths item →
          abspath old ∉ abspath <$> _ensure_sequential ps) →
  ∃ w1 w2,
    add_paths abspath tag ps w = (Ok (), w1)
    ∧ del_paths abspath tag ps w1 = (Ok (), w2)
    ∧ group_of w2 tag = Some item.
Proof.
  intros Hidem Hitem Hold. unfold group_of in Hitem.
  eexists _, _. unfold add_paths at 1, __getitem__. rewrite Hitem.
  split; [reflexivity|].
  unfold del_paths, __getitem__.
  change (activated_groups (cfg (self (save (store_item tag ?i w)))))
    with (<[tag := i]> (activated_groups (cfg (self w)))).
  rewrite lookup_insert_eq. split; [reflexivity|].
  rewrite store_item_twice, group_of_stored. f_equal.
  simpl paths. rewrite filter_app.
  set (new := abspath <$> _ensure_sequential ps).
  rewrite (filter_all _ (paths item)), (filter_none _ new).
  - rewrite app_nil_r. by destruct item.
  - intros x Hx. rewrite elem_of_list_to_set. intros Hno. apply Hno.
    unfold new in *. apply list_elem_of_fmap in Hx as (y & -> & Hy).
    rewrite Hidem. by apply list_elem_of_fmap_2.
  - intros x Hx. rewrite elem_of_list_to_set. by apply Hold.
Qed.

Lemma add_then_del_paths_witness :
  ∃ w1 w2,
    add_paths id "g" (One "/data") demo_world = (Ok (), w1)
    ∧ del_paths id "g" (One "/data") w1 = (Ok (), w2)
    ∧ group_of w2 "g" = Some demo_group.
Proof.
  apply (add_then_del_paths id "g" demo_world demo_group (One "/data")).
  - reflexivity.
  - reflexivity.
  - intros old Hold. apply list_elem_of_singleton in Hold. subst old.
    decide_by_computation.
Defined.

(** ** [arrange] *)

Lemma size_list_to_set_cons (x : Z) (l : list Z) :
  size (list_to_set (x :: l) : gset Z)
  = if decide (x ∈ l) then size (list_to_set l : gset Z)
    else S (size (list_to_set l : gset Z)).
Proof.
  simpl. destruct (decide (x ∈ l)) as [Hx|Hx].
  - f_equal. apply subseteq_union_1_L.
    apply singleton_subseteq_l. by apply elem_of_list_to_set.
  - rewrite size_union, size_singleton; [done|].
    apply disjoint_singleton_l. by rewrite elem_of_list_to_set.
Qed.

Lemma size_list_to_set_le (l : list Z) :
  (size (list_to_set l : gset Z) ≤ length l)%nat.
Proof.
  induction l as [|x l IH]; [by rewrite list_to_set_nil, size_empty|].
  rewrite size_list_to_set_cons. destruct (decide _); simpl; lia.
Qed.

Lemma size_list_to_set_NoDup (l : list Z) :
  size (list_to_set l : gset Z) = length l ↔ NoDup l.
Proof.
  split; [|apply size_list_to_set].
  induction l as [|x l IH]; [constructor|].
  rewrite size_list_to_set_cons. pose proof (size_list_to_set_le l).
  destruct (decide _); simpl; intros Hsize; [lia|].
  constructor; [done|]. apply IH. lia.
Qed.

(** The two checks of [arrange] hold exactly for the indices
    [0 .. n-1] in some order. *)
Lemma arrange_guard (indices : list Z) :
  (size (list_to_set indices : gset Z) = length indices
   ∧ Forall (λ i, Z.of_nat i ∈ (list_to_set indices : gset Z))
       (seq 0 (length indices)))
  ↔ indices ≡ₚ seqZ 0 (Z.of_nat (length indices)).
Proof.
  split.
  - intros [Hsize Hall]. apply size_list_to_set_NoDup in Hsize.
    symmetry. apply submseteq_length_Permutation.
    + apply NoDup_submseteq; [apply NoDup_seqZ|].
      intros x Hx%elem_of_seqZ.
      rewrite Forall_forall in Hall.
      specialize (Hall (Z.to_nat x)). rewrite Z2Nat.id in Hall by lia.
      assert (x ∈ (list_to_set indices : gset Z)) as Hin
        by (apply Hall, elem_of_seq; lia).
      by apply elem_of_list_to_set in Hin.
    + rewrite length_seqZ. lia.
  - intros Hperm. split.
    + apply size_list_to_set_NoDup. rewrite Hperm. apply NoDup_seqZ.
    + apply Forall_forall. intros i Hi%elem_of_seq.
      apply elem_of_list_to_set. rewrite Hperm. apply elem_of_seqZ. lia.
Qed.

Lemma mapM_Ok_each {A B} (f : A → result B) l r :
  mapM f l = Ok r → ∀ x, x ∈ l → ∃ y, f x = Ok y.
Proof.
  revert r. induction l as [|a l IH]; intros r; simpl.
  { intros _ x Hx. by apply elem_of_nil in Hx. }
  destruct (f a) as [y|] eqn:Hfa; simpl; [|done].
  destruct (mapM f l) as [ys|] eqn:Hl; simpl; [|done].
  intros _ x [->|Hx]%elem_of_cons; [by exists y|by eapply IH].
Qed.

Lemma py_index_Ok {A} (l : list A) i x :
  py_index l i = Ok x →
  - Z.of_nat (length l) ≤ i < Z.of_nat (length l).
Proof.
  unfold py_index. destruct (i <? 0) eqn:Hneg;
    destruct (_ && _) eqn:Hin; try done; intros _;
    apply andb_true_iff in Hin as [?%Z.leb_le ?%Z.ltb_lt];
    [apply Z.ltb_lt in Hneg|apply Z.ltb_ge in Hneg]; lia.
Qed.

Lemma py_index_in_range (ps : list string) i :
  0 ≤ i < Z.of_nat (length ps) →
  py_index ps i = Ok (default "" (ps !! Z.to_nat i)).
Proof.
  intros Hi. unfold py_index.
  replace (i <? 0) with false by (symmetry; apply Z.ltb_ge; lia).
  replace ((0 <=? i) && (i <? Z.of_nat (length ps))) with true
    by (symmetry; apply andb_true_iff; split;
        [apply Z.leb_le|apply Z.ltb_lt]; lia).
  destruct (lookup_lt_is_Some_2 ps (Z.to_nat i)) as [x Hx]; [lia|].
  by rewrite Hx.
Qed.

Lemma mapM_py_index (ps : list string) (l : list Z) :
  (∀ i, i ∈ l → 0 ≤ i < Z.of_nat (length ps)) →
  mapM (py_index ps) l = Ok ((λ i, default "" (ps !! Z.to_nat i)) <$> l).
Proof.
  induction l as [|i l IH]; intros Hall; [done|].
  change (mapM (py_index ps) (i :: l))
    with (y ← py_index ps i; ys ← mapM (py_index ps) l; Ok (y :: ys)).
  rewrite py_index_in_range by (apply Hall; by left).
  rewrite IH by (intros j Hj; apply Hall; by right).
  done.
Qed.

Lemma lookups_of_range (ps : list string) n :
  (n ≤ length ps)%nat →
  (λ i, default "" (ps !! Z.to_nat i)) <$> seqZ 0 (Z.of_nat n) = take n ps.
Proof.
  intros Hn. apply list_eq. intros k. rewrite list_lookup_fmap.
  destruct (decide (k < n)%nat) as [Hk|Hk].
  - rewrite lookup_seqZ_lt, lookup_take_lt by lia. simpl.
    rewrite Z.add_0_l, Nat2Z.id.
    destruct (lookup_lt_is_Some_2 ps k) as [x Hx]; [lia|]. by rewrite Hx.
  - rewrite lookup_seqZ_ge, lookup_take_ge by lia. done.
Qed.

Lemma arrange_Ok_inv tag w item indices :
  group_of w tag = Some item →
  (arrange tag indices w).1 = Ok () →
  indices ≡ₚ seqZ 0 (Z.of_nat (length indices))
  ∧ (length indices ≤ length (patterns item))%nat.
Proof.
  intros Hitem. unfold group_of in Hitem.
  unfold arrange, __getitem__. rewrite Hitem.
  pose proof (arrange_guard indices) as Hguard.
  case_bool_decide as Hsize; [done|].
  case_bool_decide as Hall; [|done].
  assert (indices ≡ₚ seqZ 0 (Z.of_nat (length indices))) as Hperm.
  { apply Hguard. by split. }
  destruct (mapM (py_index (patterns item)) indices) as [r|ex] eqn:Hmap;
    [|done].
  intros _. split; [done|].
  destruct indices as [|i0 indices']; [simpl; lia|].
  set (n := length (i0 :: indices')) in *.
  assert (Z.of_nat n - 1 ∈ i0 :: indices') as Hlast.
  { rewrite Hperm. apply elem_of_seqZ. unfold n. simpl. lia. }
  destruct (mapM_Ok_each _ _ _ Hmap _ Hlast) as [x Hx].
  apply py_index_Ok in Hx. lia.
Qed.

Lemma arrange_run tag w item indices :
  group_of w tag = Some item →
  indices ≡ₚ seqZ 0 (Z.of_nat (length indices)) →
  (length indices ≤ length (patterns item))%nat →
  arrange tag indices w
  = (Ok (),
     save (store_item tag
             (set_patterns
                ((λ i, default "" (patterns item !! Z.to_nat i)) <$> indices)
                item) w)).
Proof.
  intros Hitem Hperm Hlen. unfold group_of in Hitem.
  unfold arrange, __getitem__. rewrite Hitem.
  apply (arrange_guard indices) in Hperm as Hguard.
  destruct Hguard as [Hsize Hall].
  rewrite bool_decide_eq_false_2 by (intros Hne; by apply Hne).
  rewrite bool_decide_eq_true_2 by done.
  rewrite mapM_py_index; [done|].
  intros i Hi. rewrite Hperm in Hi. apply elem_of_seqZ in Hi. lia.
Qed.

(** X5.  [arrange] succeeds exactly when the indices are [0 .. n-1] in
    some order, without repetition, and there are at least [n] patterns. *)
Theorem arrange_succeeds_iff tag w item indices :
  group_of w tag = Some item →
  (arrange tag indices w).1 = Ok ()
  ↔ indices ≡ₚ seqZ 0 (Z.of_nat (length indices))
    ∧ (length indices ≤ length (patterns item))%nat.
Proof.
  intros Hitem. split; [by apply arrange_Ok_inv|].
  intros [Hperm Hlen]. by rewrite (arrange_run tag w item).
Qed.

Lemma arrange_succeeds_iff_witness :
  (arrange "g" [1; 0] demo_world).1 = Ok ()
  ↔ [1; 0] ≡ₚ seqZ 0 (Z.of_nat (length [1; 0]))
    ∧ (length [1; 0] ≤ length (patterns demo_group))%nat.
Proof.
  apply (arrange_succeeds_iff "g" demo_world demo_group [1; 0]).
  reflexivity.
Defined.

(** X6.  After [arrange] the pattern at position [k] is the old pattern
    at position [indices[k]]: the new list is a rearrangement of the first
    [n] patterns, and the patterns from position [n] on are dropped. *)
Theorem arrange_permutes tag w item indices w' :
  group_of w tag = Some item →
  arrange tag indices w = (Ok (), w') →
  ∃ item',
    group_of w' tag = Some item'
    ∧ item' = set_patterns (patterns item') item
    ∧ patterns item'
      = (λ i, default "" (patterns item !! Z.to_nat i)) <$> indices
    ∧ patterns item' ≡ₚ take (length indices) (patterns item).
Proof.
  intros Hitem Harr.
  assert ((arrange tag indices w).1 = Ok ()) as Hok by by rewrite Harr.
  apply (arrange_Ok_inv tag w item indices Hitem) in Hok as [Hperm Hlen].
  rewrite (arrange_run tag w item) in Harr by done.
  injection Harr as <-. eexists. rewrite group_of_stored.
  split; [done|]. split; [done|]. split; [done|].
  simpl patterns. rewrite Hperm at 1. by rewrite lookups_of_range.
Qed.

Lemma arrange_permutes_witness :
  ∃ item',
    group_of (save (store_item "g"
                      (set_patterns ["loss="; "epoch="] demo_group)
                      demo_world)) "g" = Some item'
    ∧ item' = set_patterns (patterns item') demo_group
    ∧ patterns item'
      = (λ i, default "" (patterns demo_group !! Z.to_nat i)) <$> [1; 0]
    ∧ patterns item' ≡ₚ take (length [1; 0]) (patterns demo_group).
Proof.
  apply (arrange_permutes "g" demo_world demo_group [1; 0]).
  - reflexivity.
  - vm_compute. reflexivity.
Defined.

(** ** [edit_patterns] and [del_patterns] *)

(** X7.  [edit_patterns] succeeds exactly when the index, an integer or a
    string that [isdigit] accepts and [int] reads, lies in [0 .. len-1]; it
    then puts the pattern at that position and changes neither the other
    positions nor the number of patterns. *)
Theorem edit_patterns_replaces_one isdigit int tag w item index p :
  group_of w tag = Some item →
  ((edit_patterns isdigit int tag index p w).1 = Ok ()
   ↔ ∃ i, index_value isdigit int index = Some i
          ∧ 0 ≤ i < Z.of_nat (length (patterns item)))
  ∧ ∀ w', edit_patterns isdigit int tag index p w = (Ok (), w') →
      ∃ i item',
        index_value isdigit int index = Some (Z.of_nat i)
        ∧ group_of w' tag = Some item'
        ∧ item' = set_patterns (patterns item') item
        ∧ length (patterns item') = length (patterns item)
        ∧ patterns item' !! i = Some p
        ∧ ∀ j, j ≠ i → patterns item' !! j = patterns item !! j.
Proof.
  intros Hitem. unfold group_of in Hitem.
  unfold edit_patterns, __getitem__, index_value. rewrite Hitem.
  assert (∀ i, (0 <=? i) && (i <? Z.of_nat (length (patterns item))) = true
               ↔ 0 ≤ i < Z.of_nat (length (patterns item))) as Hrange.
  { intros i. rewrite andb_true_iff, Z.leb_le, Z.ltb_lt. done. }
  assert (∀ i w',
    (if (0 <=? i) && (i <? Z.of_nat (length (patterns item)))
     then (Ok (), save (store_item tag
             (set_patterns (<[Z.to_nat i := p]> (patterns item)) item) w))
     else (Raise (IndexError (str_of_int i)), w)) = (Ok (), w') →
    ∃ (k : nat) item',
      Some i = Some (Z.of_nat k)
      ∧ group_of w' tag = Some item'
      ∧ item' = set_patterns (patterns item') item
      ∧ length (patterns item') = length (patterns item)
      ∧ patterns item' !! k = Some p
      ∧ ∀ j, j ≠ k → patterns item' !! j = patterns item !! j) as Heffect.
  { intros i w'. destruct (_ && _) eqn:Hin; [|done].
    apply Hrange in Hin. intros [= <-].
    exists (Z.to_nat i). eexists. rewrite group_of_stored.
    split; [f_equal; lia|]. split; [done|]. split; [done|]. simpl.
    split; [apply length_insert|].
    split; [apply list_lookup_insert_eq; lia|].
    intros j Hj. by apply list_lookup_insert_ne. }
  destruct index as [s|n];
    [destruct (isdigit s); [destruct (int s) as [n|ex]|]|]; simpl.
  - split; [|apply Heffect].
    destruct (_ && _) eqn:Hin; simpl.
    + split; [|done]. intros _. eexists. split; [done|]. by apply Hrange.
    + split; [done|]. intros (i & [= <-] & Hi%Hrange). congruence.
  - split; [|done]. split; [done|]. by intros (i & ? & _).
  - split; [|done]. split; [done|]. by intros (i & ? & _).
  - split; [|apply Heffect].
    destruct (_ && _) eqn:Hin; simpl.
    + split; [|done]. intros _. eexists. split; [done|]. by apply Hrange.
    + split; [done|]. intros (i & [= <-] & Hi%Hrange). congruence.
Qed.

Lemma edit_patterns_replaces_one_witness :
  ((edit_patterns str_isdigit str_int "g" (IStr "1") "eta=" demo_world).1
   = Ok ()
   ↔ ∃ i, index_value str_isdigit str_int (IStr "1") = Some i
          ∧ 0 ≤ i < Z.of_nat (length (patterns demo_group)))
  ∧ ∀ w',
      edit_patterns str_isdigit str_int "g" (IStr "1") "eta=" demo_world
      = (Ok (), w') →
      ∃ i item',
        index_value str_isdigit str_int (IStr "1") = Some (Z.of_nat i)
        ∧ group_of w' "g" = Some item'
        ∧ item' = set_patterns (patterns item') demo_group
        ∧ length (patterns item') = length (patterns demo_group)
        ∧ patterns item' !! i = Some "eta="
        ∧ ∀ j, j ≠ i → patterns item' !! j = patterns demo_group !! j.
Proof.
  apply (edit_patterns_replaces_one str_isdigit str_int "g" demo_world
           demo_group (IStr "1") "eta=").
  reflexivity.
Defined.

(** A string [isdigit] accepts and [int] does not read is no index:
    [edit_patterns] ends in the [ValueError] of [int]. *)
Example edit_patterns_superscript :
  ∃ msg,
    edit_patterns str_isdigit str_int "g" (IStr superscript_two) "eta="
      demo_world
    = (Raise (ValueError msg), demo_world).
Proof. eexists. vm_compute. reflexivity. Qed.

Lemma keep_patterns_by_text (p_set : gset string) l :
  ∀ i, keep_patterns ∅ p_set i l = filter (λ p, p ∉ p_set) l.
Proof.
  induction l as [|x l IH]; intros i; [done|]. simpl.
  rewrite (bool_decide_eq_true_2 (i ∉ (∅ : gset Z)))
    by apply not_elem_of_empty.
  rewrite filter_cons. simpl.
  case_bool_decide; destruct (decide (x ∉ p_set)); try done;
    by rewrite IH.
Qed.





Lemma sort_patterns_text isdigit int args :
  (∀ a, a ∈ args → isdigit a = false) →
  ∀ rm_set p_set,
    foldM (sort_pattern isdigit int) (rm_set, p_set) args
    = Ok (rm_set, list_to_set args ∪ p_set).
Proof.
  induction args as [|a args IH]; intros Htext rm_set p_set.
  { simpl. by rewrite (left_id_L ∅ (∪)). }
  change (foldM ?f (rm_set, p_set) (a :: args))
    with (a' ← f (rm_set, p_set) a; foldM f a' args).
  assert (sort_pattern isdigit int (rm_set, p_set) a
          = Ok (rm_set, {[a]} ∪ p_set)) as ->
    by (unfold sort_pattern; by rewrite (Htext a) by by left).
  simpl. rewrite IH by (intros b Hb; apply Htext; by right).
  do 2 f_equal. rewrite (assoc_L (∪)). f_equal. apply (comm_L (∪)).
Qed.

(** X8.  With arguments that [isdigit] does not accept, [del_patterns]
    removes exactly the patterns equal to one of them and keeps the others
    in their order. *)
Theorem del_patterns_by_text isdigit int tag w item args :
  group_of w tag = Some item →
  (∀ a, a ∈ args → isdigit a = false) →
  del_patterns isdigit int tag (Seq args) w
  = (Ok (),
     save (store_item tag
             (set_patterns (filter (λ p, p ∉ args) (patterns item)) item) w)).
Proof.
  intros Hitem Htext. unfold group_of in Hitem.
  unfold del_patterns, __getitem__. rewrite Hitem. simpl _ensure_sequential.
  rewrite sort_patterns_text by done.
  rewrite (right_id_L ∅ (∪)), keep_patterns_by_text.
  do 4 f_equal. apply list_filter_iff. intros p.
  by rewrite elem_of_list_to_set.
Qed.

Lemma del_patterns_by_text_witness :
  del_patterns str_isdigit str_int "g" (Seq ["loss="; "eta="]) demo_world
  = (Ok (),
     save (store_item "g"
             (set_patterns
                (filter (λ p, p ∉ ["loss="; "eta="]) (patterns demo_group))
                demo_group) demo_world)).
Proof.
  apply (del_patterns_by_text str_isdigit str_int "g" demo_world demo_group
           ["loss="; "eta="]).
  - reflexivity.
  - intros a Ha. apply list_elem_of_In in Ha. simpl in Ha.
    destruct Ha as [<-|[<-|[]]]; reflexivity.
Defined.




(** ** The [included] and [excluded] lists of [config] *)

Lemma elem_of_list_set x l : x ∈ list_set l ↔ x ∈ l.
Proof. unfold list_set. by rewrite elem_of_elements, elem_of_list_to_set. Qed.

Lemma elem_of_list_set_diff x a b : x ∈ list_set_diff a b ↔ x ∈ a ∧ x ∉ b.
Proof.
  unfold list_set_diff.
  by rewrite elem_of_elements, elem_of_difference, !elem_of_list_to_set.
Qed.

Lemma NoDup_list_set l : NoDup (list_set l).
Proof. unfold list_set. apply NoDup_elements. Qed.

Lemma NoDup_list_set_diff a b : NoDup (list_set_diff a b).
Proof. unfold list_set_diff. apply NoDup_elements. Qed.

Lemma config_item_lists fnp' ending' builtin_func' remove_all_path
    remove_all_patterns include exclude item :
  let ex1 := match exclude with
             | Some ex => list_set (excluded item ++ ex)
             | None => excluded item
             end in
  let in1 := match exclude with
             | Some ex => list_set_diff (included item) ex1
             | None => included item
             end in
  let in2 := match include with
             | Some inc => list_set (in1 ++ inc)
             | None => in1
             end in
  let ex2 := match include with
             | Some inc => list_set_diff ex1 in2
             | None => ex1
             end in
  included (config_item fnp' ending' builtin_func' remove_all_path
              remove_all_patterns include exclude item) = in2
  ∧ excluded (config_item fnp' ending' builtin_func' remove_all_path
                remove_all_patterns include exclude item) = ex2.
Proof.
  destruct item, fnp', ending', builtin_func', remove_all_path as [[]|],
    remove_all_patterns as [[]|], include, exclude; done.
Qed.

Lemma config_run tag w item fnp' ending' builtin_func' remove_all_path
    remove_all_patterns include exclude :
  group_of w tag = Some item →
  config tag fnp' ending' builtin_func' remove_all_path remove_all_patterns
    include exclude w
  = (Ok (),
     save (store_item tag
             (config_item fnp' ending' builtin_func' remove_all_path
                remove_all_patterns include exclude item) w)).
Proof.
  intros Hitem. unfold group_of in Hitem.
  unfold config, __getitem__. by rewrite Hitem.
Qed.

(** X10.  After [config] with an include or an exclude list, the included
    and the excluded names of the group have no name in common and neither
    list has a name twice, whatever the lists held before. *)
Theorem config_lists_disjoint tag w item fnp' ending' builtin_func'
    remove_all_path remove_all_patterns include exclude :
  group_of w tag = Some item →
  is_Some include ∨ is_Some exclude →
  ∃ w' item',
    config tag fnp' ending' builtin_func' remove_all_path
      remove_all_patterns include exclude w = (Ok (), w')
    ∧ group_of w' tag = Some item'
    ∧ NoDup (included item') ∧ NoDup (excluded item')
    ∧ ∀ x, x ∈ included item' → x ∉ excluded item'.
Proof.
  intros Hitem Hgiven. eexists _, _.
  rewrite (config_run tag w item) by done. split; [done|].
  rewrite group_of_stored. split; [done|].
  destruct (config_item_lists fnp' ending' builtin_func' remove_all_path
              remove_all_patterns include exclude item) as [-> ->].
  destruct include as [inc|], exclude as [ex|];
    try (destruct Hgiven as [[? [=]]|[? [=]]]; fail).
  - split_and!; try apply NoDup_list_set;
      try apply NoDup_list_set_diff.
    intros x Hx. rewrite elem_of_list_set_diff. tauto.
  - split_and!; try apply NoDup_list_set;
      try apply NoDup_list_set_diff.
    intros x Hx. rewrite elem_of_list_set_diff. tauto.
  - split_and!; try apply NoDup_list_set;
      try apply NoDup_list_set_diff.
    intros x [_ Hx]%elem_of_list_set_diff. done.
Qed.

Lemma config_lists_disjoint_witness :
  ∃ w' item',
    config "g" None None None None None (Some ["run1"])
      (Some ["run1"; "run2"]) demo_world = (Ok (), w')
    ∧ group_of w' "g" = Some item'
    ∧ NoDup (included item') ∧ NoDup (excluded item')
    ∧ ∀ x, x ∈ included item' → x ∉ excluded item'.
Proof.
  apply (config_lists_disjoint "g" demo_world demo_group).
  - reflexivity.
  - left. by eexists.
Defined.

(** X11.  When [config] is given both lists, a name of the include list
    ends up included and not excluded, also when the exclude list names it
    too; a name included before stays included unless it was or is now
    excluded; the excluded names are the old and the new ones that the
    include list does not name. *)
Theorem config_include_wins tag w item fnp' ending' builtin_func'
    remove_all_path remove_all_patterns inc ex :
  group_of w tag = Some item →
  ∃ w' item',
    config tag fnp' ending' builtin_func' remove_all_path
      remove_all_patterns (Some inc) (Some ex) w = (Ok (), w')
    ∧ group_of w' tag = Some item'
    ∧ ∀ x,
        (x ∈ included item'
         ↔ x ∈ inc
           ∨ (x ∈ included item ∧ (x ∉ excluded item) ∧ (x ∉ ex)))
        ∧ (x ∈ excluded item'
           ↔ (x ∈ excluded item ∨ x ∈ ex) ∧ x ∉ inc).
Proof.
  intros Hitem. eexists _, _.
  rewrite (config_run tag w item) by done. split; [done|].
  rewrite group_of_stored. split; [done|]. intros x.
  destruct (config_item_lists fnp' ending' builtin_func' remove_all_path
              remove_all_patterns (Some inc) (Some ex) item) as [-> ->].
  rewrite elem_of_list_set_diff, !elem_of_list_set, !elem_of_app,
    elem_of_list_set_diff, elem_of_list_set, elem_of_app.
  destruct (decide (x ∈ inc)), (decide (x ∈ ex)),
    (decide (x ∈ excluded item)), (decide (x ∈ included item)); tauto.
Qed.

Lemma config_include_wins_witness :
  ∃ w' item',
    config "g" None None None None None (Some ["run1"])
      (Some ["run1"; "run2"]) demo_world = (Ok (), w')
    ∧ group_of w' "g" = Some item'
    ∧ ∀ x,
        (x ∈ included item'
         ↔ x ∈ ["run1"]
           ∨ (x ∈ included demo_group ∧ (x ∉ excluded demo_group)
              ∧ (x ∉ ["run1"; "run2"])))
        ∧ (x ∈ excluded item'
           ↔ (x ∈ excluded demo_group ∨ x ∈ ["run1"; "run2"])
             ∧ x ∉ ["run1"]).
Proof.
  apply (config_include_wins "g" demo_world demo_group).
  reflexivity.
Defined.

(** ** [activate], [deactivate] and [mv] *)

Lemma activate_step_spec a d t :
  (activate_step (a, d) t).1 !! t = Some (revived a d t)
  ∧ (activate_step (a, d) t).2 !! t = None
  ∧ ∀ tag, tag ≠ t →
      (activate_step (a, d) t).1 !! tag = a !! tag
      ∧ (activate_step (a, d) t).2 !! tag = d !! tag.
Proof.
  unfold activate_step, revived.
  destruct (d !! t) as [v|] eqn:Hd, (a !! t) as [g|] eqn:Ha; simpl.
  - rewrite Ha. simpl. split; [done|]. split; [apply lookup_delete_eq|].
    intros tag Hne. by rewrite lookup_delete_ne.
  - rewrite lookup_insert_eq. simpl. rewrite lookup_insert_eq.
    split; [done|]. split; [apply lookup_delete_eq|].
    intros tag Hne. by rewrite lookup_insert_ne, lookup_delete_ne.
  - rewrite Ha. simpl. done.
  - rewrite lookup_insert_eq. split; [done|].
    split; [done|]. intros tag Hne. by rewrite lookup_insert_ne.
Qed.

Lemma activate_fold l :
  ∀ a d tag,
    (tag ∈ l →
     (foldl activate_step (a, d) l).1 !! tag = Some (revived a d tag)
     ∧ (foldl activate_step (a, d) l).2 !! tag = None)
    ∧ (tag ∉ l →
       (foldl activate_step (a, d) l).1 !! tag = a !! tag
       ∧ (foldl activate_step (a, d) l).2 !! tag = d !! tag).
Proof.
  induction l as [|t l IH]; intros a d tag.
  { split; [by intros ?%elem_of_nil|done]. }
  change (foldl activate_step (a, d) (t :: l))
    with (foldl activate_step (activate_step (a, d) t) l).
  destruct (activate_step_spec a d t) as (Ht1 & Ht2 & Hother).
  destruct (activate_step (a, d) t) as [a1 d1] eqn:Hstep. simpl in *.
  destruct (IH a1 d1 tag) as [Hin Hout].
  destruct (decide (tag = t)) as [->|Hne].
  - split; [|intros Hno; exfalso; apply Hno; by left]. intros _.
    destruct (decide (t ∈ l)) as [Hl|Hl].
    + destruct (Hin Hl) as [-> ->]. split; [|done].
      unfold revived at 1. by rewrite Ht1.
    + destruct (Hout Hl) as [-> ->]. done.
  - destruct (Hother tag Hne) as [Ha Hd]. split.
    + intros [?|Hl]%elem_of_cons; [done|].
      destruct (Hin Hl) as [-> ->]. split; [|done].
      unfold revived. by rewrite Ha, Hd.
    + intros Hno. rewrite not_elem_of_cons in Hno.
      destruct (Hout (proj2 Hno)) as [-> ->]. done.
Qed.

Lemma deactivate_step_spec a d t :
  (deactivate_step (a, d) t).1 !! t = None
  ∧ (deactivate_step (a, d) t).2 !! t = a !! t
  ∧ ∀ tag, tag ≠ t →
      (deactivate_step (a, d) t).1 !! tag = a !! tag
      ∧ (deactivate_step (a, d) t).2 !! tag = d !! tag.
Proof.
  unfold deactivate_step.
  destruct (a !! t) as [v|] eqn:Ha; [|destruct (d !! t) as [v|] eqn:Hd];
    simpl.
  - split; [apply lookup_delete_eq|]. split; [apply lookup_insert_eq|].
    intros tag Hne. by rewrite lookup_delete_ne, lookup_insert_ne.
  - split; [done|]. split; [apply lookup_delete_eq|].
    intros tag Hne. by rewrite lookup_delete_ne.
  - done.
Qed.

Lemma deactivate_fold l :
  NoDup l →
  ∀ a d tag,
    (tag ∈ l →
     (foldl deactivate_step (a, d) l).1 !! tag = None
     ∧ (foldl deactivate_step (a, d) l).2 !! tag = a !! tag)
    ∧ (tag ∉ l →
       (foldl deactivate_step (a, d) l).1 !! tag = a !! tag
       ∧ (foldl deactivate_step (a, d) l).2 !! tag = d !! tag).
Proof.
  induction 1 as [|t l Ht Hnd IH]; intros a d tag.
  { split; [by intros ?%elem_of_nil|done]. }
  change (foldl deactivate_step (a, d) (t :: l))
    with (foldl deactivate_step (deactivate_step (a, d) t) l).
  destruct (deactivate_step_spec a d t) as (Ht1 & Ht2 & Hother).
  destruct (deactivate_step (a, d) t) as [a1 d1] eqn:Hstep. simpl in *.
  destruct (IH a1 d1 tag) as [Hin Hout].
  destruct (decide (tag = t)) as [->|Hne].
  - split; [|intros Hno; exfalso; apply Hno; by left]. intros _.
    destruct (Hout Ht) as [-> ->]. done.
  - destruct (Hother tag Hne) as [Ha Hd]. split.
    + intros [?|Hl]%elem_of_cons; [done|].
      destruct (Hin Hl) as [-> ->]. done.
    + intros Hno. rewrite not_elem_of_cons in Hno.
      destruct (Hout (proj2 Hno)) as [-> ->]. done.
Qed.

Lemma activate_groups tags w :
  activate tags w
  = (Ok (),
     save (set_groups
             (foldl activate_step
                (activated_groups (cfg (self w)),
                 deactivated_groups (cfg (self w)))
                (_ensure_sequential tags)).1
             (foldl activate_step
                (activated_groups (cfg (self w)),
                 deactivated_groups (cfg (self w)))
                (_ensure_sequential tags)).2 w)).
Proof. unfold activate. by destruct (foldl _ _ _). Qed.

Lemma deactivate_groups tags w :
  deactivate tags w
  = (Ok (),
     save (set_groups
             (foldl deactivate_step
                (activated_groups (cfg (self w)),
                 deactivated_groups (cfg (self w)))
                (_ensure_sequential tags)).1
             (foldl deactivate_step
                (activated_groups (cfg (self w)),
                 deactivated_groups (cfg (self w)))
                (_ensure_sequential tags)).2 w)).
Proof. unfold deactivate. by destruct (foldl _ _ _). Qed.

Lemma activate_lookup tags w tag :
  (tag ∈ _ensure_sequential tags →
   group_of (activate tags w).2 tag
   = Some (revived (activated_groups (cfg (self w)))
             (deactivated_groups (cfg (self w))) tag)
   ∧ parked_of (activate tags w).2 tag = None)
  ∧ (tag ∉ _ensure_sequential tags →
     group_of (activate tags w).2 tag = group_of w tag
     ∧ parked_of (activate tags w).2 tag = parked_of w tag).
Proof.
  rewrite activate_groups. apply (activate_fold (_ensure_sequential tags)).
Qed.

Lemma deactivate_lookup tags w tag :
  NoDup (_ensure_sequential tags) →
  (tag ∈ _ensure_sequential tags →
   group_of (deactivate tags w).2 tag = None
   ∧ parked_of (deactivate tags w).2 tag = group_of w tag)
  ∧ (tag ∉ _ensure_sequential tags →
     group_of (deactivate tags w).2 tag = group_of w tag
     ∧ parked_of (deactivate tags w).2 tag = parked_of w tag).
Proof.
  intros Hnd. rewrite deactivate_groups.
  by apply (deactivate_fold (_ensure_sequential tags)).
Qed.

(** X12.  [activate] never raises.  Every tag it is given is active
    afterwards and no longer deactivated: an active group keeps its value
    (and a deactivated group of the same tag is dropped), a deactivated
    group comes back with the value it had, and an unknown tag gets the
    default group.  The other tags are left as they were. *)
Theorem activate_revives tags w :
  (activate tags w).1 = Ok ()
  ∧ ∀ tag,
      (tag ∈ _ensure_sequential tags →
       group_of (activate tags w).2 tag
       = Some (revived (activated_groups (cfg (self w)))
                 (deactivated_groups (cfg (self w))) tag)
       ∧ parked_of (activate tags w).2 tag = None)
      ∧ (tag ∉ _ensure_sequential tags →
         group_of (activate tags w).2 tag = group_of w tag
         ∧ parked_of (activate tags w).2 tag = parked_of w tag).
Proof.
  split; [by rewrite activate_groups|]. intros tag. apply activate_lookup.
Qed.

(** X13.  [deactivate] with tags that are all different never raises and
    leaves none of them active: a group that was active is now
    deactivated with its value, replacing a deactivated group of the same
    tag, and a tag that was not active is in neither dictionary any more.
    The other tags are left as they were. *)
Theorem deactivate_parks tags w :
  NoDup (_ensure_sequential tags) →
  (deactivate tags w).1 = Ok ()
  ∧ ∀ tag,
      (tag ∈ _ensure_sequential tags →
       group_of (deactivate tags w).2 tag = None
       ∧ parked_of (deactivate tags w).2 tag = group_of w tag)
      ∧ (tag ∉ _ensure_sequential tags →
         group_of (deactivate tags w).2 tag = group_of w tag
         ∧ parked_of (deactivate tags w).2 tag = parked_of w tag).
Proof.
  intros Hnd. split; [by rewrite deactivate_groups|]. intros tag.
  by apply deactivate_lookup.
Qed.

Lemma deactivate_parks_witness :
  (deactivate (Seq ["g"; "h"]) demo_world).1 = Ok ()
  ∧ ∀ tag,
      (tag ∈ _ensure_sequential (Seq ["g"; "h"]) →
       group_of (deactivate (Seq ["g"; "h"]) demo_world).2 tag = None
       ∧ parked_of (deactivate (Seq ["g"; "h"]) demo_world).2 tag
         = group_of demo_world tag)
      ∧ (tag ∉ _ensure_sequential (Seq ["g"; "h"]) →
         group_of (deactivate (Seq ["g"; "h"]) demo_world).2 tag
         = group_of demo_world tag
         ∧ parked_of (deactivate (Seq ["g"; "h"]) demo_world).2 tag
           = parked_of demo_world tag).
Proof.
  apply (deactivate_parks (Seq ["g"; "h"]) demo_world).
  decide_by_computation.
Defined.

Lemma save_set_groups_twice a1 d1 a2 d2 w :
  save (set_groups a2 d2 (save (set_groups a1 d1 w)))
  = save (set_groups a2 d2 w).
Proof.
  unfold save, set_groups. simpl. f_equal. by rewrite insert_insert_eq.
Qed.

(** X14.  A tag named twice in one call of [deactivate] is taken twice, as
    by two calls: the first moves the group to the deactivated ones, the
    second deletes it, so the tag is in neither dictionary afterwards. *)
Theorem deactivate_twice_deletes tag w :
  (deactivate (Seq [tag; tag]) w).2
  = (deactivate (One tag) (deactivate (One tag) w).2).2
  ∧ group_of (deactivate (Seq [tag; tag]) w).2 tag = None
  ∧ parked_of (deactivate (Seq [tag; tag]) w).2 tag = None.
Proof.
  set (s1 := deactivate_step
               (activated_groups (cfg (self w)),
                deactivated_groups (cfg (self w))) tag).
  assert ((deactivate (One tag) w).2 = save (set_groups s1.1 s1.2 w)) as H1
    by by rewrite deactivate_groups.
  assert ((deactivate (Seq [tag; tag]) w).2
          = save (set_groups (deactivate_step s1 tag).1
                    (deactivate_step s1 tag).2 w)) as H2
    by by rewrite deactivate_groups.
  rewrite H2, H1, deactivate_groups.
  change (foldl deactivate_step _ (_ensure_sequential (One tag)))
    with (deactivate_step (s1.1, s1.2) tag).
  cbn [snd]. rewrite save_set_groups_twice, <-surjective_pairing.
  split; [done|].
  unfold group_of, parked_of.
  cbn [self save set_groups cfg activated_groups deactivated_groups].
  destruct (deactivate_step_spec (activated_groups (cfg (self w)))
              (deactivated_groups (cfg (self w))) tag) as (Hs1 & _ & _).
  fold s1 in Hs1. destruct s1 as [a1 d1]. simpl in Hs1.
  destruct (deactivate_step_spec a1 d1 tag) as (Hs2 & Hs3 & _).
  by rewrite Hs1 in Hs3.
Qed.

(** X15.  Activating the tags just deactivated brings every group back
    with its value, when the tags are all different and were all active;
    the activated groups are then exactly those before, while a group
    that was deactivated under one of the tags is lost. *)
Theorem deactivate_then_activate tags w :
  NoDup (_ensure_sequential tags) →
  (∀ tag, tag ∈ _ensure_sequential tags → is_Some (group_of w tag)) →
  activated_groups (cfg (self (activate tags (deactivate tags w).2).2))
  = activated_groups (cfg (self w))
  ∧ ∀ tag,
      parked_of (activate tags (deactivate tags w).2).2 tag
      = if decide (tag ∈ _ensure_sequential tags) then None
        else parked_of w tag.
Proof.
  intros Hnd Hactive.
  set (w1 := (deactivate tags w).2).
  assert (∀ tag,
    group_of (activate tags w1).2 tag = group_of w tag
    ∧ parked_of (activate tags w1).2 tag
      = if decide (tag ∈ _ensure_sequential tags) then None
        else parked_of w tag) as Hboth.
  { intros tag.
    destruct (activate_lookup tags w1 tag) as [Hin Hout].
    destruct (deactivate_lookup tags w tag Hnd) as [Hin1 Hout1].
    fold w1 in Hin1, Hout1.
    destruct (decide (tag ∈ _ensure_sequential tags)) as [Ht|Ht].
    - destruct (Hin Ht) as [-> ->]. destruct (Hin1 Ht) as [Ha Hd].
      split; [|done]. unfold group_of, parked_of in Ha, Hd.
      unfold revived. rewrite Ha, Hd.
      destruct (Hactive tag Ht) as [g Hg]. unfold group_of in *.
      by rewrite Hg.
    - destruct (Hout Ht) as [-> ->]. by destruct (Hout1 Ht) as [-> ->]. }
  split; [|apply Hboth]. apply map_eq. intros tag. apply Hboth.
Qed.

Lemma deactivate_then_activate_witness :
  activated_groups
    (cfg (self (activate (One "g") (deactivate (One "g") demo_world).2).2))
  = activated_groups (cfg (self demo_world))
  ∧ ∀ tag,
      parked_of (activate (One "g") (deactivate (One "g") demo_world).2).2 tag
      = if decide (tag ∈ _ensure_sequential (One "g")) then None
        else parked_of demo_world tag.
Proof.
  apply (deactivate_then_activate (One "g") demo_world).
  - decide_by_computation.
  - intros tag Htag. apply list_elem_of_singleton in Htag. subst tag.
    by eexists.
Defined.

Lemma mv_run oldtag newtag w v :
  group_of w newtag = None →
  group_of w oldtag = Some v →
  mv oldtag newtag w
  = (Ok (),
     save (set_groups
             (delete oldtag (<[newtag := v]> (activated_groups (cfg (self w)))))
             (deactivated_groups (cfg (self w))) w)).
Proof.
  unfold group_of, mv. intros Hnew Hold. by rewrite Hnew, Hold.
Qed.

Lemma mv_Ok_inv oldtag newtag w :
  (mv oldtag newtag w).1 = Ok () →
  group_of w newtag = None ∧ is_Some (group_of w oldtag).
Proof.
  unfold group_of, mv.
  destruct (activated_groups (cfg (self w)) !! newtag); [done|].
  destruct (activated_groups (cfg (self w)) !! oldtag); [|done].
  intros _. split; [done|]. by eexists.
Qed.

(** X16.  [mv] succeeds exactly when the new tag is not active and the old
    one is.  An active new tag gives [ValueError] whether or not the old
    tag exists; only then a missing old tag gives [KeyError].  Renaming a
    tag to itself always fails. *)
Theorem mv_succeeds_iff oldtag newtag w :
  ((mv oldtag newtag w).1 = Ok ()
   ↔ group_of w newtag = None ∧ is_Some (group_of w oldtag))
  ∧ (is_Some (group_of w newtag) →
     mv oldtag newtag w = (Raise (ValueError newtag), w))
  ∧ (group_of w newtag = None → group_of w oldtag = None →
     mv oldtag newtag w = (Raise (KeyError oldtag), w))
  ∧ (mv oldtag oldtag w).1 ≠ Ok ().
Proof.
  split_and!.
  - split; [apply mv_Ok_inv|]. intros [Hnew [v Hold]].
    by rewrite (mv_run oldtag newtag w v).
  - unfold group_of, mv. by intros [v ->].
  - unfold group_of, mv. by intros -> ->.
  - intros [Hnew [v Hold]]%mv_Ok_inv. congruence.
Qed.

(** X17.  A successful [mv] puts the group of the old tag under the new
    tag and leaves the old tag without a group; the other active groups
    and all deactivated groups, also one under the new tag, stay as they
    were. *)
Theorem mv_moves oldtag newtag w w' :
  mv oldtag newtag w = (Ok (), w') →
  group_of w' newtag = group_of w oldtag
  ∧ group_of w' oldtag = None
  ∧ (∀ tag, tag ≠ oldtag → tag ≠ newtag → group_of w' tag = group_of w tag)
  ∧ ∀ tag, parked_of w' tag = parked_of w tag.
Proof.
  intros Hmv.
  assert ((mv oldtag newtag w).1 = Ok ()) as Hok by by rewrite Hmv.
  apply mv_Ok_inv in Hok as [Hnew [v Hold]].
  rewrite (mv_run oldtag newtag w v) in Hmv by done.
  injection Hmv as <-. unfold group_of, parked_of in *.
  cbn [self save set_groups cfg activated_groups deactivated_groups].
  assert (oldtag ≠ newtag) as Hne by congruence.
  split_and!.
  - by rewrite lookup_delete_ne, lookup_insert_eq.
  - apply lookup_delete_eq.
  - intros tag Ho Hn. by rewrite lookup_delete_ne, lookup_insert_ne.
  - done.
Qed.

Lemma mv_moves_witness :
  group_of (mv "g" "h" demo_world).2 "h" = group_of demo_world "g"
  ∧ group_of (mv "g" "h" demo_world).2 "g" = None
  ∧ (∀ tag, tag ≠ "g" → tag ≠ "h" →
            group_of (mv "g" "h" demo_world).2 tag = group_of demo_world tag)
  ∧ ∀ tag, parked_of (mv "g" "h" demo_world).2 tag = parked_of demo_world tag.
Proof.
  apply (mv_moves "g" "h" demo_world).
  reflexivity.
Defined.

(** X18.  Renaming a group and renaming it back gives the configuration
    there was. *)
Theorem mv_round_trip oldtag newtag w w1 :
  mv oldtag newtag w = (Ok (), w1) →
  ∃ w2, mv newtag oldtag w1 = (Ok (), w2) ∧ cfg (self w2) = cfg (self w).
Proof.
  intros Hmv.
  assert ((mv oldtag newtag w).1 = Ok ()) as Hok by by rewrite Hmv.
  apply mv_Ok_inv in Hok as [Hnew [v Hold]].
  rewrite (mv_run oldtag newtag w v) in Hmv by done.
  injection Hmv as <-.
  assert (oldtag ≠ newtag) as Hne by congruence.
  eexists. rewrite (mv_run newtag oldtag _ v).
  - split; [done|]. unfold group_of in *.
    cbn [self save set_groups cfg activated_groups deactivated_groups
         version].
    destruct (cfg (self w)) as [ver a d]. simpl in *. f_equal.
    apply map_eq. intros tag.
    destruct (decide (tag = newtag)) as [->|Hn].
    { by rewrite lookup_delete_eq. }
    rewrite lookup_delete_ne by done.
    destruct (decide (tag = oldtag)) as [->|Ho].
    { by rewrite lookup_insert_eq. }
    by rewrite lookup_insert_ne, lookup_delete_ne, lookup_insert_ne.
  - unfold group_of. simpl. apply lookup_delete_eq.
  - unfold group_of. simpl. by rewrite lookup_delete_ne, lookup_insert_eq.
Qed.

Lemma mv_round_trip_witness :
  ∃ w2,
    mv "h" "g" (mv "g" "h" demo_world).2 = (Ok (), w2)
    ∧ cfg (self w2) = cfg (self demo_world).
Proof.
  apply (mv_round_trip "g" "h" demo_world).
  reflexivity.
Defined.

(** ** The commands of the command line *)

Lemma add_paths_run abspath tag w item ps :
  group_of w tag = Some item →
  add_paths abspath tag ps w
  = (Ok (),
     save (store_item tag
             (set_paths (paths item ++ (abspath <$> _ensure_sequential ps))
                item) w)).
Proof.
  unfold group_of, add_paths, __getitem__. by intros ->.
Qed.

Lemma add_patterns_run tag w item ps :
  group_of w tag = Some item →
  add_patterns tag ps w
  = (Ok (),
     save (store_item tag
             (set_patterns (patterns item ++ _ensure_sequential ps) item) w)).
Proof.
  unfold group_of, add_patterns, __getitem__. by intros ->.
Qed.

Lemma group_of_stored_ne tag tag' item w :
  tag' ≠ tag → group_of (save (store_item tag item w)) tag' = group_of w tag'.
Proof. intros Hne. unfold group_of. simpl. by apply lookup_insert_ne. Qed.

(** X19.  The [add] command never raises, whatever the tag: it extends the
    group the tag has after [activate], that is the active group, else the
    deactivated one brought back, else a new default group, by the
    absolute paths and by the patterns, and saves.  An existing group is
    never reset, and no other group changes. *)
Theorem add_group_extends abspath tag path pattern w :
  let g := revived (activated_groups (cfg (self w)))
             (deactivated_groups (cfg (self w))) tag in
  ∃ w',
    add_group_by_args abspath tag path pattern w = (Ok (), w')
    ∧ saved w'
    ∧ group_of w' tag
      = Some (set_patterns (patterns g ++ pattern)
                (set_paths (paths g ++ (abspath <$> path)) g))
    ∧ parked_of w' tag = None
    ∧ ∀ tag', tag' ≠ tag →
        group_of w' tag' = group_of w tag'
        ∧ parked_of w' tag' = parked_of w tag'.
Proof.
  intros g. unfold add_group_by_args, and_then.
  destruct (activate_lookup (One tag) w tag) as [Hin _].
  destruct Hin as [Hg Hp]; [by left|]. fold g in Hg.
  assert (∀ tag', tag' ≠ tag →
    group_of (activate (One tag) w).2 tag' = group_of w tag'
    ∧ parked_of (activate (One tag) w).2 tag' = parked_of w tag') as Hother.
  { intros tag' Hne. destruct (activate_lookup (One tag) w tag') as [_ Hout].
    apply Hout. simpl. by rewrite list_elem_of_singleton. }
  revert Hg Hp Hother. rewrite activate_groups. cbn [snd fst].
  set (w1 := save (set_groups _ _ w)). intros Hg Hp Hother.
  rewrite (add_paths_run abspath tag w1 g) by done.
  rewrite (add_patterns_run tag _ _ _ (group_of_stored _ _ _)).
  eexists. split; [done|]. split; [apply lookup_insert_eq|].
  rewrite group_of_stored. split; [done|]. split; [done|].
  intros tag' Hne. rewrite !group_of_stored_ne by done.
  by apply Hother.
Qed.

Lemma edit_patterns_fails isdigit int tag w item index p :
  group_of w tag = Some item →
  (∀ k, index_value isdigit int index = Some k →
        ¬ (0 ≤ k < Z.of_nat (length (patterns item)))) →
  ∃ ex,
    edit_patterns isdigit int tag index p w = (Raise ex, w)
    ∧ ((∃ arg, ex = IndexError arg)
       ∨ ∃ s, index = IStr s ∧ isdigit s = true ∧ int s = Raise ex).
Proof.
  unfold group_of, edit_patterns, __getitem__, index_value.
  intros -> Hbad.
  assert (∀ k, ¬ (0 ≤ k < Z.of_nat (length (patterns item))) →
               (0 <=? k) && (k <? Z.of_nat (length (patterns item))) = false)
    as Hrange.
  { intros k Hk. apply not_true_is_false.
    rewrite andb_true_iff, Z.leb_le, Z.ltb_lt. done. }
  destruct index as [s|n];
    [destruct (isdigit s) eqn:Hd; [destruct (int s) as [n|ex] eqn:Hn|]|].
  - rewrite Hrange by by apply Hbad. eexists. split; [done|]. left.
    by eexists.
  - exists ex. split; [done|]. right. by exists s.
  - eexists. split; [done|]. left. by eexists.
  - rewrite Hrange by by apply Hbad. eexists. split; [done|]. left.
    by eexists.
Qed.

(** X20.  The [config] command is not undone by a failing pattern edit:
    when the first [-p INDEX PATTERN] pair has an index that is no
    position of the patterns the settings leave, the command raises, with
    [IndexError] or with the exception of [int], after the settings have
    been stored and saved. *)
Theorem config_group_keeps_settings isdigit int tag w item file end_
    default_ allpath allcfg exclude include i p rest :
  group_of w tag = Some item →
  (∀ k, index_value isdigit int (IStr i) = Some k →
        ¬ (0 ≤ k < Z.of_nat (length (patterns
             (config_item file end_ default_ allpath allcfg include exclude
                item))))) →
  ∃ ex,
    config_group_by_args isdigit int tag file end_ default_ allpath allcfg
      exclude include (Some ((i, p) :: rest)) w
    = (Raise ex,
       save (store_item tag
               (config_item file end_ default_ allpath allcfg include exclude
                  item) w))
    ∧ ((∃ arg, ex = IndexError arg)
       ∨ (isdigit i = true ∧ int i = Raise ex)).
Proof.
  intros Hitem Hbad. unfold config_group_by_args, and_then.
  rewrite (config_run tag w item) by done. simpl.
  destruct (edit_patterns_fails isdigit int tag _ _ (IStr i) p
              (group_of_stored _ _ w) Hbad) as (ex & -> & Hex).
  exists ex. split; [done|].
  destruct Hex as [?|(s & [= <-] & ? & ?)]; auto.
Qed.

Lemma config_group_keeps_settings_witness :
  ∃ ex,
    config_group_by_args str_isdigit str_int "g" None (Some "finished") None
      None (Some true) None None (Some [("0", "eta=")]) demo_world
    = (Raise ex,
       save (store_item "g"
               (config_item None (Some "finished") None None (Some true) None
                  None demo_group) demo_world))
    ∧ ((∃ arg, ex = IndexError arg)
       ∨ (str_isdigit "0" = true ∧ str_int "0" = Raise ex)).
Proof.
  apply (config_group_keeps_settings str_isdigit str_int "g" demo_world
           demo_group None (Some "finished") None None (Some true) None None
           "0" "eta=" []).
  - reflexivity.
  - intros k Hk. injection Hk as <-. vm_compute. intros [_ Hlt]. done.
Defined.

(** The same with an index that [isdigit] accepts and [int] does not
    read: the command ends in [ValueError] and the new ending is saved. *)
Example config_group_superscript :
  ∃ msg,
    config_group_by_args str_isdigit str_int "g" None (Some "finished") None
      None None None None (Some [(superscript_two, "eta=")]) demo_world
    = (Raise (ValueError msg),
       save (store_item "g" (set_ending "finished" demo_group) demo_world)).
Proof. eexists. vm_compute. reflexivity. Qed.

(** ** The files of an identity *)

Lemma add_log_spec parse item logs fn logs' :
  add_log parse item logs fn = Ok logs' →
  ∀ one,
    default [] (logs' !! one)
    = default [] (logs !! one) ++ (if names parse item one fn then [fn] else []).
Proof.
  unfold add_log, names.
  destruct (match_file_with parse (fnp item) fn) as [[[] [n|]]|ex];
    simpl; try (intros [= <-] one; by rewrite app_nil_r).
  intros [= <-] one. case_bool_decide as Hn.
  - subst one. by rewrite lookup_insert_eq.
  - rewrite lookup_insert_ne by done. by rewrite app_nil_r.
Qed.

Lemma foldM_add_log parse item l :
  ∀ logs0 logs,
    foldM (add_log parse item) logs0 l = Ok logs →
    ∀ one,
      default [] (logs !! one)
      = default [] (logs0 !! one) ++ filter (λ fn, names parse item one fn) l.
Proof.
  induction l as [|fn l IH]; intros logs0 logs.
  { intros [= <-] one. by rewrite app_nil_r. }
  change (foldM (add_log parse item) logs0 (fn :: l))
    with (a' ← add_log parse item logs0 fn; foldM (add_log parse item) a' l).
  destruct (add_log parse item logs0 fn) as [logs1|ex] eqn:Hadd; [|done].
  simpl. intros Hrest one.
  rewrite (IH _ _ Hrest one), (add_log_spec _ _ _ _ _ Hadd one).
  rewrite filter_cons. rewrite <-(assoc_L (++)).
  by destruct (names parse item one fn).
Qed.

(** X21.  After the walk over the watched paths, the files kept for an
    identity are the discovered files whose match gives that identity, in
    the order of discovery, a file reached twice being kept twice; an
    identity has files exactly when some discovered file gives it. *)
Theorem collect_logs_buckets parse e item logs :
  collect_logs parse e item = Ok logs →
  ∀ one,
    default [] (logs !! one)
    = filter (λ fn, names parse item one fn) (discovered e item)
    ∧ (is_Some (logs !! one)
       ↔ ∃ fn, fn ∈ discovered e item ∧ names parse item one fn = true).
Proof.
  intros Hlogs one.
  pose proof (foldM_add_log parse item _ _ _ Hlogs one) as Hone.
  rewrite lookup_empty in Hone. simpl in Hone. split; [done|]. split.
  - intros [files Hfiles].
    pose proof (collect_logs_nonempty _ _ _ _ Hlogs one files Hfiles) as Hne.
    rewrite Hfiles in Hone. simpl in Hone.
    destruct files as [|fn files]; [done|]. exists fn.
    assert (fn ∈ filter (λ fn, names parse item one fn) (discovered e item))
      as Hin by (rewrite <-Hone; by left).
    apply list_elem_of_filter in Hin as [Hn Hin]. split; [done|].
    by apply Is_true_true.
  - intros (fn & Hin & Hn).
    destruct (logs !! one) as [files|]; [by eexists|]. simpl in Hone.
    assert (fn ∈ filter (λ fn, names parse item one fn) (discovered e item))
      as Hfn by (apply list_elem_of_filter; split; [by apply Is_true_true|done]).
    rewrite <-Hone in Hfn. by apply elem_of_nil in Hfn.
Qed.

Lemma collect_logs_buckets_witness :
  default [] (demo_logs !! "/logs/run1")
  = filter (λ fn, names Parse.parse demo_group "/logs/run1" fn)
      (discovered demo_os demo_group)
  ∧ (is_Some (demo_logs !! "/logs/run1")
     ↔ ∃ fn, fn ∈ discovered demo_os demo_group
             ∧ names Parse.parse demo_group "/logs/run1" fn = true).
Proof.
  apply (collect_logs_buckets Parse.parse demo_os demo_group demo_logs).
  vm_compute. reflexivity.
Defined.

Lemma Sorted_head_max {A} (R : A → A → Prop) `{!Transitive R} x l :
  Sorted R (x :: l) → ∀ y, y ∈ l → R x y.
Proof.
  intros Hs%Sorted_StronglySorted; [|done].
  apply StronglySorted_inv in Hs as [_ Hall].
  intros y Hy. by eapply Forall_forall in Hall.
Qed.

(** X22.  The files of an identity are scanned newest first: the list the
    probe gets holds the same files as the bucket, in an order of
    non-increasing modification time, so that the idle time is computed
    from a file none of the others is newer than. *)
Theorem item_files_newest_first e logs one :
  item_files e logs one ≡ₚ default [] (logs !! one)
  ∧ Sorted (λ a b, (os_getmtime e b <= os_getmtime e a)%Q)
      (item_files e logs one)
  ∧ ∀ fn0 rest,
      item_files e logs one = fn0 :: rest →
      ∀ fn, fn ∈ default [] (logs !! one) →
            (os_getmtime e fn <= os_getmtime e fn0)%Q.
Proof.
  unfold item_files. split; [apply sorted_desc_perm|].
  split; [apply sorted_desc_sorted|].
  intros fn0 rest Hsorted fn Hfn.
  rewrite <-(sorted_desc_perm (os_getmtime e)), Hsorted in Hfn.
  apply elem_of_cons in Hfn as [->|Hfn]; [apply Qle_refl|].
  pose proof (sorted_desc_sorted (os_getmtime e) (default [] (logs !! one)))
    as Hs.
  rewrite Hsorted in Hs.
  assert (Transitive (λ a b, (os_getmtime e b <= os_getmtime e a)%Q)) as Htr
    by (intros a b c Hab Hbc; by eapply Qle_trans).
  by apply (Sorted_head_max _ _ _ Hs).
Qed.

(** ** The shape of the view *)

Lemma panel_item_cases e item width duration inspect logs recs one recs' :
  panel_item e item width duration inspect logs recs one = Ok recs' →
  recs' = recs
  ∨ ∃ flag t,
      (flag = 0 ∨ flag = 1) ∧ e_name t = one
      ∧ recs' = <[flag := default [] (recs !! flag) ++ [t]]> recs.
Proof.
  unfold panel_item. destruct (item_files e logs one) as [|fn0 rest]; [done|].
  destruct (skipped _ _ _ _ _ _); [intros [= <-]; by left|].
  destruct (panel_entry _ _ _ _ _ _ _) as [[flag t]|ex] eqn:Hentry; [|done].
  simpl. intros [= <-]. right. exists flag, t.
  apply panel_entry_Ok in Hentry as (_ & Hname & Hflag).
  split; [|done]. rewrite Hflag. case_bool_decide; auto.
Qed.

Lemma foldM_panel_buckets e item width duration inspect logs ones :
  ∀ recs0 recs,
    foldM (panel_item e item width duration inspect logs) recs0 ones
    = Ok recs →
    ∀ f, ∃ l1,
      default [] (recs !! f) = default [] (recs0 !! f) ++ l1
      ∧ e_name <$> l1 `sublist_of` ones
      ∧ (l1 ≠ [] → f = 0 ∨ f = 1)
      ∧ (is_Some (recs !! f) → is_Some (recs0 !! f) ∨ l1 ≠ []).
Proof.
  induction ones as [|one ones IH]; intros recs0 recs.
  { intros [= <-] f. exists []. rewrite app_nil_r.
    split_and!; [done|constructor|done|by left]. }
  change (foldM ?f recs0 (one :: ones))
    with (a' ← f recs0 one; foldM f a' ones).
  destruct (panel_item e item width duration inspect logs recs0 one)
    as [recs1|ex] eqn:Hitem; [|done].
  simpl. intros Hrest f.
  destruct (IH _ _ Hrest f) as (l1 & Hl & Hsub & Hflag & Hsome).
  apply panel_item_cases in Hitem
    as [->|(flag & t & Hft & Hname & ->)].
  { exists l1. split_and!; try done. by apply sublist_cons. }
  destruct (decide (f = flag)) as [->|Hne].
  - rewrite lookup_insert_eq in Hl. simpl in Hl.
    exists (t :: l1). rewrite Hl, <-(assoc_L (++)).
    split_and!; [done| |done|by right].
    rewrite fmap_cons, Hname. by apply sublist_skip.
  - rewrite lookup_insert_ne in Hl, Hsome by done.
    exists l1. split_and!; try done. by apply sublist_cons.
Qed.

Lemma flags_shape (l : list Z) :
  Sorted Z.le l → NoDup l → (∀ f, f ∈ l → f = 0 ∨ f = 1) →
  l = [] ∨ l = [0] ∨ l = [1] ∨ l = [0; 1].
Proof.
  intros Hs Hnd Hin.
  destruct l as [|a [|b l]]; [by left| |].
  - destruct (Hin a) as [->| ->]; [by left|auto..].
  - assert (a ≤ b) as Hab.
    { apply Sorted_inv in Hs as [_ Hhd]. by apply HdRel_inv in Hhd. }
    apply NoDup_cons in Hnd as [Ha Hnd].
    apply NoDup_cons in Hnd as [Hb Hnd].
    rewrite not_elem_of_cons in Ha. destruct Ha as [Hne Ha].
    destruct (Hin a) as [->| ->]; [by left| |];
      (destruct (Hin b) as [->| ->]; [right; by left| |]); try lia.
    destruct l as [|c l]; [auto|].
    rewrite not_elem_of_cons in Ha, Hb.
    destruct (Hin c) as [->| ->]; [do 2 right; by left|tauto|tauto].
Qed.

Lemma StronglySorted_sublist {A} (R : A → A → Prop) l1 l2 :
  l1 `sublist_of` l2 → StronglySorted R l2 → StronglySorted R l1.
Proof.
  induction 1 as [|x l1 l2 Hsub IH|x l1 l2 Hsub IH]; intros Hs; [done| |].
  - apply StronglySorted_inv in Hs as [Hs Hall]. constructor; [by apply IH|].
    apply Forall_forall. intros y Hy.
    eapply Forall_forall in Hall; [done|]. by eapply sublist_subseteq.
  - apply StronglySorted_inv in Hs as [Hs _]. by apply IH.
Qed.

Lemma panel_view_recs parse e self tag width duration inspect view :
  group_panel_view_with parse e self tag width duration inspect = Ok view →
  ∃ item logs recs,
    collect_logs parse e item = Ok logs
    ∧ foldM (panel_item e item width duration inspect logs) ∅
        (merge_sort String.le (elements (dom logs))) = Ok recs
    ∧ view.1 = merge_sort Z.le (elements (dom recs))
    ∧ view.2 = (λ i, default [] (recs !! i)) <$> view.1.
Proof.
  unfold group_panel_view_with.
  destruct (__getitem__ self tag) as [item|]; [|done]. simpl.
  destruct (collect_logs parse e item) as [logs|] eqn:Hlogs; [|done]. simpl.
  destruct (foldM _ _ _) as [recs|] eqn:Hrecs; [|done]. simpl.
  intros [= <-]. by exists item, logs, recs.
Qed.

(** X23.  A view has at most two buckets, the one of the ongoing runs
    (flag 0) before the one of the ended runs (flag 1); there are as many
    buckets as flags, and a bucket that is there is not empty. *)
Theorem panel_view_shape parse e self tag width duration inspect view :
  group_panel_view_with parse e self tag width duration inspect = Ok view →
  (view.1 = [] ∨ view.1 = [0] ∨ view.1 = [1] ∨ view.1 = [0; 1])
  ∧ length view.2 = length view.1
  ∧ ∀ l, l ∈ view.2 → l ≠ [].
Proof.
  intros (item & logs & recs & _ & Hrecs & Hflags & Hstrs)%panel_view_recs.
  pose proof (foldM_panel_buckets _ _ _ _ _ _ _ _ _ Hrecs) as Hbuckets.
  assert (∀ f, f ∈ view.1 → is_Some (recs !! f)) as Hdom.
  { intros f. rewrite Hflags, merge_sort_Permutation, elem_of_elements.
    by rewrite elem_of_dom. }
  split_and!.
  - apply flags_shape.
    + rewrite Hflags. apply (Sorted_merge_sort Z.le).
    + rewrite Hflags, merge_sort_Permutation. apply NoDup_elements.
    + intros f Hf%Hdom. destruct (Hbuckets f) as (l1 & _ & _ & Hflag & Hsome).
      apply Hflag. destruct (Hsome Hf) as [[? Hno]|?]; [|done].
      by rewrite lookup_empty in Hno.
  - by rewrite Hstrs, length_fmap.
  - intros l. rewrite Hstrs. intros (f & -> & Hf%Hdom)%list_elem_of_fmap.
    destruct (Hbuckets f) as (l1 & Hl & _ & _ & Hsome).
    rewrite lookup_empty in Hl. simpl in Hl. rewrite Hl.
    destruct (Hsome Hf) as [[? Hno]|?]; [|done].
    by rewrite lookup_empty in Hno.
Qed.

Lemma panel_view_shape_witness :
  (([1], [[demo_run1]]).1 = [] ∨ ([1], [[demo_run1]]).1 = [0]
   ∨ ([1], [[demo_run1]]).1 = [1] ∨ ([1], [[demo_run1]]).1 = [0; 1])
  ∧ length ([1], [[demo_run1]]).2 = length ([1], [[demo_run1]]).1
  ∧ ∀ l, l ∈ ([1], [[demo_run1]]).2 → l ≠ [].
Proof.
  apply (panel_view_shape Parse.parse demo_os (demo_manager demo_group) "g"
           (Some 80) (Some (inject_Z 500)) None ([1], [[demo_run1]])).
  vm_compute. reflexivity.
Defined.

(** X24.  In each bucket of a view the records are in ascending order of
    the name of the identity, and no identity has two records there. *)
Theorem panel_view_buckets_sorted parse e self tag width duration inspect
    view :
  group_panel_view_with parse e self tag width duration inspect = Ok view →
  ∀ l, l ∈ view.2 →
       StronglySorted String.le (e_name <$> l) ∧ NoDup (e_name <$> l).
Proof.
  intros (item & logs & recs & _ & Hrecs & Hflags & Hstrs)%panel_view_recs l.
  rewrite Hstrs. intros (f & -> & _)%list_elem_of_fmap.
  destruct (foldM_panel_buckets _ _ _ _ _ _ _ _ _ Hrecs f)
    as (l1 & Hl & Hsub & _ & _).
  rewrite lookup_empty in Hl. simpl in Hl. rewrite Hl. split.
  - apply (StronglySorted_sublist _ _ _ Hsub).
    apply Sorted_StronglySorted; [apply _|].
    apply (Sorted_merge_sort String.le).
  - eapply sublist_NoDup; [|done].
    rewrite merge_sort_Permutation. apply NoDup_elements.
Qed.

Lemma panel_view_buckets_sorted_witness :
  StronglySorted String.le
    (e_name
       <$> [{| e_name := "/logs/run1"; e_ago := "1 mins 40 secs ";
               e_lines := [" done" +:+ ESC +:+ "[0m"] |};
            demo_run2])
  ∧ NoDup
      (e_name
         <$> [{| e_name := "/logs/run1"; e_ago := "1 mins 40 secs ";
                 e_lines := [" done" +:+ ESC +:+ "[0m"] |};
              demo_run2]).
Proof.
  apply (panel_view_buckets_sorted Parse.parse demo_os
           (demo_manager (set_patterns ["done"] demo_group)) "g" (Some 80)
           None None
           ([0],
            [[{| e_name := "/logs/run1"; e_ago := "1 mins 40 secs ";
                 e_lines := [" done" +:+ ESC +:+ "[0m"] |};
              demo_run2]])).
  - vm_compute. reflexivity.
  - simpl. apply list_elem_of_here.
Defined.

(** ** The inspect view *)






Example inspect_of_unknown_name_is_empty :
  render_inspect_view_with Parse.parse demo_os (demo_manager demo_group) "g"
    "/logs/run3" = Ok "".
Proof. vm_compute. reflexivity. Qed.

(** ** Rendering *)



(** ** The lines of a record *)

Lemma str_len_app a b : str_len (a +:+ b) = str_len a + str_len b.
Proof.
  unfold str_len. induction a as [|c a IH].
  { change ("" +:+ b) with b. simpl. lia. }
  change (String c a +:+ b) with (String c (a +:+ b)).
  simpl String.length. lia.
Qed.

Lemma last_removelast {A} (l : list A) x :
  last l = Some x → l = removelast l ++ [x].
Proof.
  induction l as [|a [|b l] IH]; [done| |].
  - by intros [= ->].
  - intros Hlast.
    change (removelast (a :: b :: l)) with (a :: removelast (b :: l)).
    simpl. f_equal. by apply IH.
Qed.

Lemma view_patterns_fit found w ps :
  ∀ i acc r,
    Forall (line_fits found w) acc.2 →
    view_patterns found (Some w) i ps acc = Ok r →
    Forall (line_fits found w) r.2.
Proof.
  induction ps as [|p ps IH]; intros i acc r Hacc; [by intros [= <-]|].
  simpl. destruct i as [|i]; [by apply IH|].
  destruct (found !! p) as [[n|[v|l]]|] eqn:Hp; [done| |done|by apply IH].
  apply IH. simpl.
  assert (line_fits found w (" " +:+ v)) as Hnew by (right; by exists p, v).
  destruct (last acc.2) as [line|] eqn:Hlast.
  2: { apply Forall_app. split; [done|]. by constructor. }
  destruct (_ <=? _) eqn:Hfit.
  2: { apply Forall_app. split; [done|]. by constructor. }
  apply last_removelast in Hlast. rewrite Hlast in Hacc.
  apply Forall_app in Hacc as [Hacc _]. apply Forall_app. split; [done|].
  constructor; [|done]. left. apply Z.leb_le in Hfit.
  rewrite !str_len_app. change (str_len " | ") with 3. lia.
Qed.

Lemma view_patterns_one_line found ps :
  ∀ i acc r,
    (length acc.2 ≤ 1)%nat →
    view_patterns found None i ps acc = Ok r →
    (length r.2 ≤ 1)%nat.
Proof.
  induction ps as [|p ps IH]; intros i acc r Hacc; [by intros [= <-]|].
  simpl. destruct i as [|i]; [by apply IH|].
  destruct (found !! p) as [[n|[v|l]]|] eqn:Hp; [done| |done|by apply IH].
  apply IH. simpl.
  destruct (last acc.2) as [line|] eqn:Hlast.
  - apply last_removelast in Hlast. rewrite Hlast, length_app in Hacc.
    by rewrite length_app.
  - apply last_None in Hlast. by rewrite Hlast.
Qed.

(** X26.  With a width, every line of a record either is no longer than
    the width or holds a single value, which alone may be too long; without
    a width all values are on one line. *)
Theorem record_lines_fit found ps :
  (∀ w r, view_patterns found (Some w) 0 ps (None, []) = Ok r →
          Forall (line_fits found w) r.2)
  ∧ (∀ r, view_patterns found None 0 ps (None, []) = Ok r →
          (length r.2 ≤ 1)%nat).
Proof.
  split.
  - intros w r. by apply view_patterns_fit.
  - intros r. apply view_patterns_one_line. simpl. lia.
Qed.

(** ** The idle time *)

(** X27.  The text of the idle time shows, in this order, the days, hours,
    minutes and seconds that are positive.  The four numbers add up to the
    seconds given, and the hours, minutes and seconds are within their
    ranges, also when the newest file is stamped in the future: the days
    are then negative and not shown, and the rest reads as a time of less
    than a day. *)
Theorem duration_str_parts delta :
  let '(d, h, m, s) := duration_parts delta in
  duration_str delta
  = duration_part d " days " +:+ duration_part h " hrs "
    +:+ duration_part m " mins " +:+ duration_part s " secs "
  ∧ d * 86400 + h * 3600 + m * 60 + s = delta
  ∧ 0 ≤ h < 24 ∧ 0 ≤ m < 60 ∧ 0 ≤ s < 60
  ∧ (d < 0 ↔ delta < 0).
Proof.
  unfold duration_parts, duration_str, duration_part.
  set (d := delta `div` 86400).
  set (h := (delta - d * 86400) `div` 3600).
  set (m := (delta - d * 86400 - h * 3600) `div` 60).
  set (s := (delta - d * 86400 - h * 3600 - m * 60) `div` 1).
  split.
  - assert (∀ a b c : string, (a +:+ b) +:+ c = a +:+ (b +:+ c)) as Hassoc.
    { intros a b c. induction a as [|x a IH]; [done|].
      change ((String x a +:+ b) +:+ c) with (String x ((a +:+ b) +:+ c)).
      by rewrite IH. }
    assert (∀ a : string, a +:+ "" = a) as Hnil.
    { intros a. induction a as [|x a IH]; [done|].
      change (String x a +:+ "") with (String x (a +:+ "")). by rewrite IH. }
    destruct (0 <? d), (0 <? h), (0 <? m), (0 <? s);
      rewrite ?Hassoc, ?Hnil; change ("" +:+ ?x) with x;
      rewrite ?Hassoc, ?Hnil; done.
  - subst d h m s. Z.div_mod_to_equations. lia.
Qed.

Example duration_str_of_future_stamp :
  duration_str (-1) = "23 hrs 59 mins 59 secs ".
Proof. vm_compute. reflexivity. Qed.

Example record_lines_wrap :
  view_patterns
    {[ "epoch=" := VStr "epoch=5"; "loss=" := VStr "loss=0.2" ]}
    (Some 12) 0 ["done"; "epoch="; "loss="] (None, [])
  = Ok (Some 0, [" epoch=5"; " loss=0.2"]).
Proof. vm_compute. reflexivity. Qed.

(** ** Patterns without a value *)

Lemma first_hit_None e p l :
  ∀ j, first_hit e p j l = None ↔ ∀ fn, fn ∈ l → file_hit e p fn = None.
Proof.
  induction l as [|a l IH]; intros j; simpl.
  { split; [by intros _ fn ?%elem_of_nil|done]. }
  destruct (file_hit e p a) as [r|] eqn:Ha.
  - split; [done|]. intros Hall. rewrite (Hall a) in Ha; [done|by left].
  - rewrite IH. split.
    + intros Hall fn [->|Hfn]%elem_of_cons; [done|by apply Hall].
    + intros Hall fn Hfn. apply Hall. by right.
Qed.

(** X29.  When the probe ends without an exception, a pattern of the list
    has no value exactly when none of the files of the identity has a
    match for it; all the files have then been opened. *)
Theorem pattern_missing_iff_no_match e patterns fns p :
  raised (probe e patterns fns) = None →
  p ∈ patterns →
  (found (probe e patterns fns) !! p = None
   ↔ ∀ fn, fn ∈ fns → file_hit e p fn = None)
  ∧ (found (probe e patterns fns) !! p = None →
     opened (probe e patterns fns) = fns).
Proof.
  intros Hraised Hp. split.
  - rewrite (probe_found e patterns fns p Hraised).
    rewrite <-(first_hit_None e p fns 0). unfold resolved_by.
    destruct patterns as [|ending rest]; [by apply elem_of_nil in Hp|].
    apply elem_of_cons in Hp.
    case_bool_decide as Hrest.
    { by destruct (first_hit e p 0 fns). }
    destruct Hp as [->|Hp]; [|done].
    rewrite bool_decide_eq_true_2 by done.
    by destruct (first_hit e ending 0 fns).
  - intros Hnone.
    destruct (probe_final e patterns fns) as [Hinv _].
    rewrite (inv_opened _ _ _ _ Hinv).
    destruct (probe_exit e patterns fns Hraised) as [Hall| ->].
    + destruct (Hall p Hp) as [v Hv]. congruence.
    + apply firstn_all.
Qed.

Lemma pattern_missing_iff_no_match_witness :
  (found (probe demo_os ["done"; "epoch="; "eta="]
            ["/logs/run1.log"; "/logs/run1.txt"]) !! "eta=" = None
   ↔ ∀ fn, fn ∈ ["/logs/run1.log"; "/logs/run1.txt"] →
           file_hit demo_os "eta=" fn = None)
  ∧ (found (probe demo_os ["done"; "epoch="; "eta="]
              ["/logs/run1.log"; "/logs/run1.txt"]) !! "eta=" = None →
     opened (probe demo_os ["done"; "epoch="; "eta="]
               ["/logs/run1.log"; "/logs/run1.txt"])
     = ["/logs/run1.log"; "/logs/run1.txt"]).
Proof.
  apply (pattern_missing_iff_no_match demo_os ["done"; "epoch="; "eta="]
           ["/logs/run1.log"; "/logs/run1.txt"] "eta=").
  - vm_compute. reflexivity.
  - decide_by_computation.
Defined.

(** ** The [delete] command *)

Lemma foldM_app {A B} (f : A → B → result A) l1 l2 :
  ∀ a, foldM f a (l1 ++ l2) = a' ← foldM f a l1; foldM f a' l2.
Proof.
  induction l1 as [|x l1 IH]; intros a; [done|]. simpl.
  destruct (f a x); simpl; [apply IH|done].
Qed.

Lemma del_paths_run abspath tag w item ps :
  group_of w tag = Some item →
  del_paths abspath tag ps w
  = (Ok (),
     save (store_item tag
             (set_paths
                (filter
                   (λ old, abspath old
                           ∉ (list_to_set (abspath <$> _ensure_sequential ps)
                              : gset string))
                   (paths item))
                item) w)).
Proof. unfold group_of, del_paths, __getitem__. by intros ->. Qed.

(** X30.  The [delete] command raises [KeyError] for a tag that is not
    active, before anything is changed.  For an active tag it first
    deletes the paths and saves; it then succeeds when [int] reads every
    pattern that [isdigit] accepts, and otherwise raises the exception of
    [int] for the first pattern it does not read, with the paths already
    deleted and saved: the command is not all-or-nothing. *)
Theorem del_group_outcomes abspath isdigit int tag path pattern w :
  (group_of w tag = None →
   del_group_by_args abspath isdigit int tag path pattern w
   = (Raise (KeyError tag), w))
  ∧ ∀ item,
      group_of w tag = Some item →
      let item1 :=
        set_paths
          (filter
             (λ old, abspath old
                     ∉ (list_to_set (abspath <$> path) : gset string))
             (paths item))
          item in
      ((∀ p, p ∈ pattern → isdigit p = true → is_ok (int p) = true) →
       ∃ rm_set p_set,
         foldM (sort_pattern isdigit int) (∅, ∅) pattern
         = Ok (rm_set, p_set)
         ∧ del_group_by_args abspath isdigit int tag path pattern w
           = (Ok (),
              save (store_item tag
                      (set_patterns
                         (keep_patterns rm_set p_set 0 (patterns item))
                         item1)
                      w)))
      ∧ (∀ good bad rest ex,
           pattern = good ++ bad :: rest →
           (∀ p, p ∈ good → isdigit p = true → is_ok (int p) = true) →
           isdigit bad = true → int bad = Raise ex →
           del_group_by_args abspath isdigit int tag path pattern w
           = (Raise ex, save (store_item tag item1 w))).
Proof.
  unfold del_group_by_args, and_then. split.
  - unfold group_of, del_paths, __getitem__. by intros ->.
  - intros item Hitem.
    rewrite (del_paths_run abspath tag w item) by done.
    simpl _ensure_sequential. set (item1 := set_paths _ item).
    assert (∀ l, (∀ p, p ∈ l → isdigit p = true → is_ok (int p) = true) →
                 ∀ acc, ∃ r, foldM (sort_pattern isdigit int) acc l = Ok r)
      as Htotal.
    { intros l Hl. apply foldM_total. intros acc p Hp.
      unfold sort_pattern. destruct (isdigit p) eqn:Hd; [|done].
      specialize (Hl p Hp Hd). by destruct (int p). }
    unfold del_patterns, __getitem__.
    change (activated_groups (cfg (self (save (store_item tag ?i w)))))
      with (<[tag := i]> (activated_groups (cfg (self w)))).
    rewrite lookup_insert_eq. simpl _ensure_sequential. split.
    + intros Hall. destruct (Htotal pattern Hall (∅, ∅)) as [[rm_set p_set] Hr].
      exists rm_set, p_set. split; [done|]. rewrite Hr.
      by rewrite store_item_twice.
    + intros good bad rest ex -> Hgood Hd Hn.
      destruct (Htotal good Hgood (∅, ∅)) as [acc Hr].
      assert (sort_pattern isdigit int acc bad = Raise ex) as Hbad
        by (unfold sort_pattern; by rewrite Hd, Hn).
      rewrite foldM_app, Hr. simpl. by rewrite Hbad.
Qed.

(** With the pattern [²] the paths of the group are deleted and saved,
    and the command ends in [ValueError]. *)
Example del_group_superscript :
  ∃ msg,
    del_group_by_args id str_isdigit str_int "g" ["/logs"] [superscript_two]
      demo_world
    = (Raise (ValueError msg),
       save (store_item "g" (set_paths [] demo_group) demo_world)).
Proof. eexists. vm_compute. reflexivity. Qed.
